(** * marker: HTML to Markdown renderer (marker/renderers/markdown.py)

    A shallow embedding of the Markdown renderer: the text clean-up pass,
    the paragraph, list and table converters of [Markdownify], and the
    regular expressions they rely on.

    Python [str] values are sequences of Unicode code points, so text is
    modelled as [list N]; tag and attribute names are identifiers and are
    kept as [string]. Exceptions are explicit: a function that can raise
    returns a [result]. *)

From Stdlib Require Import ZArith NArith String Ascii Bool Lia List.
From stdpp Require Import base numbers list gmap strings.

Set Default Proof Using "Type".
Set Warnings "-register-all".

(** ** Python strings *)

Module PyStr.

Definition char := N.
Definition str := list char.

(** An ASCII literal as text. *)
Definition txt (s : string) : str := map N_of_ascii (list_ascii_of_string s).

Definition NL : char := 10%N.
Definition SPACE : char := 32%N.
Definition DOT : char := 46%N.
Definition PIPE : char := 124%N.
Definition DOLLAR : char := 36%N.
Definition BACKSLASH : char := 92%N.

Definition between (lo hi c : N) : bool := ((lo <=? c) && (c <=? hi))%N.

(** [str.isspace] on one character; also [\s] of the [re] module on [str]
    patterns. *)
Definition is_space (c : char) : bool :=
  between 9 13 c || between 28 32 c || (c =? 133)%N || (c =? 160)%N
  || (c =? 5760)%N || between 8192 8202 c || (c =? 8232)%N || (c =? 8233)%N
  || (c =? 8239)%N || (c =? 8287)%N || (c =? 12288)%N.

(** [\s] of the [regex] module: the Unicode White_Space property. *)
Definition is_white_space (c : char) : bool :=
  between 9 13 c || (c =? 32)%N || (c =? 133)%N || (c =? 160)%N
  || (c =? 5760)%N || between 8192 8202 c || (c =? 8232)%N || (c =? 8233)%N
  || (c =? 8239)%N || (c =? 8287)%N || (c =? 12288)%N.

Fixpoint drop_while (p : char -> bool) (s : str) : str :=
  match s with
  | [] => []
  | c :: s' => if p c then drop_while p s' else s
  end.

Fixpoint take_while (p : char -> bool) (s : str) : str :=
  match s with
  | [] => []
  | c :: s' => if p c then c :: take_while p s' else []
  end.

Definition lstrip (s : str) : str := drop_while is_space s.
Definition rstrip (s : str) : str := rev (drop_while is_space (rev s)).
Definition strip (s : str) : str := rstrip (lstrip s).

(** [s.replace(old, new)] for a one-character [old]. *)
Definition replace1 (old : char) (new : str) (s : str) : str :=
  flat_map (fun c => if (c =? old)%N then new else [c]) s.

(** [sep.join(parts)]. *)
Fixpoint join (sep : str) (parts : list str) : str :=
  match parts with
  | [] => []
  | [p] => p
  | p :: ps => p ++ sep ++ join sep ps
  end.

(** [s.split(sep)] for a one-character separator: [acc] holds the current
    field, reversed. *)
Fixpoint split_acc (sep : char) (acc : str) (s : str) : list str :=
  match s with
  | [] => [rev acc]
  | c :: s' =>
      if (c =? sep)%N then rev acc :: split_acc sep [] s'
      else split_acc sep (c :: acc) s'
  end.
Definition split1 (sep : char) (s : str) : list str := split_acc sep [] s.

Definition text_eqb (a b : str) : bool := bool_decide (a = b).

Definition count_char (c : char) (s : str) : nat :=
  length (List.filter (fun x => (x =? c)%N) s).

(** [s.startswith(prefix)] and [s.endswith(suffix)]. *)
Definition startswith (prefix s : str) : bool :=
  text_eqb (take (length prefix) s) prefix.
Definition endswith (suffix s : str) : bool :=
  (length suffix <=? length s) && text_eqb (drop (length s - length suffix) s) suffix.

End PyStr.

(** ** Exceptions *)

Inductive exn := KeyError | ValueError | IndexError.

Inductive result (A : Type) :=
| Ok (a : A)
| Raise (e : exn).
Arguments Ok {A} a.
Arguments Raise {A} e.

Global Instance result_bind : MBind result := fun A B k r =>
  match r with
  | Ok a => k a
  | Raise e => Raise e
  end.

(** ** Regular expressions

    A backtracking matcher with the priorities of Python's [re] and [regex]
    modules: [run r st] lists, in the order the matcher would try them, every
    state a match of [r] can end in when started at [st]; the match Python
    returns is the first. *)

Module Re.
Import PyStr.

Inductive regex :=
| Eps
| Cls (p : char -> bool)                   (* one character of a class *)
| Bol                                      (* ^ *)
| Eol                                      (* $ *)
| Seq (r1 r2 : regex)
| Alt (r1 r2 : regex)
| Rep (lo : nat) (greedy : bool) (r : regex)   (* r{lo,}: r* is Rep 0, r+ is Rep 1 *)
| Opt (greedy : bool) (r : regex)          (* r? *)
| Grp (n : nat) (r : regex).               (* capturing group number n *)

(** A matcher state: the position in the subject, the text still to be
    read, and the groups closed so far (most recent first). *)
Record mstate := MState { pos : nat; rest : str; caps : list (nat * str) }.

(** [r{lo,}] with [step] the matcher of [r]. No iteration is tried once
    [fuel] is used up; [run] passes the length of the remaining text, which
    is enough whenever every iteration reads at least one character, as is
    the case for every repetition in this file. *)
Fixpoint rep (step : mstate -> list mstate) (lo : nat) (greedy : bool)
    (fuel : nat) (st : mstate) : list mstate :=
  match fuel with
  | O => match lo with O => [st] | S _ => [] end
  | S f =>
      let more := flat_map (rep step (pred lo) greedy f) (step st) in
      match lo with
      | O => if greedy then more ++ [st] else st :: more
      | S _ => more
      end
  end.

Fixpoint run (r : regex) (st : mstate) : list mstate :=
  match r with
  | Eps => [st]
  | Cls p =>
      match rest st with
      | c :: s => if p c then [MState (S (pos st)) s (caps st)] else []
      | [] => []
      end
  | Bol => match pos st with O => [st] | S _ => [] end
  | Eol =>
      match rest st with
      | [] => [st]
      | [c] => if (c =? NL)%N then [st] else []
      | _ => []
      end
  | Seq r1 r2 => flat_map (run r2) (run r1 st)
  | Alt r1 r2 => run r1 st ++ run r2 st
  | Rep lo g r => rep (run r) lo g (length (rest st)) st
  | Opt g r => if g then run r st ++ [st] else st :: run r st
  | Grp n r =>
      map (fun st' =>
             MState (pos st') (rest st')
                    ((n, take (pos st' - pos st) (rest st)) :: caps st'))
          (run r st)
  end.

Definition start (p : nat) (s : str) : mstate := MState p s [].

(** [m.group(n)]: the last text recorded for group [n]. *)
Fixpoint group (n : nat) (cs : list (nat * str)) : str :=
  match cs with
  | [] => []
  | (k, t) :: cs' => if Nat.eqb k n then t else group n cs'
  end.

(** [pattern.match(s)]: a match starting at position 0. *)
Definition re_match (r : regex) (s : str) : option mstate :=
  head (run r (start 0 s)).

(** [pattern.search]: the leftmost position with a match, [s] being the
    text from position [p] on. *)
Fixpoint search_from (r : regex) (p : nat) (s : str) : option (nat * mstate) :=
  match head (run r (start p s)) with
  | Some st' => Some (p, st')
  | None =>
      match s with
      | [] => None
      | _ :: s' => search_from r (S p) s'
      end
  end.

(** [re.sub(pattern, repl, s)], [repl] receiving the matched text
    ([m.group()]). [skip] counts the characters of the current match that
    are still to be passed over; an empty match is replaced and the scan
    moves on by one character (Python 3.7 and later). *)
Fixpoint sub_scan (r : regex) (repl : str -> str) (skip : nat) (p : nat)
    (s : str) : str :=
  match skip with
  | S k =>
      match s with
      | [] => []
      | _ :: s' => sub_scan r repl k (S p) s'
      end
  | O =>
      match head (run r (start p s)) with
      | Some st' =>
          let n := pos st' - p in
          repl (take n s) ++
          match s with
          | [] => []
          | c :: s' =>
              match n with
              | O => c :: sub_scan r repl O (S p) s'
              | S k => sub_scan r repl k (S p) s'
              end
          end
      | None =>
          match s with
          | [] => []
          | c :: s' => c :: sub_scan r repl O (S p) s'
          end
      end
  end.

Definition re_sub (r : regex) (repl : str -> str) (s : str) : str :=
  sub_scan r repl 0 0 s.

(** [re.split(pattern, s)[0]] for a pattern that cannot match the empty
    string: the text before the leftmost match, or all of [s]. *)
Definition split_head (r : regex) (s : str) : str :=
  match search_from r 0 s with
  | Some (p, _) => take p s
  | None => s
  end.

(** Character classes. *)
Definition is_char (c : char) : char -> bool := fun x => (x =? c)%N.
Definition any_char : char -> bool := fun _ => true.          (* . with DOTALL *)
Definition dot : char -> bool := fun x => negb (x =? NL)%N.   (* . *)

Definition Star (r : regex) : regex := Rep 0 true r.
Definition Plus (r : regex) : regex := Rep 1 true r.
Definition PlusLazy (r : regex) : regex := Rep 1 false r.
Definition Chr (c : char) : regex := Cls (is_char c).

End Re.

(** ** The HTML tree (BeautifulSoup) *)

Module Soup.
Import PyStr.

(** A parsed node: a text run, or a tag with its name, the value of its
    [class] attribute when it has one (the parser splits it into a list),
    its other attributes (plain strings) and its contents. *)
Inductive node :=
| NavigableString (s : str)
| Tag (name : string) (class : option (list str))
      (attrs : list (string * str)) (contents : list node).

Definition node_class (n : node) : option (list str) :=
  match n with
  | NavigableString _ => None
  | Tag _ c _ _ => c
  end.

Definition node_attrs (n : node) : list (string * str) :=
  match n with
  | NavigableString _ => []
  | Tag _ _ a _ => a
  end.

Definition contents (n : node) : list node :=
  match n with
  | NavigableString _ => []
  | Tag _ _ _ cs => cs
  end.

Definition has_name (names : list string) (n : node) : bool :=
  match n with
  | NavigableString _ => false
  | Tag name _ _ _ => existsb (String.eqb name) names
  end.

(** [el.get(key)] for an attribute other than [class]. *)
Fixpoint lookup_attr (key : string) (attrs : list (string * str)) : option str :=
  match attrs with
  | [] => None
  | (k, v) :: attrs' => if String.eqb k key then Some v else lookup_attr key attrs'
  end.

Definition get (n : node) (key : string) : option str :=
  lookup_attr key (node_attrs n).

(** [el[key]]: raises [KeyError] when the attribute is missing. *)
Definition getitem (n : node) (key : string) : result str :=
  match get n key with
  | Some v => Ok v
  | None => Raise KeyError
  end.

(** The nodes below [n], in document order. *)
Fixpoint descendants (n : node) : list node :=
  match n with
  | NavigableString _ => []
  | Tag _ _ _ cs => flat_map (fun c => c :: descendants c) cs
  end.

(** [el.find_all(names)]. *)
Definition find_all (names : list string) (n : node) : list node :=
  List.filter (has_name names) (descendants n).

(** [el.find_all(names, recursive=False)]. *)
Definition find_children (names : list string) (n : node) : list node :=
  List.filter (has_name names) (contents n).

(** [el.get_text(separator="", strip=False)], also [el.text]. *)
Fixpoint get_text (n : node) : str :=
  match n with
  | NavigableString s => s
  | Tag _ _ _ cs => flat_map get_text cs
  end.

End Soup.

(** ** What the module imports

    The pieces the renderer takes from outside this file: Unicode character
    data, the [BlockTypes] enumeration, BeautifulSoup's serializer and the
    base class [MarkdownConverter]. *)

Record externals := {
  (** members of the Unicode category Ll beyond ASCII *)
  lowercase_letter : PyStr.char -> bool;
  (** value of a decimal digit (category Nd) beyond ASCII *)
  decimal_digit : PyStr.char -> option Z;
  (** member names of [marker.schema.BlockTypes] besides the three this
      file names *)
  block_type_names : PyStr.str -> bool;
  (** [str(tag)] *)
  html_str : Soup.node -> PyStr.str;
  (** [MarkdownConverter.convert] *)
  convert_html : PyStr.str -> result PyStr.str;
  (** [MarkdownConverter.convert_<tag>] *)
  inherited : string -> Soup.node -> PyStr.str -> list string -> result PyStr.str;
  (** [MarkdownConverter.escape] *)
  base_escape : PyStr.str -> PyStr.str;
  (** [sys.get_int_max_str_digits()]: 0 when the interpreter sets no limit
      on the number of digits [int] reads *)
  int_max_str_digits : nat
}.

Module Unicode.
Import PyStr.

(** [\p{Ll}]. *)
Definition is_Ll (E : externals) (c : char) : bool :=
  if (c <? 128)%N then between 97 122 c else lowercase_letter E c.

(** The value of a decimal digit, as [int] and [\d] see it. *)
Definition digit_value (E : externals) (c : char) : option Z :=
  if (c <? 128)%N then
    if between 48 57 c then Some (Z.of_N c - 48)%Z else None
  else decimal_digit E c.

(** [\d] on [str] patterns. *)
Definition is_digit (E : externals) (c : char) : bool :=
  match digit_value E c with Some _ => true | None => false end.

(** Whitespace as [int] sees it around a number: the ASCII characters of
    [Py_ISSPACE], and the Unicode whitespace beyond ASCII, which [int]
    turns into spaces first. The separators U+001C to U+001F, which
    [str.strip] removes, are not among them. *)
Definition int_space (c : char) : bool :=
  between 9 13 c || (c =? 32)%N || ((128 <=? c)%N && is_space c).

(** The value of a digit as [int] reads it. *)
Definition int_digit (E : externals) (c : char) : option Z :=
  if (128 <=? c)%N && is_space c then None else digit_value E c.

(** Digits, single underscores allowed between them. [seen] tells whether
    the previous character was a digit. *)
Fixpoint parse_digits (E : externals) (acc : Z) (seen : bool) (s : str) : option Z :=
  match s with
  | [] => if seen then Some acc else None
  | c :: s' =>
      if (c =? 95)%N then
        if seen then parse_digits E acc false s' else None
      else
        match int_digit E c with
        | Some d => parse_digits E (acc * 10 + d)%Z true s'
        | None => None
        end
  end.

(** The limit on the number of digits: it is looked at for more than 640
    digits only, and a limit of 0 is no limit. *)
Definition int_limit_exceeded (E : externals) (digits : nat) : bool :=
  (640 <? digits) && ((0 <? int_max_str_digits E) && (int_max_str_digits E <? digits)).

(** [int(s)] for a string [s]: whitespace around the number and a sign
    before it are allowed; anything else that is not a decimal number, and
    a number of more digits than the limit, raises [ValueError]. *)
Definition py_int (E : externals) (s : str) : result Z :=
  let body (sign : Z) (ds : str) :=
    match parse_digits E 0 false ds with
    | Some n =>
        let digits := length (List.filter (fun c => negb (c =? 95)%N) ds) in
        if int_limit_exceeded E digits then Raise ValueError
        else Ok (sign * n)%Z
    | None => Raise ValueError
    end in
  match rev (drop_while int_space (rev (drop_while int_space s))) with
  | 43%N :: ds => body 1%Z ds
  | 45%N :: ds => body (-1)%Z ds
  | ds => body 1%Z ds
  end.

End Unicode.

(** ** marker/renderers/markdown.py *)

Module Markdown.
Import PyStr Re Soup Unicode.

Definition escape_dollars (t : str) : str :=
  replace1 DOLLAR [BACKSLASH; DOLLAR] t.

(** [\n{3,}] *)
Definition re_newlines : regex := Rep 3 true (Chr NL).

(** [(\n\s){3,}] *)
Definition re_blank_lines : regex :=
  Rep 3 true (Grp 1 (Seq (Chr NL) (Cls is_space))).

Definition cleanup_text (full_text : str) : str :=
  let full_text := re_sub re_newlines (fun _ => [NL; NL]) full_text in
  let full_text := re_sub re_blank_lines (fun _ => [NL; NL]) full_text in
  strip full_text.

(** *** Post-processing in [MarkdownRenderer.__call__] *)

Definition LOW_LINE : char := 95%N.
Definition LOWER_BLOCK : char := 9601%N.       (* U+2581 *)
Definition ELLIPSIS : char := 8230%N.          (* U+2026 *)

Definition is_blank_glyph (c : char) : bool :=
  (c =? LOW_LINE)%N || (c =? LOWER_BLOCK)%N || (c =? ELLIPSIS)%N || (c =? DOT)%N.

(** [(_|▁|…|\.){4,}] *)
Definition re_blank_run : regex :=
  Rep 4 true
      (Grp 1 (Alt (Alt (Alt (Chr LOW_LINE) (Chr LOWER_BLOCK)) (Chr ELLIPSIS))
                  (Chr DOT))).

(** [(\. ?){130,}] *)
Definition re_dot_leader : regex :=
  Rep 130 true (Grp 1 (Seq (Chr DOT) (Opt true (Chr SPACE)))).

Definition FILL_IN_BLANK_WIDTH : nat := 150.

(** Normalize form fill-in-the-blank markers. *)
Definition normalize_blanks (markdown : str) : str :=
  re_sub re_blank_run (fun m => replicate (length m * 2) DOT) markdown.

(** Normalize sequences of dots to fixed line width. *)
Definition normalize_dot_leaders (markdown : str) : str :=
  re_sub re_dot_leader
         (fun _ => [NL; NL] ++ replicate FILL_IN_BLANK_WIDTH DOT ++ [NL; NL])
         markdown.

(** The pass over the converted text, before the pagination fix-up. *)
Definition postprocess (markdown : str) : str :=
  normalize_dot_leaders (normalize_blanks (cleanup_text markdown)).

(** *** The converter and its configuration *)

Record Markdownify := {
  paginate_output : bool;
  page_separator : str;
  inline_math_delimiters : str * str;
  block_math_delimiters : str * str;
  html_tables_in_markdown : bool;
  option_escape_dollars : bool
}.

(** [marker.schema.BlockTypes], as far as this file names its members. *)
Inductive BlockTypes :=
| TextInlineMath
| Text
| ListGroup
| OtherBlockType (name : str).

(** [BlockTypes[name]]: raises [KeyError] for a name that is no member. *)
Definition BlockTypes_getitem (E : externals) (name : str) : result BlockTypes :=
  if text_eqb name (txt "TextInlineMath") then Ok TextInlineMath
  else if text_eqb name (txt "Text") then Ok Text
  else if text_eqb name (txt "ListGroup") then Ok ListGroup
  else if block_type_names E name then Ok (OtherBlockType name)
  else Raise KeyError.

Definition has_class (el : node) : bool :=
  match node_class el with Some _ => true | None => false end.

Definition convert_div (self : Markdownify) (el : node) (text : str)
    : result str :=
  is_page ←
    match node_class el with
    | None => Ok false
    | Some [] => Raise IndexError
    | Some (c :: _) => Ok (text_eqb c (txt "page"))
    end;
  if paginate_output self && is_page then
    page_id ← getitem el "data-page-id";
    Ok ([NL; NL] ++ txt "{" ++ page_id ++ txt "}" ++ page_separator self
        ++ [NL; NL] ++ text)
  else
    Ok (match text with [] => [] | _ => text ++ [NL; NL] end).

Definition EM_DASH : char := 8212%N.           (* U+2014 *)
Definition NOT_SIGN : char := 172%N.           (* U+00AC *)

Definition is_hyphen (c : char) : bool :=
  (c =? 45)%N || (c =? EM_DASH)%N || (c =? NOT_SIGN)%N.

(** The class [[\p{Ll}|\d]]. *)
Definition before_hyphen (E : externals) (c : char) : bool :=
  is_Ll E c || (c =? PIPE)%N || is_digit E c.

(** [.*[\p{Ll}|\d][-—¬]\s?$] with DOTALL, of the [regex] module. *)
Definition re_hyphenated (E : externals) : regex :=
  Seq (Star (Cls any_char))
      (Seq (Cls (before_hyphen E))
           (Seq (Cls is_hyphen) (Seq (Opt true (Cls is_white_space)) Eol))).

(** [[-—¬]\s?$] *)
Definition re_trailing_hyphen : regex :=
  Seq (Cls is_hyphen) (Seq (Opt true (Cls is_white_space)) Eol).

Definition has_continuation (el : node) : bool :=
  match node_class el with
  | Some cl => bool_decide (txt "has-continuation" ∈ cl)
  | None => false
  end.

Definition default_convert_p (text : str) : str :=
  match text with [] => [] | _ => text ++ [NL; NL] end.

Definition convert_p (E : externals) (el : node) (text : str) : result str :=
  if has_continuation el then
    name ← getitem el "block-type";
    block_type ← BlockTypes_getitem E name;
    match block_type with
    | TextInlineMath | Text =>
        match re_match (re_hyphenated E) text with
        | Some _ => Ok (split_head re_trailing_hyphen text)   (* hyphenation across pages *)
        | None => Ok (text ++ [SPACE])
        end
    | ListGroup => Ok text
    | OtherBlockType _ => Ok (default_convert_p text)
    end
  else Ok (default_convert_p text).

Definition convert_math (self : Markdownify) (el : node) (text : str) : str :=
  let block :=
    match get el "display" with
    | Some d => text_eqb d (txt "block")
    | None => false
    end in
  if block then
    [NL] ++ fst (block_math_delimiters self) ++ strip text
         ++ snd (block_math_delimiters self) ++ [NL]
  else
    [SPACE] ++ fst (inline_math_delimiters self) ++ strip text
            ++ snd (inline_math_delimiters self) ++ [SPACE].

Definition convert_span (el : node) (text : str) : str :=
  match get el "id" with
  | Some (c :: id) => txt "<span id=" ++ [34%N] ++ (c :: id) ++ [34%N] ++ txt ">"
                      ++ text ++ txt "</span>"
  | _ => text
  end.

Definition escape (E : externals) (self : Markdownify) (text : str) : str :=
  let text := base_escape E text in
  if option_escape_dollars self then replace1 DOLLAR [BACKSLASH; DOLLAR] text
  else text.

Definition is_bracket (c : char) : bool :=
  (c =? 91)%N || (c =? 93)%N || (c =? 40)%N || (c =? 41)%N.

Definition convert_a (E : externals) (self : Markdownify) (el : node)
    (text : str) (parent_tags : list string) : result str :=
  let text := escape E self text in
  let text := re_sub (Grp 1 (Cls is_bracket)) (fun m => BACKSLASH :: m) text in
  inherited E "a" el text parent_tags.

(** *** Tables *)

Definition BR : str := txt "<br>".

(** The loop that joins the parts of a cell: a space goes before a part
    unless it is the first, is a line break, or follows one. *)
Fixpoint join_table_text (prev : option str) (parts : list str) : str :=
  match parts with
  | [] => []
  | t :: parts' =>
      (if text_eqb t BR then t
       else match prev with
            | Some p => if text_eqb p BR then t else SPACE :: t
            | None => t
            end)
      ++ join_table_text (Some t) parts'
  end.

Definition get_formatted_table_text (E : externals) (element : node) : str :=
  let text :=
    flat_map
      (fun content =>
         match content with
         | NavigableString s =>
             match strip s with
             | [] => []
             | stripped => [escape_dollars stripped]
             end
         | Tag name _ _ _ =>
             if String.eqb name "br" then [BR]
             else if String.eqb name "math" then
               [[DOLLAR] ++ get_text content ++ [DOLLAR]]
             else [escape_dollars (html_str E content)]
         end)
      (contents element) in
  join_table_text None text.

(** [int(cell.get(attr, 1))] *)
Definition cell_span (E : externals) (cell : node) (attr : string) : result Z :=
  match get cell attr with
  | Some v => py_int E v
  | None => Ok 1%Z
  end.

(** [rowspan_cols[k] += colspan] on the [defaultdict(int)]. *)
Definition bump (m : gmap nat Z) (k : nat) (colspan : Z) : gmap nat Z :=
  <[k := (default 0%Z (m !! k) + colspan)%Z]> m.

(** First pass, the cells of row [i]. *)
Fixpoint count_cells (E : externals) (i : nat) (cells : list node)
    (row_cols : Z) (rowspan_cols : gmap nat Z) : result (Z * gmap nat Z) :=
  match cells with
  | [] => Ok (row_cols, rowspan_cols)
  | cell :: cells' =>
      colspan ← cell_span E cell "colspan";
      rowspan ← cell_span E cell "rowspan";
      let rowspan_cols :=
        foldl (fun m r => bump m (i + r) colspan) rowspan_cols
              (seq 0 (Z.to_nat (rowspan - 1))) in
      count_cells E i cells' (row_cols + colspan)%Z rowspan_cols
  end.

(** First pass, the rows from index [i] on: the list [colspans]. *)
Fixpoint count_rows (E : externals) (i : nat) (rows : list node)
    (rowspan_cols : gmap nat Z) : result (list Z) :=
  match rows with
  | [] => Ok []
  | row :: rows' =>
      '(row_cols, rowspan_cols) ←
        count_cells E i (find_all ["td"; "th"] row)
                    (default 0%Z (rowspan_cols !! i)) rowspan_cols;
      colspans ← count_rows E (S i) rows' rowspan_cols;
      Ok (row_cols :: colspans)
  end.

(** [max(colspans) if colspans else 0] *)
Definition max_or_zero (colspans : list Z) : Z :=
  match colspans with
  | [] => 0%Z
  | c :: cs => foldl Z.max c cs
  end.

Definition table_total_cols (E : externals) (el : node) : result Z :=
  colspans ← count_rows E 0 (find_all ["tr"] el) ∅;
  Ok (max_or_zero colspans).

(** The grid: [None] is a position not filled yet. *)
Definition grid := list (list (option str)).

(** Python's index into a list of length [n]: a negative index counts
    from the end; [None] stands for [IndexError]. *)
Definition py_index (n : nat) (i : Z) : option nat :=
  let j := if (i <? 0)%Z then (i + Z.of_nat n)%Z else i in
  if ((0 <=? j) && (j <? Z.of_nat n))%Z then Some (Z.to_nat j) else None.

(** [grid[r][c] = v]; [None] stands for [IndexError]. *)
Definition grid_set (g : grid) (r : nat) (c : Z) (v : option str) : option grid :=
  match g !! r with
  | None => None
  | Some row =>
      match py_index (length row) c with
      | None => None
      | Some j => Some (<[r := <[j := v]> row]> g)
      end
  end.

(** The [while] loop that moves the cursor past filled positions of
    [row]. It runs at most [total_cols - col_idx] times, which is the fuel
    its caller passes. *)
Fixpoint skip_filled (fuel : nat) (row : list (option str)) (total_cols col_idx : Z)
    : result Z :=
  if (col_idx <? total_cols)%Z then
    match py_index (length row) col_idx with
    | None => Raise IndexError
    | Some j =>
        match row !! j with
        | Some (Some _) =>
            match fuel with
            | O => Ok col_idx
            | S fuel' => skip_filled fuel' row total_cols (col_idx + 1)%Z
            end
        | _ => Ok col_idx
        end
    end
  else Ok col_idx.

(** The body of the two [for] loops over a cell's extent, with its
    [try]/[except IndexError]: an assignment out of range is dropped. *)
Definition fill_position (value : str) (row_idx : nat) (col_idx : Z)
    (g : grid) (r c : nat) : grid :=
  let assigned :=
    match r, c with
    | O, O => grid_set g row_idx col_idx (Some value)
    | _, _ => grid_set g (row_idx + r) (col_idx + Z.of_nat c)%Z (Some [])
    end in
  match assigned with
  | Some g' => g'
  | None => g
  end.

Definition fill_extent (value : str) (row_idx : nat) (col_idx rowspan colspan : Z)
    (g : grid) : grid :=
  foldl (fun g r =>
           foldl (fun g c => fill_position value row_idx col_idx g r c)
                 g (seq 0 (Z.to_nat colspan)))
        g (seq 0 (Z.to_nat rowspan)).

(** One entry per cell handled by the second pass (not program state):
    where the cursor stood once the filled positions were skipped, what
    the cell asked for, and the grid as it was then. *)
Record placement := {
  p_row : nat;
  p_col : Z;
  p_value : str;
  p_rowspan : Z;
  p_colspan : Z;
  p_before : grid
}.

Definition cell_value (E : externals) (cell : node) : str :=
  strip (replace1 PIPE [SPACE] (replace1 NL [SPACE] (get_formatted_table_text E cell))).

(** Second pass, one cell of row [row_idx]. *)
Definition place_cell (E : externals) (total_cols : Z) (row_idx : nat)
    (st : grid * Z * list placement) (cell : node)
    : result (grid * Z * list placement) :=
  let '(g, col_idx, log) := st in
  row ← match g !! row_idx with Some row => Ok row | None => Raise IndexError end;
  col_idx ← skip_filled (Z.to_nat (total_cols - col_idx)) row total_cols col_idx;
  let value := cell_value E cell in
  rowspan ← cell_span E cell "rowspan";
  colspan ← cell_span E cell "colspan";
  let log := log ++ [Build_placement row_idx col_idx value rowspan colspan g] in
  if (total_cols <=? col_idx)%Z then Ok (g, col_idx, log)     (* out of bounds: skip *)
  else
    Ok (fill_extent value row_idx col_idx rowspan colspan g,
        (col_idx + colspan)%Z, log).

Fixpoint place_cells (E : externals) (total_cols : Z) (row_idx : nat)
    (st : grid * Z * list placement) (cells : list node)
    : result (grid * Z * list placement) :=
  match cells with
  | [] => Ok st
  | cell :: cells' =>
      st ← place_cell E total_cols row_idx st cell;
      place_cells E total_cols row_idx st cells'
  end.

(** Second pass, the rows from index [row_idx] on. *)
Fixpoint place_rows (E : externals) (total_cols : Z) (row_idx : nat)
    (g : grid) (log : list placement) (rows : list node)
    : result (grid * list placement) :=
  match rows with
  | [] => Ok (g, log)
  | tr :: rows' =>
      '(g, _, log) ←
        place_cells E total_cols row_idx (g, 0%Z, log) (find_all ["td"; "th"] tr);
      place_rows E total_cols (S row_idx) g log rows'
  end.

Definition empty_grid (total_rows : nat) (total_cols : Z) : grid :=
  replicate total_rows (replicate (Z.to_nat total_cols) None).

(** The grid of a table, and the log of its second pass. *)
Definition table_grid (E : externals) (el : node) : result (Z * grid * list placement) :=
  let rows := find_all ["tr"] el in
  let total_rows := length rows in
  total_cols ← table_total_cols E el;
  '(g, log) ← place_rows E total_cols 0 (empty_grid total_rows total_cols) [] rows;
  Ok (total_cols, g, log).

Definition column_widths (total_cols : Z) (g : grid) : list nat :=
  foldl (fun widths row =>
           foldl (fun widths '(col_idx, cell) =>
                    match cell with
                    | Some s => <[col_idx := Nat.max (nth col_idx widths 0) (length s)]> widths
                    | None => widths
                    end)
                 widths (imap (fun col_idx cell => (col_idx, cell)) row))
        (replicate (Z.to_nat total_cols) 0) g.

Definition header_line (col_widths : list nat) : str :=
  [PIPE] ++ join [PIPE] (map (fun width => replicate (width + 2) 45%N) col_widths)
         ++ [PIPE].

Definition render_row (col_widths : list nat) (row : list (option str)) : str :=
  let line :=
    imap (fun col_idx cell =>
            let cell := default [] cell in
            let padding := nth col_idx col_widths 0 - length cell in
            [SPACE] ++ cell ++ replicate padding SPACE ++ [SPACE])
         row in
  [PIPE] ++ join [PIPE] line ++ [PIPE].

Definition is_empty_line (row : list (option str)) : bool :=
  forallb (fun cell => match cell with Some (_ :: _) => false | _ => true end) row.

(** The loop that generates [markdown_lines]. *)
Fixpoint render_rows (col_widths : list nat) (added_header : bool) (g : grid)
    : list str :=
  match g with
  | [] => []
  | row :: g' =>
      if is_empty_line row && negb added_header then
        render_rows col_widths added_header g'     (* skip leading blank lines *)
      else
        render_row col_widths row ::
        (if added_header then render_rows col_widths true g'
         else header_line col_widths :: render_rows col_widths true g')
  end.

Definition markdown_lines (total_cols : Z) (g : grid) : list str :=
  render_rows (column_widths total_cols g) false g.

Definition convert_table (E : externals) (self : Markdownify) (el : node)
    : result str :=
  if html_tables_in_markdown self then
    Ok ([NL; NL] ++ html_str E el ++ [NL; NL])
  else
    '(total_cols, g, _) ← table_grid E el;
    Ok ([NL; NL] ++ join [NL] (markdown_lines total_cols g) ++ [NL; NL]).

(** *** Lists *)

(** [cat [r1; ...; rn]] is the concatenation [r1 r2 ... rn]. *)
Fixpoint cat (rs : list regex) : regex :=
  match rs with
  | [] => Eps
  | [r] => r
  | r :: rs' => Seq r (cat rs')
  end.

Definition is_lower_ascii (c : char) : bool := between 97 122 c.

(** [(\.|\))] *)
Definition dot_or_paren : regex := Alt (Chr DOT) (Chr 41%N).

(** [^\s*(\d+)(\.|\))\s+(.+)] *)
Definition numbered_pattern (E : externals) : regex :=
  cat [Bol; Star (Cls is_space); Grp 1 (Plus (Cls (is_digit E)));
       Grp 2 dot_or_paren; Plus (Cls is_space); Grp 3 (Plus (Cls dot))].

(** [^\s*([a-z])(\.|\))\s+(.+)] *)
Definition letter_numbered_pattern : regex :=
  cat [Bol; Star (Cls is_space); Grp 1 (Cls is_lower_ascii);
       Grp 2 dot_or_paren; Plus (Cls is_space); Grp 3 (Plus (Cls dot))].

(** [^(.+?)\s+(\d+)\.\s*$] *)
Definition trailing_number_pattern (E : externals) : regex :=
  cat [Bol; Grp 1 (PlusLazy (Cls dot)); Plus (Cls is_space);
       Grp 2 (Plus (Cls (is_digit E))); Chr DOT; Star (Cls is_space); Eol].

(** [^(.+?)\s+(\d+)\)\s*$] *)
Definition trailing_number_paren_pattern (E : externals) : regex :=
  cat [Bol; Grp 1 (PlusLazy (Cls dot)); Plus (Cls is_space);
       Grp 2 (Plus (Cls (is_digit E))); Chr 41%N; Star (Cls is_space); Eol].

(** [^(.+?)\s+[a-z]\)\s+(\d+)\)\s*$] *)
Definition trailing_letter_number_pattern (E : externals) : regex :=
  cat [Bol; Grp 1 (PlusLazy (Cls dot)); Plus (Cls is_space);
       Cls is_lower_ascii; Chr 41%N; Plus (Cls is_space);
       Grp 2 (Plus (Cls (is_digit E))); Chr 41%N; Star (Cls is_space); Eol].

(** The text of an item without its nested lists. *)
Definition li_text (li : node) : str :=
  flat_map
    (fun child =>
       match child with
       | NavigableString s => s
       | Tag name _ _ _ =>
           if existsb (String.eqb name) ["ul"; "ol"] then [] else get_text child
       end)
    (contents li).

(** [f"{number}. {text_part}"] from a match of a trailing pattern. *)
Definition number_first (m : mstate) : str :=
  group 2 (caps m) ++ txt ". " ++ strip (group 1 (caps m)).

(** The line of an item whose stripped text is [li_text_stripped]. *)
Definition li_line (E : externals) (li_text_stripped : str) : str :=
  match re_match (trailing_letter_number_pattern E) li_text_stripped with
  | Some m => number_first m                       (* "text a) 1)" -> "1. text" *)
  | None =>
  match re_match (trailing_number_pattern E) li_text_stripped with
  | Some m => number_first m                       (* "text 1." -> "1. text" *)
  | None =>
  match re_match (trailing_number_paren_pattern E) li_text_stripped with
  | Some m => number_first m                       (* "text 1)" -> "1. text" *)
  | None =>
  match re_match (numbered_pattern E) li_text_stripped with
  | Some _ => li_text_stripped
  | None =>
  match re_match letter_numbered_pattern li_text_stripped with
  | Some _ => li_text_stripped
  | None => txt "- " ++ li_text_stripped
  end end end end end.

(** Indent the lines of a converted nested list by two spaces. *)
Definition indent_nested (nested_markdown : str) : str :=
  join [NL]
       (map (fun line => match strip line with
                         | [] => line
                         | _ => txt "  " ++ line
                         end)
            (split1 NL (strip nested_markdown))).

Fixpoint nested_lines (E : externals) (nested : list node) : result (list str) :=
  match nested with
  | [] => Ok []
  | nested_list :: nested' =>
      nested_markdown ← convert_html E (html_str E nested_list);
      lines ← nested_lines E nested';
      Ok (match nested_markdown with
          | [] => lines
          | _ => indent_nested nested_markdown :: lines
          end)
  end.

Fixpoint li_lines (E : externals) (li_items : list node) : result (list str) :=
  match li_items with
  | [] => Ok []
  | li :: li_items' =>
      let line := li_line E (strip (li_text li)) in
      nested ← nested_lines E (find_children ["ul"; "ol"] li);
      lines ← li_lines E li_items';
      Ok (line :: nested ++ lines)
  end.

Definition convert_ul (E : externals) (el : node) (text : str)
    (parent_tags : list string) : result str :=
  match find_children ["li"] el with
  | [] => inherited E "ul" el text parent_tags
  | li_items =>
      lines ← li_lines E li_items;
      Ok (join [NL] lines ++ [NL; NL])
  end.

(** *** Dispatch

    The base class calls [getattr(self, "convert_" + tag)]: the methods
    the class body defines, and the inherited one for any other tag. *)
Definition convert_tag (E : externals) (self : Markdownify) (tag : string)
    (el : node) (text : str) (parent_tags : list string) : result str :=
  if String.eqb tag "div" then convert_div self el text
  else if String.eqb tag "p" then convert_p E el text
  else if String.eqb tag "math" then Ok (convert_math self el text)
  else if String.eqb tag "table" then convert_table E self el
  else if String.eqb tag "ul" then convert_ul E el text parent_tags
  else if String.eqb tag "a" then convert_a E self el text parent_tags
  else if String.eqb tag "span" then Ok (convert_span el text)
  else inherited E tag el text parent_tags.

(** *** [MarkdownRenderer] *)

(** The fields of the renderer that reach the converter;
    [paginate_output] is inherited from [HTMLRenderer]. *)
Record MarkdownRenderer := {
  renderer_paginate_output : bool;
  renderer_page_separator : str;
  renderer_inline_math_delimiters : str * str;
  renderer_block_math_delimiters : str * str;
  renderer_html_tables_in_markdown : bool
}.

(** The converter the renderer builds: [escape_dollars=True]. *)
Definition md_cls (self : MarkdownRenderer) : Markdownify := {|
  paginate_output := renderer_paginate_output self;
  page_separator := renderer_page_separator self;
  inline_math_delimiters := renderer_inline_math_delimiters self;
  block_math_delimiters := renderer_block_math_delimiters self;
  html_tables_in_markdown := renderer_html_tables_in_markdown self;
  option_escape_dollars := true
|}.

(** "Ensure we set the correct blanks for pagination markers". *)
Definition fix_pagination (self : MarkdownRenderer) (markdown : str) : str :=
  if renderer_paginate_output self then
    let markdown :=
      if negb (startswith [NL; NL] markdown) then [NL; NL] ++ markdown
      else markdown in
    if endswith (renderer_page_separator self) markdown then markdown ++ [NL; NL]
    else markdown
  else markdown.


End Markdown.

Import PyStr Re Soup Unicode Markdown.

(** * Reasoning about the matcher: definitions *)

(** [st'] is [st] after reading some characters. *)
Definition advances (st st' : mstate) : Prop :=
  exists w, rest st = w ++ rest st' /\ pos st' = pos st + length w.

(** Iteration of a relation. *)
Inductive iter (R : mstate -> mstate -> Prop) : nat -> mstate -> mstate -> Prop :=
| iter_O st : iter R 0 st st
| iter_S n st m st' : R st m -> iter R n m st' -> iter R (S n) st st'.

(** The matches of a pattern, without their order. *)
Fixpoint sem (r : regex) (st st' : mstate) : Prop :=
  match r with
  | Eps => st' = st
  | Cls p =>
      exists c, rest st = c :: rest st' /\ p c = true /\
                pos st' = S (pos st) /\ caps st' = caps st
  | Bol => pos st = 0 /\ st' = st
  | Eol => (rest st = [] \/ rest st = [NL]) /\ st' = st
  | Seq r1 r2 => exists m, sem r1 st m /\ sem r2 m st'
  | Alt r1 r2 => sem r1 st st' \/ sem r2 st st'
  | Rep lo _ r => exists k, lo <= k /\ iter (sem r) k st st'
  | Opt _ r => sem r st st' \/ st' = st
  | Grp n r =>
      exists m, sem r st m /\
        st' = MState (pos m) (rest m)
                     ((n, take (pos m - pos st) (rest st)) :: caps m)
  end.

(** Patterns whose every match reads at least one character. *)
Fixpoint consuming (r : regex) : bool :=
  match r with
  | Cls _ => true
  | Seq r1 r2 => consuming r1 || consuming r2
  | Alt r1 r2 => consuming r1 && consuming r2
  | Rep lo _ r => negb (Nat.eqb lo 0) && consuming r
  | Grp _ r => consuming r
  | _ => false
  end.

(** Patterns whose repetitions all have a consuming body. *)
Fixpoint proper (r : regex) : bool :=
  match r with
  | Seq r1 r2 | Alt r1 r2 => proper r1 && proper r2
  | Rep _ _ r => consuming r && proper r
  | Opt _ r | Grp _ r => proper r
  | _ => true
  end.

(** The length of the match the matcher finds at position [p], [s] being
    the text from there on. *)
Definition match_len (r : regex) (p : nat) (s : str) : option nat :=
  option_map (fun st' => pos st' - p) (head (run r (start p s))).

(** [sub_scan] over a function [ml] that gives the length of the match at
    the head of a text. *)
Fixpoint scan (ml : str -> option nat) (repl : str -> str) (skip : nat)
    (s : str) : str :=
  match skip with
  | S k =>
      match s with
      | [] => []
      | _ :: s' => scan ml repl k s'
      end
  | O =>
      match ml s with
      | Some n =>
          repl (take n s) ++
          match s with
          | [] => []
          | c :: s' =>
              match n with
              | O => c :: scan ml repl O s'
              | S k => scan ml repl k s'
              end
          end
      | None =>
          match s with
          | [] => []
          | c :: s' => c :: scan ml repl O s'
          end
      end
  end.

(** As many steps as possible, each the first choice of [advance]. *)
Fixpoint iter_max (advance : mstate -> option mstate) (fuel : nat)
    (st : mstate) : nat * mstate :=
  match fuel with
  | O => (0, st)
  | S f =>
      match advance st with
      | None => (0, st)
      | Some st1 => let '(k, st') := iter_max advance f st1 in (S k, st')
      end
  end.

(** As many tokens as possible from the head of a text: their number and
    what is left. [token s] is the text after one token, if [s] starts
    with one. *)
Fixpoint tokens (token : str -> option str) (fuel : nat) (s : str) : nat * str :=
  match fuel with
  | O => (0, s)
  | S f =>
      match token s with
      | None => (0, s)
      | Some s1 => let '(k, s') := tokens token f s1 in (S k, s')
      end
  end.

(** The length of the match of a greedy repetition [body{lo,}] whose body
    reads one token. *)
Definition tokens_len (token : str -> option str) (lo : nat) (s : str) : option nat :=
  let '(k, s') := tokens token (length s) s in
  if lo <=? k then Some (length s - length s') else None.

(** One character of a class, as a token. *)
Definition class_token (p : char -> bool) (s : str) : option str :=
  match s with
  | c :: s' => if p c then Some s' else None
  | [] => None
  end.

(** A newline followed by a whitespace character. *)
Definition blank_line_token (s : str) : option str :=
  match s with
  | c1 :: c2 :: s' => if (c1 =? NL)%N && is_space c2 then Some s' else None
  | _ => None
  end.

(** A dot, with the space after it if there is one. *)
Definition dot_token (s : str) : option str :=
  match s with
  | c :: s' =>
      if (c =? DOT)%N then
        match s' with
        | c2 :: s'' => if (c2 =? SPACE)%N then Some s'' else Some s'
        | [] => Some s'
        end
      else None
  | [] => None
  end.

(** The bodies of the repetitions. *)
Definition blank_glyph_body : regex :=
  Grp 1 (Alt (Alt (Alt (Chr LOW_LINE) (Chr LOWER_BLOCK)) (Chr ELLIPSIS)) (Chr DOT)).
Definition blank_line_body : regex := Grp 1 (Seq (Chr NL) (Cls is_space)).
Definition dot_leader_body : regex := Grp 1 (Seq (Chr DOT) (Opt true (Chr SPACE))).

(** The two shapes of a token of a dot leader. *)
Definition is_dot_token (w : str) : Prop := w = [DOT] \/ w = [DOT; SPACE].

(** Texts that end with a token of a dot leader. *)
Definition ends_dot (a : str) : Prop :=
  exists a', a = a' ++ [DOT] \/ a = a' ++ [DOT; SPACE].

(** ** Clean text

    Text on which none of the clean-up rules fires: no three newlines in a
    row, no three newline-whitespace pairs in a row, no whitespace at
    either end, no four blank glyphs in a row and no 130 dots (each with
    or without a space after it) in a row. *)
Definition is_blank_pair (w : str) : Prop := exists c, w = [NL; c] /\ is_space c = true.

Definition clean (s : str) : Prop :=
  (forall a run b, s = a ++ run ++ b -> Forall (fun c => c = NL) run -> length run < 3)
  /\ (forall a toks b, s = a ++ concat toks ++ b -> Forall is_blank_pair toks ->
                       length toks < 3)
  /\ (forall c s', s = c :: s' -> is_space c = false)
  /\ (forall s' c, s = s' ++ [c] -> is_space c = false)
  /\ (forall a run b, s = a ++ run ++ b ->
                      Forall (fun c => is_blank_glyph c = true) run -> length run < 4)
  /\ (forall a toks b, s = a ++ concat toks ++ b -> Forall is_dot_token toks ->
                       length toks < 130).

(** The block a dot leader is replaced by. *)
Definition dot_block : str := [NL; NL] ++ replicate 150 DOT ++ [NL; NL].

(** ** Hyphenated paragraph ends *)

(** What may follow the hyphen: nothing, one whitespace character, or one
    whitespace character and a final newline. *)
Definition hyphen_tail (tail : str) : Prop :=
  tail = [] \/ exists w, is_white_space w = true /\ (tail = [w] \/ tail = [w; NL]).

(** Text that ends with a lowercase letter, [|] or a digit, then a hyphen
    character, then a [hyphen_tail]. *)
Definition hyphenated (E : externals) (text : str) : Prop :=
  exists pre c h tail,
    text = pre ++ [c; h] ++ tail /\ before_hyphen E c = true /\
    is_hyphen h = true /\ hyphen_tail tail.

(** A paragraph marked as continued whose block type is one of the two
    plain-text kinds. *)
Definition plain_text_continuation (el : node) : Prop :=
  has_continuation el = true /\
  exists name, get el "block-type" = Some name /\
               (name = txt "Text" \/ name = txt "TextInlineMath").

(** ** Examples

    A stand-in for the imports, to run the converters on examples: no
    letters or digits beyond ASCII, no further block types, a tag
    serialized as its text, and base-class methods that return their text
    argument. *)
Definition ascii_externals : externals := {|
  lowercase_letter := fun _ => false;
  decimal_digit := fun _ => None;
  block_type_names := fun _ => false;
  html_str := get_text;
  convert_html := fun s => Ok s;
  inherited := fun _ _ text _ => Ok text;
  base_escape := fun text => text;
  int_max_str_digits := 4300
|}.

(** [<p class="has-continuation" block-type="Text">] *)
Definition continued_p : node :=
  Tag "p" (Some [txt "has-continuation"]) [("block-type", txt "Text")] [].

(** ** Shapes of list items *)

Definition spaces (W : str) : Prop :=
  W <> [] /\ Forall (fun c => is_space c = true) W.

Definition digits (E : externals) (num : str) : Prop :=
  num <> [] /\ Forall (fun c => is_digit E c = true) num.

(** The text before an ordinal: at least one character, no newline. *)
Definition one_line (p : str) : Prop :=
  p <> [] /\ Forall (fun c => dot c = true) p.

(** [<text> <number><closer>] *)
Definition trailing_number (E : externals) (closer : char) (t p num : str) : Prop :=
  exists W, t = p ++ W ++ num ++ [closer] /\ one_line p /\ spaces W /\ digits E num.

(** [<text> <letter>) <number>)] *)
Definition trailing_letter_number (E : externals) (t p num : str) : Prop :=
  exists W1 l W2,
    t = p ++ W1 ++ [l; 41%N] ++ W2 ++ num ++ [41%N] /\
    one_line p /\ spaces W1 /\ is_lower_ascii l = true /\ spaces W2 /\ digits E num.

(** A number or a lowercase letter, then [.] or [)], then whitespace. *)
Definition leading_ordinal (E : externals) (t : str) : Prop :=
  exists ord sep W r,
    t = ord ++ [sep] ++ W ++ r /\
    (digits E ord \/ exists l, ord = [l] /\ is_lower_ascii l = true) /\
    (sep = DOT \/ sep = 41%N) /\ spaces W.

(** Text with no whitespace at either end. *)
Definition stripped (t : str) : Prop :=
  (forall c s', t = c :: s' -> is_space c = false) /\
  (forall s' c, t = s' ++ [c] -> is_space c = false).

(** No digit is a whitespace character. *)
Definition digits_not_space (E : externals) : Prop :=
  forall c, is_digit E c = true -> is_space c = false.

(** [^(.+?)\s+(\d+)<closer>\s*$] *)
Definition trailing_pattern (E : externals) (closer : char) : regex :=
  cat [Bol; Grp 1 (PlusLazy (Cls dot)); Plus (Cls is_space);
       Grp 2 (Plus (Cls (is_digit E))); Chr closer; Star (Cls is_space); Eol].

(** The configuration [MarkdownRenderer] builds by default. *)
Definition default_config : Markdownify := {|
  paginate_output := false;
  page_separator := replicate 48 45%N;
  inline_math_delimiters := (txt "$", txt "$");
  block_math_delimiters := (txt "$$", txt "$$");
  html_tables_in_markdown := false;
  option_escape_dollars := true
|}.

(** [<li>Introduction</li>], as the only item of a [ul] and of an [ol]. *)
Definition intro_items : list node :=
  [Tag "li" None [] [NavigableString (txt "Introduction")]].
Definition ul_example : node := Tag "ul" None [] intro_items.
Definition ol_example : node := Tag "ol" None [] intro_items.

(** [<li>text 12.</li>] *)
Definition numbered_item : node :=
  Tag "li" None [] [NavigableString (txt "text 12.")].

(** [<li>s</li>] and a [ul] of items. *)
Definition li (s : string) : node := Tag "li" None [] [NavigableString (txt s)].
Definition ul (items : list node) : node := Tag "ul" None [] items.

(** The three items of the examples, in one list. *)
Definition ordinals_example : node :=
  ul [li "Some entry a) 3)"; li "1. Introduction"; li "Introduction"].

(** An item of two lines whose second line ends with an ordinal. *)
Definition multiline_item : str := txt "a" ++ [NL] ++ txt "b 1.".
Definition multiline_example : node :=
  ul [Tag "li" None [] [NavigableString multiline_item]].

(** The nested lists of each item convert to the blocks of [nesteds]. *)
Definition nested_blocks (E : externals) (items : list node)
    (nesteds : list (list str)) : Prop :=
  Forall2 (fun item nested =>
             nested_lines E (find_children ["ul"; "ol"] item) = Ok nested)
          items nesteds.

(** For each item in turn its line, then the blocks of its nested
    lists. *)
Definition item_lines (E : externals) (items : list node)
    (nesteds : list (list str)) : list str :=
  concat (zip_with (fun item nested => li_line E (strip (li_text item)) :: nested)
                   items nesteds).

(** A line that is not blank gets two spaces in front. *)
Definition indent_line (line : str) : str :=
  match strip line with
  | [] => line
  | _ => txt "  " ++ line
  end.

Definition nonempty (s : str) : bool :=
  match s with
  | [] => false
  | _ => true
  end.

(** A line that is blank or starts with two spaces. *)
Definition indented_or_blank (line : str) : Prop :=
  strip line = [] \/ exists l, line = txt "  " ++ l.

(** ** Grids *)

(** The content of a position of the grid, if the position exists. *)
Definition cell_at (g : list (list (option str))) (r j : nat) : option (option str) :=
  match g !! r with
  | Some row => row !! j
  | None => None
  end.

Definition filled (g : grid) (r j : nat) : Prop :=
  exists s, cell_at g r j = Some (Some s).

(** All rows of a grid have the same given length. *)
Definition shape (R C : nat) (g : grid) : Prop :=
  length g = R /\ Forall (fun row => length row = C) g.

(** The positions a cell covers, from where the cursor stood. *)
Definition in_extent (e : placement) (r j : nat) : Prop :=
  p_row e <= r < p_row e + Z.to_nat (p_rowspan e) /\
  (p_col e <= Z.of_nat j < p_col e + p_colspan e)%Z.

Definition is_anchor (e : placement) (r j : nat) : Prop :=
  r = p_row e /\ Z.of_nat j = p_col e.

(** The cell's text was assigned: the cursor was inside the grid and both
    loops over the extent ran at least once. *)
Definition written (total_cols : Z) (e : placement) : Prop :=
  (p_col e < total_cols)%Z /\ (1 <= p_rowspan e)%Z /\ (1 <= p_colspan e)%Z.

(** The cell's spans are at least one and its extent lies inside the
    grid. *)
Definition fits (total_rows : nat) (total_cols : Z) (e : placement) : Prop :=
  (1 <= p_rowspan e)%Z /\ (1 <= p_colspan e)%Z /\
  (p_col e + p_colspan e <= total_cols)%Z /\
  (Z.of_nat (p_row e) + p_rowspan e <= Z.of_nat total_rows)%Z.

(** The cells of a table, row by row. *)
Definition table_cells (el : node) : list node :=
  flat_map (find_all ["td"; "th"]) (find_all ["tr"] el).

(** What holds of the state of the second pass while row [i] is handled:
    the grid keeps its shape, the cursor is not negative, and the text of
    every cell written so far is still at its anchor, which lies in an
    earlier row or left of the cursor. *)
Definition inv_base (R : nat) (tc : Z) (i : nat)
    (st : grid * Z * list placement) : Prop :=
  let '(g, cursor, log) := st in
  shape R (Z.to_nat tc) g /\ (0 <= cursor)%Z /\
  forall e, In e log -> written tc e ->
    (0 <= p_col e)%Z /\
    cell_at g (p_row e) (Z.to_nat (p_col e)) = Some (Some (p_value e)) /\
    (p_row e < i \/ (p_row e = i /\ (p_col e < cursor)%Z)).

(** What holds besides when every cell handled so far fits: the other
    positions of its extent hold the empty string, the row is filled up
    to the cursor, each anchor was the first free position of its row,
    and no anchor lies in the extent of an earlier cell. *)
Definition inv_fit (R : nat) (tc : Z) (i : nat)
    (st : grid * Z * list placement) : Prop :=
  let '(g, cursor, log) := st in
  Forall (fits R tc) log /\
  (forall e r j, In e log -> in_extent e r j -> ~ is_anchor e r j ->
                 cell_at g r j = Some (Some [])) /\
  (forall j, (Z.of_nat j < cursor)%Z -> filled g i j) /\
  (forall e, In e log ->
     (0 <= p_col e)%Z /\
     (forall j, (Z.of_nat j < p_col e)%Z -> filled (p_before e) (p_row e) j) /\
     cell_at (p_before e) (p_row e) (Z.to_nat (p_col e)) = Some None) /\
  (forall k1 k2 e1 e2, k1 < k2 -> log !! k1 = Some e1 -> log !! k2 = Some e2 ->
     ~ in_extent e1 (p_row e2) (Z.to_nat (p_col e2))).

(** The span attributes of a cell are integers, and the colspan is not
    negative. *)
Definition spans_ok (E : externals) (cell : node) : Prop :=
  exists cs rs, cell_span E cell "colspan" = Ok cs /\ (0 <= cs)%Z /\
                cell_span E cell "rowspan" = Ok rs.

(** ** Example tables *)

Definition td (attrs : list (string * str)) (s : string) : node :=
  Tag "td" None attrs [NavigableString (txt s)].
Definition tr (cells : list node) : node := Tag "tr" None [] cells.
Definition table (rows : list node) : node := Tag "table" None [] rows.

(** Two rows; the first cell of the first row spans both. *)
Definition rowspan_example : node :=
  table [tr [td [("rowspan", txt "2")] "A"; td [] "B"]; tr [td [] "C"]].

(** A cell spanning two rows alone in its row, above a row of two cells. *)
Definition pushed_example : node :=
  table [tr [td [("rowspan", txt "2")] "A"]; tr [td [] "B"; td [] "C"]].

(** A negative colspan moves the cursor left of the row. *)
Definition negative_colspan_example : node :=
  table [tr [td [("colspan", txt "5")] "X"];
         tr [td [("colspan", txt "-7")] "A"; td [] "B"]].

(** A negative colspan makes a later cell cover an earlier anchor. *)
Definition overwritten_example : node :=
  table [tr [td [] "X"; td [] "Y"; td [] "W"];
         tr [td [("colspan", txt "-2")] "A"; td [("colspan", txt "2")] "B";
             td [("colspan", txt "2")] "C"]].

(** A colspan that is no number. *)
Definition bad_colspan_example : node :=
  table [tr [td [("colspan", txt "abc")] "X"]].

(** Every text in the grid satisfies [P]. *)
Definition cells_ok (P : str -> Prop) (g : list (list (option str))) : Prop :=
  forall r j s, cell_at g r j = Some (Some s) -> P s.

Definition no_pipe (s : str) : Prop := Forall (fun c => c <> PIPE) s.

(** ** The column count as the specification words it *)

(** A span attribute, [1] when it does not read as an integer. *)
Definition spec_span (E : externals) (cell : node) (attr : string) : Z :=
  match cell_span E cell attr with Ok n => n | Raise _ => 1%Z end.

Definition sum_Z (l : list Z) : Z := foldr Z.add 0%Z l.

(** The sum of the colspans of the row's own td/th cells. *)
Definition spec_own_cols (E : externals) (row : node) : Z :=
  sum_Z (map (fun cell => spec_span E cell "colspan")
             (find_all ["td"; "th"] row)).

(** The colspans pushed forward into row [i]: a cell of an earlier row [i']
    with rowspan [k] counts for the [k - 1] rows that follow row [i']. *)
Definition spec_pushed_cols (E : externals) (rows : list node) (i : nat) : Z :=
  sum_Z (flat_map
           (fun '(i', row) =>
              flat_map
                (fun cell =>
                   if bool_decide (i' < i /\
                        (Z.of_nat i - Z.of_nat i' <= spec_span E cell "rowspan" - 1)%Z)
                   then [spec_span E cell "colspan"] else [])
                (find_all ["td"; "th"] row))
           (imap (fun i' row => (i', row)) rows)).

Definition spec_total_cols (E : externals) (el : node) : Z :=
  let rows := find_all ["tr"] el in
  max_or_zero
    (imap (fun i row => (spec_own_cols E row + spec_pushed_cols E rows i)%Z) rows).

(** ** Further properties of the text passes: definitions *)

(** A text of at least one character, with no whitespace at either end
    and no newline inside. *)
Definition text_line (p : str) : Prop :=
  p <> [] /\ stripped p /\ Forall (fun c => c <> NL) p.

(** A newline followed by a whitespace character other than a newline:
    the end of a line and a blank character on the next. *)
Definition blank_line_pair (w : str) : Prop :=
  exists c, w = [NL; c] /\ is_space c = true /\ c <> NL.

(** No two newlines in a row. *)
Fixpoint no_newline_pair (s : str) : bool :=
  match s with
  | c1 :: s' =>
      match s' with
      | c2 :: _ => negb ((c1 =? NL)%N && (c2 =? NL)%N) && no_newline_pair s'
      | [] => true
      end
  | [] => true
  end.

(** A dollar sign at position [i] of [s] follows a backslash. *)
Definition dollars_escaped (s : str) : Prop :=
  forall i, s !! i = Some DOLLAR -> exists j, i = S j /\ s !! j = Some BACKSLASH.

(** The length of the match of a one-character class at the head of a
    text. *)
Definition one_char_len (p : char -> bool) (s : str) : option nat :=
  match s with
  | c :: _ => if p c then Some 1 else None
  | [] => None
  end.

(** A renderer that paginates, with the separator of the class. *)
Definition paginating_renderer : MarkdownRenderer := {|
  renderer_paginate_output := true;
  renderer_page_separator := replicate 48 45%N;
  renderer_inline_math_delimiters := (txt "$", txt "$");
  renderer_block_math_delimiters := (txt "$$", txt "$$");
  renderer_html_tables_in_markdown := false
|}.

(** ** Further properties of tables: definitions *)

(** The rows of a grid from the first that is not blank. *)
Fixpoint skip_blank_rows (g : list (list (option str))) : list (list (option str)) :=
  match g with
  | [] => []
  | row :: g' => if is_empty_line row then skip_blank_rows g' else g
  end.

(** The length of the text at a position, 0 where there is none. *)
Definition text_len (cell : option (option str)) : nat :=
  match cell with
  | Some (Some s) => length s
  | _ => 0
  end.

(** The length of the longest text of column [j]. *)
Definition column_max (g : list (list (option str))) (j : nat) : nat :=
  foldr Nat.max 0 (map (fun row => text_len (row !! j)) g).

(** The sum of the colspans of the cells of a row, [cs] giving the
    colspan of a cell. *)
Definition own_cols (cs : node -> Z) (row : node) : Z :=
  sum_Z (map cs (find_all ["td"; "th"] row)).

(** What the cells of the rows before row [i] add to the count of row
    [i]: the colspan of each cell of a row [i'] whose rowspan [k] is such
    that [i - i' <= k - 2]. *)
Definition carried_cols (cs rs : node -> Z) (rows : list node) (i : nat) : Z :=
  sum_Z (imap (fun i' row =>
                 sum_Z (map (fun cell =>
                               if bool_decide (Z.of_nat i - Z.of_nat i' <= rs cell - 2)%Z
                               then cs cell else 0%Z)
                            (find_all ["td"; "th"] row)))
              (take i rows)).

(** The positions a cell takes in its row when it spans no other row:
    its text, then the empty string up to its colspan. *)
Definition cell_block (E : externals) (cs : node -> Z) (cell : node)
    : list (option str) :=
  Some (cell_value E cell) :: replicate (Z.to_nat (cs cell) - 1) (Some []).

(** The row of the grid for a row of cells that span no other row,
    padded with unfilled positions up to [total_cols]. *)
Definition row_blocks (E : externals) (cs : node -> Z) (total_cols : Z)
    (row : node) : list (option str) :=
  let blocks := concat (map (cell_block E cs) (find_all ["td"; "th"] row)) in
  blocks ++ replicate (Z.to_nat total_cols - length blocks) None.

(** The value of [rowspan_cols[k]]. *)
Definition counter (m : gmap nat Z) (k : nat) : Z := default 0%Z (m !! k).

(** What a cell of row [i] adds to [rowspan_cols[k]]: its colspan, for
    the [rowspan - 1] indices from [i] on. *)
Definition bumps (cs rs : node -> Z) (i : nat) (cell : node) (k : nat) : Z :=
  if bool_decide (i <= k < i + Z.to_nat (rs cell - 1)) then cs cell else 0%Z.

(** Three rows; the only cell of the first spans all of them. *)
Definition tall_example : node :=
  table [tr [td [("rowspan", txt "3")] "A"]; tr [td [] "B"];
         tr [td [] "C"; td [] "D"]].

(** The span attributes of a cell read as the integers [cs cell] and
    [rs cell]. *)
Definition spans_read (E : externals) (cs rs : node -> Z) (cell : node) : Prop :=
  cell_span E cell "colspan" = Ok (cs cell) /\
  cell_span E cell "rowspan" = Ok (rs cell).

(** A span attribute of the cell is not an integer. *)
Definition bad_span (E : externals) (cell : node) : Prop :=
  exists attr, (attr = "colspan"%string \/ attr = "rowspan"%string) /\
               cell_span E cell attr = Raise ValueError.

(** Two rows without rowspans; the second cell of the first row spans two
    columns. *)
Definition wide_example : node :=
  table [tr [td [] "A"; td [("colspan", txt "2")] "B"]; tr [td [] "C"]].

(** ** The log of the second pass and the cells of the table *)

(** The cells of the rows, each with the index of its row, [i] being the
    index of the first row. *)
Definition indexed_from (i : nat) (rows : list node) : list (nat * node) :=
  concat (imap (fun j tr => map (pair (i + j)) (find_all ["td"; "th"] tr)) rows).

(** The cells of a table in the order the second pass takes them, each
    with the index of its row. *)
Definition indexed_cells (el : node) : list (nat * node) :=
  indexed_from 0 (find_all ["tr"] el).

(** The entry of the log is that of the cell: it has the row of the cell,
    the sanitized text of the cell, and the rowspan and colspan that
    [int] reads from the attributes of the cell. *)
Definition placement_of (E : externals) (e : placement) (ic : nat * node) : Prop :=
  p_row e = fst ic /\ p_value e = cell_value E (snd ic) /\
  cell_span E (snd ic) "rowspan" = Ok (p_rowspan e) /\
  cell_span E (snd ic) "colspan" = Ok (p_colspan e).

(** What holds of the grid and the log besides, [cells] being the cells
    handled so far. The log has the entries of these cells. A filled
    position lies in the extent of a written cell, and the positions
    inside the grid of the extent of a written cell are filled; the same
    holds of the grid as it was when a cell was handled, and the cells
    logged before that cell. The cursor of a cell is not negative, and
    where it was inside the grid the position was free. *)
Definition inv_log (E : externals) (R : nat) (tc : Z) (cells : list (nat * node))
    (g : grid) (log : list placement) : Prop :=
  Forall2 (placement_of E) log cells /\
  (forall r j, filled g r j ->
     exists k e, log !! k = Some e /\ written tc e /\ in_extent e r j) /\
  (forall e r j, In e log -> written tc e -> in_extent e r j ->
     r < R -> j < Z.to_nat tc -> filled g r j) /\
  (forall k e, log !! k = Some e -> forall r j, filled (p_before e) r j ->
     exists k' e', k' < k /\ log !! k' = Some e' /\ written tc e' /\ in_extent e' r j) /\
  (forall k e, log !! k = Some e -> forall k' e' r j, k' < k -> log !! k' = Some e' ->
     written tc e' -> in_extent e' r j -> r < R -> j < Z.to_nat tc ->
     filled (p_before e) r j) /\
  (forall e, In e log ->
     p_row e < R /\ (0 <= p_col e)%Z /\
     ((p_col e < tc)%Z ->
      cell_at (p_before e) (p_row e) (Z.to_nat (p_col e)) = Some None)).

(** Three rows and two columns. The second cell asks for two columns from
    the second column on and the third cell for two rows from the last
    row on, beyond the grid. *)
Definition overflow_example : node :=
  table [tr [td [("rowspan", txt "2")] "A"];
         tr [td [("colspan", txt "2"); ("rowspan", txt "2")] "B"];
         tr [td [("rowspan", txt "2")] "C"]].

(** ** The matcher *)

Lemma advances_refl st : advances st st.
Proof. exists []. simpl. split; [done | lia]. Qed.

Lemma advances_trans a b c : advances a b -> advances b c -> advances a c.
Proof.
  intros (w1 & H1 & P1) (w2 & H2 & P2). exists (w1 ++ w2).
  rewrite H1, H2, P2, P1, length_app, <- app_assoc. split; [done | lia].
Qed.

Lemma advances_length a b : advances a b -> length (rest b) <= length (rest a).
Proof. intros (w & H & _). rewrite H, length_app. lia. Qed.

Lemma advances_eq a b :
  advances a b -> length (rest b) = length (rest a) ->
  rest b = rest a /\ pos b = pos a.
Proof.
  intros (w & H & P) L. rewrite H, length_app in L.
  destruct w; simpl in *; [split; [done | lia] | lia].
Qed.

Lemma advances_take a b :
  advances a b -> rest a = take (pos b - pos a) (rest a) ++ rest b.
Proof.
  intros (w & H & P). rewrite P, H.
  replace (pos a + length w - pos a) with (length w) by lia.
  by rewrite take_app_length.
Qed.

Lemma rep_advances step lo g fuel st st' :
  (forall a b, In b (step a) -> advances a b) ->
  In st' (rep step lo g fuel st) -> advances st st'.
Proof.
  intros Hstep. revert lo st. induction fuel as [|f IH]; intros lo st; simpl.
  - destruct lo; simpl; [|done]. intros [->|[]]. apply advances_refl.
  - assert (Hmore : In st' (flat_map (rep step (pred lo) g f) (step st)) ->
                    advances st st').
    { rewrite in_flat_map. intros (m & Hm & Hin).
      eapply advances_trans; [by apply Hstep | by eapply IH]. }
    destruct lo; [|done]. destruct g.
    + rewrite in_app_iff. intros [H|[->|[]]]; [auto | apply advances_refl].
    + intros [->|H]; [apply advances_refl | auto].
Qed.

Lemma run_advances r st st' : In st' (run r st) -> advances st st'.
Proof.
  revert st st'. induction r as [|p| | |r1 IH1 r2 IH2|r1 IH1 r2 IH2|lo g r IH|g r IH|n r IH];
    intros st st'; simpl.
  - intros [->|[]]. apply advances_refl.
  - destruct (rest st) as [|c s] eqn:E; [done|]. destruct (p c); [|done].
    intros [<-|[]]. exists [c]. simpl. split; [done | lia].
  - destruct (pos st); [|done]. intros [->|[]]. apply advances_refl.
  - destruct (rest st) as [|c [|]]; try done.
    + intros [->|[]]. apply advances_refl.
    + destruct (c =? NL)%N; [|done]. intros [->|[]]. apply advances_refl.
  - rewrite in_flat_map. intros (m & H1 & H2).
    eapply advances_trans; eauto.
  - rewrite in_app_iff. intros [H|H]; auto.
  - apply rep_advances. auto.
  - destruct g.
    + rewrite in_app_iff. intros [H|[->|[]]]; [auto | apply advances_refl].
    + intros [->|H]; [apply advances_refl | auto].
  - rewrite in_map_iff. intros (m & <- & Hm). apply IH in Hm.
    destruct Hm as (w & H & P). exists w. simpl. done.
Qed.

Lemma run_consuming r st st' :
  consuming r = true -> In st' (run r st) -> length (rest st') < length (rest st).
Proof.
  revert st st'. induction r as [|p| | |r1 IH1 r2 IH2|r1 IH1 r2 IH2|lo g r IH|g r IH|n r IH];
    intros st st'; simpl; try done.
  - intros _. destruct (rest st) as [|c s] eqn:E; [done|]. destruct (p c); [|done].
    intros [<-|[]]. simpl. lia.
  - intros Hc. rewrite in_flat_map. intros (m & H1 & H2).
    pose proof (advances_length _ _ (run_advances _ _ _ H1)).
    pose proof (advances_length _ _ (run_advances _ _ _ H2)).
    apply orb_true_iff in Hc as [Hc|Hc].
    + specialize (IH1 _ _ Hc H1). lia.
    + specialize (IH2 _ _ Hc H2). lia.
  - intros [Hc1 Hc2]%andb_true_iff. rewrite in_app_iff. intros [H|H]; auto.
  - intros [Hlo Hc]%andb_true_iff. destruct lo as [|lo]; [done|].
    destruct (length (rest st)) as [|f] eqn:EL; simpl; [done|].
    rewrite in_flat_map. intros (m & H1 & H2).
    specialize (IH _ _ Hc H1).
    apply rep_advances in H2; [|apply run_advances].
    apply advances_length in H2. lia.
  - intros Hc. rewrite in_map_iff. intros (m & <- & Hm). simpl. auto.
Qed.

Lemma rep_sem step (R : mstate -> mstate -> Prop) lo g fuel st st' :
  (forall a b, In b (step a) <-> R a b) ->
  (forall a b, R a b -> length (rest b) < length (rest a)) ->
  length (rest st) <= fuel ->
  In st' (rep step lo g fuel st) <-> exists k, lo <= k /\ iter R k st st'.
Proof.
  intros Hstep Hcons. revert lo st. induction fuel as [|f IH]; intros lo st Hlen.
  - simpl. split.
    + destruct lo; [|done]. intros [->|[]]. exists 0. split; [lia | constructor].
    + intros (k & Hk & Hit). inversion Hit; subst.
      * assert (lo = 0) as -> by lia. by left.
      * apply Hcons in H. lia.
  - assert (Hmore : In st' (flat_map (rep step (pred lo) g f) (step st)) <->
                    exists k, pred lo <= k /\ iter R (S k) st st').
    { rewrite in_flat_map. split.
      - intros (m & Hm & Hin). apply Hstep in Hm.
        apply IH in Hin; [|apply Hcons in Hm; lia].
        destruct Hin as (k & Hk & Hit). exists k. split; [done|].
        econstructor; eauto.
      - intros (k & Hk & Hit). inversion Hit; subst.
        exists m. split; [by apply Hstep|].
        apply IH; [match goal with H : R st m |- _ => apply Hcons in H; lia end|].
        eauto. }
    simpl. destruct lo as [|lo].
    + assert (In st' (flat_map (rep step 0 g f) (step st)) \/ st' = st <->
              exists k, 0 <= k /\ iter R k st st') as Hall.
      { rewrite Hmore. split.
        - intros [(k & Hk & Hit)| ->]; [by exists (S k); split; [lia|]|].
          exists 0. split; [lia | constructor].
        - intros (k & _ & Hit). destruct k.
          + inversion Hit; subst. by right.
          + left. exists k. split; [simpl; lia | done]. }
      rewrite <- Hall. simpl. destruct g.
      * rewrite in_app_iff. simpl. intuition.
      * simpl. intuition.
    + rewrite Hmore. simpl. split.
      * intros (k & Hk & Hit). exists (S k). split; [lia | done].
      * intros (k & Hk & Hit). destruct k; [lia|]. exists k. split; [lia | done].
Qed.

Theorem run_sem r st st' :
  proper r = true -> In st' (run r st) <-> sem r st st'.
Proof.
  revert st st'. induction r as [|p| | |r1 IH1 r2 IH2|r1 IH1 r2 IH2|lo g r IH|g r IH|n r IH];
    intros st st' Hp; simpl in *.
  - intuition.
  - destruct st as [p0 [|c s] cs]; simpl.
    + split; [done|]. by intros (c & ? & _).
    + destruct (p c) eqn:Epc; simpl.
      * split.
        -- intros [<-|[]]. exists c. done.
        -- intros (c' & [= -> Hr] & _ & Hpos & Hcaps). left.
           destruct st'; simpl in *; by subst.
      * split; [done|]. intros (c' & [= -> Hr] & Hpc & _). congruence.
  - destruct (pos st) eqn:E; simpl.
    + split; [intros [->|[]]; done | intros [_ ->]; by left].
    + split; [done | intros [? _]; done].
  - destruct (rest st) as [|c [|c2 s]] eqn:E; simpl.
    + split; [intros [->|[]]; auto | intros [_ ->]; by left].
    + destruct (N.eqb_spec c NL) as [->|Hne]; simpl.
      * split; [intros [->|[]]; auto | intros [_ ->]; by left].
      * split; [done|]. intros [[?|[= ?]] _]; done.
    + split; [done|]. intros [[?|?] _]; done.
  - apply andb_true_iff in Hp as [Hp1 Hp2]. rewrite in_flat_map. split.
    + intros (m & H1 & H2). exists m. split; [by apply IH1 | by apply IH2].
    + intros (m & H1 & H2). exists m. split; [by apply IH1 | by apply IH2].
  - apply andb_true_iff in Hp as [Hp1 Hp2]. rewrite in_app_iff, IH1, IH2; done.
  - apply andb_true_iff in Hp as [Hc Hp]. apply rep_sem; [auto | | done].
    intros a b Hab. apply IH in Hab; [|done]. by eapply run_consuming.
  - destruct g; simpl; [rewrite in_app_iff; simpl|]; rewrite IH by done; intuition.
  - rewrite in_map_iff. split.
    + intros (m & <- & Hm). exists m. split; [by apply IH | done].
    + intros (m & Hm & ->). exists m. split; [done | by apply IH].
Qed.

Lemma sem_advances r st st' : proper r = true -> sem r st st' -> advances st st'.
Proof. intros Hp H. apply run_sem in H; [|done]. by eapply run_advances. Qed.

Lemma re_match_sem r s st' :
  proper r = true -> re_match r s = Some st' -> sem r (start 0 s) st'.
Proof.
  unfold re_match. intros Hp H. apply run_sem; [done|].
  destruct (run r (start 0 s)); simpl in H; [done|]. injection H as ->. by left.
Qed.

Lemma re_match_none r s :
  proper r = true -> re_match r s = None <-> forall st', ~ sem r (start 0 s) st'.
Proof.
  unfold re_match. intros Hp. split.
  - intros H st' Hs. apply run_sem in Hs; [|done].
    destruct (run r (start 0 s)); simpl in *; done.
  - intros H. destruct (run r (start 0 s)) as [|x l] eqn:E; [done|].
    exfalso. apply (H x). apply run_sem; [done|]. rewrite E. by left.
Qed.


(** ** Substitution *)

Lemma sub_scan_scan r ml repl :
  (forall p s, match_len r p s = ml s) ->
  forall s skip p, sub_scan r repl skip p s = scan ml repl skip s.
Proof.
  intros Hml. induction s as [|c s IH]; intros skip p.
  - destruct skip; simpl; [|done].
    rewrite <- (Hml p []). unfold match_len.
    destruct (head (run r (start p []))); simpl; done.
  - destruct skip; simpl; [|apply IH].
    rewrite <- (Hml p (c :: s)). unfold match_len.
    destruct (head (run r (start p (c :: s)))) as [st'|]; simpl.
    + destruct (pos st' - p); by rewrite IH.
    + by rewrite IH.
Qed.

Lemma scan_skip ml repl n s :
  n <= length s -> scan ml repl n s = scan ml repl 0 (drop n s).
Proof.
  revert s. induction n as [|n IH]; intros s Hn; [done|].
  destruct s as [|c s]; simpl in *; [lia|]. apply IH. lia.
Qed.

Lemma scan_nil ml repl : ml [] = None -> scan ml repl 0 [] = [].
Proof. intros H. simpl. by rewrite H. Qed.

Lemma scan_no_match_here ml repl c s :
  ml (c :: s) = None -> scan ml repl 0 (c :: s) = c :: scan ml repl 0 s.
Proof. intros H. simpl. by rewrite H. Qed.

Lemma scan_match ml repl n s :
  ml s = Some n -> 1 <= n <= length s ->
  scan ml repl 0 s = repl (take n s) ++ scan ml repl 0 (drop n s).
Proof.
  intros H Hn. destruct s as [|c s]; simpl in *; [lia|].
  rewrite H. destruct n as [|n]; [lia|]. f_equal.
  rewrite scan_skip by lia. done.
Qed.

(** Where no suffix of the text starts with a match, nothing changes. *)
Lemma scan_no_match ml repl s :
  (forall a b, s = a ++ b -> ml b = None) -> scan ml repl 0 s = s.
Proof.
  induction s as [|c s IH]; intros H.
  - apply scan_nil. by apply (H [] []).
  - rewrite scan_no_match_here by (by apply (H [])). f_equal.
    apply IH. intros a b ->. by apply (H (c :: a)).
Qed.

(** The scan of [a ++ t] splits at the end of [a] when the matches that
    start inside [a] are those of [a] alone. *)
Lemma scan_app ml repl t :
  ml [] = None ->
  (forall x n, ml x = Some n -> 1 <= n <= length x) ->
  forall a,
  (forall y x, a = y ++ x -> x <> [] -> ml (x ++ t) = ml x) ->
  scan ml repl 0 (a ++ t) = scan ml repl 0 a ++ scan ml repl 0 t.
Proof.
  intros Hnil Hbound a. 
  induction a as [a IH] using (induction_ltof1 _ (@length char)). unfold ltof in IH.
  intros Hloc. destruct a as [|c a].
  - by rewrite scan_nil.
  - pose proof (Hloc [] (c :: a) eq_refl) as Hhere.
    specialize (Hhere ltac:(done)).
    destruct (ml (c :: a)) as [n|] eqn:E.
    + pose proof (Hbound _ _ E) as Hn.
      rewrite (scan_match ml repl n ((c :: a) ++ t)); [|done|rewrite length_app; lia].
      rewrite (scan_match ml repl n (c :: a)) by done.
      rewrite <- app_assoc. rewrite take_app_le by lia. f_equal.
      rewrite drop_app_le by lia. apply IH.
      * rewrite length_drop. simpl in *. lia.
      * intros y x Hyx Hx. apply (Hloc (take n (c :: a) ++ y)); [|done].
        rewrite <- app_assoc, <- Hyx. by rewrite take_drop.
    + simpl app. rewrite (scan_no_match_here _ _ c (a ++ t)) by done.
      rewrite E. simpl. f_equal.
      apply IH; [simpl; lia|].
      intros y x -> Hx. by apply (Hloc (c :: y)).
Qed.

(** ** Greedy repetition of a token *)

Lemma rep_dead step lo g fuel a :
  step a = [] -> rep step (S lo) g fuel a = [].
Proof. intros H. destruct fuel; simpl; [done|]. by rewrite H. Qed.

Lemma flat_map_dead step lo g fuel alts :
  Forall (fun x => step x = []) alts ->
  flat_map (rep step (S lo) g fuel) alts = [].
Proof.
  induction 1 as [|x l Hx _ IH]; simpl; [done|].
  by rewrite rep_dead, IH.
Qed.

Lemma rep_greedy_head step lo fuel st :
  (forall a, Forall (fun x => step x = []) (tail (step a))) ->
  head (rep step lo true fuel st) =
  let '(k, st') := iter_max (fun a => head (step a)) fuel st in
  if lo <=? k then Some st' else None.
Proof.
  intros Hdead. revert lo st. induction fuel as [|f IH]; intros lo st.
  - simpl. by destruct lo.
  - simpl. pose proof (Hdead st) as Hd.
    destruct (step st) as [|st1 alts] eqn:E; simpl in *.
    + by destruct lo.
    + specialize (IH (pred lo) st1).
      destruct (iter_max (fun a => head (step a)) f st1) as [k st'] eqn:Ek.
      destruct lo as [|lo]; simpl in *.
      * destruct (rep step 0 true f st1); simpl in *; [done|].
        by injection IH as ->.
      * destruct (Nat.leb_spec lo k).
        -- destruct (rep step lo true f st1); simpl in *; [done|].
           by injection IH as ->.
        -- destruct (rep step lo true f st1) eqn:E1; simpl in *; [|done].
           destruct lo as [|lo]; [lia|].
           by rewrite flat_map_dead.
Qed.

Section Token.
Variable body : regex.
Variable token : str -> option str.
Hypothesis body_token :
  forall a, option_map rest (head (run body a)) = token (rest a).
Hypothesis body_dead :
  forall a, Forall (fun x => run body x = []) (tail (run body a)).

Lemma iter_max_tokens fuel st k st' :
  iter_max (fun a => head (run body a)) fuel st = (k, st') ->
  tokens token fuel (rest st) = (k, rest st') /\ advances st st'.
Proof using body_token.
  revert st k. induction fuel as [|f IH]; intros st k; simpl.
  - intros [= <- <-]. split; [done | apply advances_refl].
  - rewrite <- body_token.
    destruct (head (run body st)) as [st1|] eqn:E; simpl.
    + destruct (iter_max _ f st1) as [k1 st1'] eqn:E1.
      intros [= <- <-]. destruct (IH _ _ E1) as [-> Hadv]. split; [done|].
      eapply advances_trans; [|done]. apply run_advances with body.
      destruct (run body st); simpl in E; [done|]. injection E as ->. by left.
    + intros [= <- <-]. split; [done | apply advances_refl].
Qed.

(** The first match of [body{lo,}] is the longest sequence of tokens,
    when it has [lo] of them at least. *)
Lemma match_len_tokens lo p s :
  match_len (Rep lo true body) p s = tokens_len token lo s.
Proof using body_token body_dead.
  unfold match_len, tokens_len. simpl.
  rewrite rep_greedy_head by done.
  destruct (iter_max _ (length s) (start p s)) as [k st'] eqn:E.
  apply iter_max_tokens in E as [E Hadv]. simpl in E. rewrite E.
  destruct (lo <=? k); simpl; [|done]. f_equal.
  destruct Hadv as (w & Hw & Hp). simpl in *. rewrite Hw, Hp, length_app. lia.
Qed.
End Token.

Lemma tokens_suffix token :
  (forall s s1, token s = Some s1 -> exists w, w <> [] /\ s = w ++ s1) ->
  forall fuel s k s', tokens token fuel s = (k, s') ->
  exists w, s = w ++ s' /\ k <= length w.
Proof.
  intros Htok. induction fuel as [|f IH]; intros s k s'; simpl.
  - intros [= <- <-]. by exists [].
  - destruct (token s) as [s1|] eqn:E.
    + destruct (tokens token f s1) as [k1 s1'] eqn:E1. intros [= <- <-].
      apply Htok in E as (w & Hw & ->). apply IH in E1 as (w1 & -> & Hk).
      exists (w ++ w1). rewrite <- app_assoc. split; [done|].
      rewrite length_app. destruct w; [done|]. simpl. lia.
    + intros [= <- <-]. by exists [].
Qed.

Lemma tokens_len_bound token lo s n :
  (forall s s1, token s = Some s1 -> exists w, w <> [] /\ s = w ++ s1) ->
  1 <= lo -> tokens_len token lo s = Some n -> 1 <= n <= length s.
Proof.
  intros Htok Hlo. unfold tokens_len.
  destruct (tokens token (length s) s) as [k s'] eqn:E.
  apply (tokens_suffix _ Htok) in E as (w & -> & Hk).
  destruct (Nat.leb_spec lo k); [|done]. intros [= <-].
  rewrite !length_app. lia.
Qed.

(** More fuel than characters changes nothing. *)
Lemma tokens_fuel token :
  (forall s s1, token s = Some s1 -> exists w, w <> [] /\ s = w ++ s1) ->
  forall fuel1 fuel2 s, length s <= fuel1 -> length s <= fuel2 ->
  tokens token fuel1 s = tokens token fuel2 s.
Proof.
  intros Htok. induction fuel1 as [|f1 IH]; intros fuel2 s H1 H2.
  - destruct s; [|simpl in *; lia]. destruct fuel2; simpl; [done|].
    destruct (token []) eqn:E; [|done].
    apply Htok in E as (w & Hw & Hs). by destruct w.
  - destruct fuel2 as [|f2].
    + destruct s; [|simpl in *; lia]. simpl.
      destruct (token []) eqn:E; [|done].
      apply Htok in E as (w & Hw & Hs). by destruct w.
    + simpl. destruct (token s) as [s1|] eqn:E; [|done].
      apply Htok in E as (w & Hw & ->). rewrite length_app in *.
      destruct w; [done|]. simpl in *.
      rewrite (IH f2); [done|lia|lia].
Qed.

(** ** The four repetitions of the clean-up passes *)

Lemma class_body_token p a :
  option_map rest (head (run (Cls p) a)) = class_token p (rest a).
Proof. destruct a as [q [|c s] cs]; simpl; [done|]. by destruct (p c). Qed.

Lemma class_body_dead p a :
  Forall (fun x => run (Cls p) x = []) (tail (run (Cls p) a)).
Proof.
  destruct a as [q [|c s] cs]; simpl; [done|]. destruct (p c); simpl; done.
Qed.

Lemma blank_glyph_body_token a :
  option_map rest (head (run blank_glyph_body a)) =
  class_token is_blank_glyph (rest a).
Proof.
  destruct a as [q [|c s] cs]; simpl; [done|].
  unfold is_char, is_blank_glyph.
  destruct (N.eqb_spec c LOW_LINE) as [->|]; [done|].
  destruct (N.eqb_spec c LOWER_BLOCK) as [->|]; [done|].
  destruct (N.eqb_spec c ELLIPSIS) as [->|]; [done|].
  destruct (N.eqb_spec c DOT) as [->|]; done.
Qed.

Lemma blank_glyph_body_dead a :
  Forall (fun x => run blank_glyph_body x = []) (tail (run blank_glyph_body a)).
Proof.
  destruct a as [q [|c s] cs]; simpl; [done|].
  unfold is_char.
  destruct (N.eqb_spec c LOW_LINE) as [->|]; [simpl; done|].
  destruct (N.eqb_spec c LOWER_BLOCK) as [->|]; [simpl; done|].
  destruct (N.eqb_spec c ELLIPSIS) as [->|]; [simpl; done|].
  destruct (N.eqb_spec c DOT) as [->|]; simpl; done.
Qed.

Lemma blank_line_body_token a :
  option_map rest (head (run blank_line_body a)) = blank_line_token (rest a).
Proof.
  destruct a as [q [|c1 s] cs]; simpl; [done|]. unfold is_char.
  destruct (c1 =? NL)%N; simpl; [|by destruct s].
  destruct s as [|c2 s]; simpl; [done|]. by destruct (is_space c2).
Qed.

Lemma blank_line_body_dead a :
  Forall (fun x => run blank_line_body x = []) (tail (run blank_line_body a)).
Proof.
  destruct a as [q [|c1 s] cs]; simpl; [done|]. unfold is_char.
  destruct (c1 =? NL)%N; simpl; [|done].
  destruct s as [|c2 s]; simpl; [done|]. destruct (is_space c2); simpl; done.
Qed.

Lemma dot_leader_body_token a :
  option_map rest (head (run dot_leader_body a)) = dot_token (rest a).
Proof.
  destruct a as [q [|c1 s] cs]; simpl; [done|]. unfold is_char.
  destruct (c1 =? DOT)%N; simpl; [|done].
  destruct s as [|c2 s]; simpl; [done|]. by destruct (c2 =? SPACE)%N.
Qed.

Lemma dot_leader_body_dead a :
  Forall (fun x => run dot_leader_body x = []) (tail (run dot_leader_body a)).
Proof.
  destruct a as [q [|c1 s] cs]; simpl; [done|]. unfold is_char.
  destruct (c1 =? DOT)%N; simpl; [|done].
  destruct s as [|c2 s]; simpl; [done|].
  destruct (N.eqb_spec c2 SPACE) as [->|]; simpl; [|done].
  constructor; [|done]. done.
Qed.

Lemma normalize_blanks_scan s :
  normalize_blanks s =
  scan (tokens_len (class_token is_blank_glyph) 4)
       (fun m => replicate (length m * 2) DOT) 0 s.
Proof.
  apply sub_scan_scan. intros p x.
  apply (match_len_tokens blank_glyph_body);
    [apply blank_glyph_body_token | apply blank_glyph_body_dead].
Qed.

Lemma normalize_dot_leaders_scan s :
  normalize_dot_leaders s =
  scan (tokens_len dot_token 130)
       (fun _ => [NL; NL] ++ replicate FILL_IN_BLANK_WIDTH DOT ++ [NL; NL]) 0 s.
Proof.
  apply sub_scan_scan. intros p x.
  apply (match_len_tokens dot_leader_body);
    [apply dot_leader_body_token | apply dot_leader_body_dead].
Qed.

Lemma sub_newlines_scan repl s :
  re_sub re_newlines repl s =
  scan (tokens_len (class_token (is_char NL)) 3) repl 0 s.
Proof.
  apply sub_scan_scan. intros p x.
  apply (match_len_tokens (Chr NL)); [apply class_body_token | apply class_body_dead].
Qed.

Lemma sub_blank_lines_scan repl s :
  re_sub re_blank_lines repl s = scan (tokens_len blank_line_token 3) repl 0 s.
Proof.
  apply sub_scan_scan. intros p x.
  apply (match_len_tokens blank_line_body);
    [apply blank_line_body_token | apply blank_line_body_dead].
Qed.

(** ** Runs of tokens *)

Lemma tokens_split token (P : str -> Prop) :
  (forall s s1, token s = Some s1 -> exists w, P w /\ s = w ++ s1) ->
  forall fuel x k s', tokens token fuel x = (k, s') ->
  exists toks, length toks = k /\ Forall P toks /\ x = concat toks ++ s'.
Proof.
  intros Htok. induction fuel as [|f IH]; intros x k s'; simpl.
  - intros [= <- <-]. by exists [].
  - destruct (token x) as [x1|] eqn:E.
    + destruct (tokens token f x1) as [k1 s1] eqn:E1. intros [= <- <-].
      apply Htok in E as (w & Hw & ->).
      apply IH in E1 as (toks & <- & HP & ->).
      exists (w :: toks). simpl. rewrite <- app_assoc.
      split; [done|]. split; [by constructor | done].
    + intros [= <- <-]. by exists [].
Qed.

(** A text with no [lo] tokens in a row is left as it is. *)
Lemma scan_tokens_id token (P : str -> Prop) lo repl s :
  (forall s s1, token s = Some s1 -> exists w, P w /\ s = w ++ s1) ->
  (forall a toks b, s = a ++ concat toks ++ b -> Forall P toks ->
                    length toks < lo) ->
  scan (tokens_len token lo) repl 0 s = s.
Proof.
  intros Htok Hno. apply scan_no_match. intros a b ->.
  unfold tokens_len.
  destruct (tokens token (length b) b) as [k s'] eqn:E.
  apply (tokens_split _ _ Htok) in E as (toks & <- & HP & ->).
  specialize (Hno a toks s' eq_refl HP).
  destruct (Nat.leb_spec lo (length toks)) as [H|H]; [|done].
  exfalso. eapply Nat.lt_irrefl, Nat.lt_le_trans; [apply Hno | apply H].
Qed.

Lemma class_token_shape p s s1 :
  class_token p s = Some s1 ->
  exists w, (exists c, w = [c] /\ p c = true) /\ s = w ++ s1.
Proof.
  destruct s as [|c s]; simpl; [done|]. destruct (p c) eqn:E; [|done].
  intros [= <-]. exists [c]. eauto.
Qed.

Lemma class_token_wf p s s1 :
  class_token p s = Some s1 -> exists w, w <> [] /\ s = w ++ s1.
Proof.
  intros (w & (c & -> & _) & ->)%class_token_shape. by exists [c].
Qed.

Lemma blank_line_token_shape s s1 :
  blank_line_token s = Some s1 ->
  exists w, (exists c, w = [NL; c] /\ is_space c = true) /\ s = w ++ s1.
Proof.
  destruct s as [|c1 [|c2 s]]; simpl; try done.
  destruct (N.eqb_spec c1 NL) as [->|]; [|done].
  destruct (is_space c2) eqn:E; [|done]. simpl.
  intros [= <-]. exists [NL; c2]. eauto.
Qed.

Lemma dot_token_shape s s1 :
  dot_token s = Some s1 -> exists w, is_dot_token w /\ s = w ++ s1.
Proof.
  destruct s as [|c s]; simpl; [done|].
  destruct (N.eqb_spec c DOT) as [->|]; [|done].
  destruct s as [|c2 s].
  - intros [= <-]. exists [DOT]. split; [by left | done].
  - destruct (N.eqb_spec c2 SPACE) as [->|]; intros [= <-].
    + exists [DOT; SPACE]. split; [by right | done].
    + exists [DOT]. split; [by left | done].
Qed.

Lemma dot_token_wf s s1 :
  dot_token s = Some s1 -> exists w, w <> [] /\ s = w ++ s1.
Proof.
  intros (w & [-> | ->] & ->)%dot_token_shape.
  - by exists [DOT].
  - by exists [DOT; SPACE].
Qed.

(** *** Runs of one class of characters *)

Lemma take_drop_while p s : take_while p s ++ drop_while p s = s.
Proof. induction s as [|c s IH]; simpl; [done|]. destruct (p c); simpl; congruence. Qed.

Lemma tokens_class p fuel s :
  length s <= fuel ->
  tokens (class_token p) fuel s = (length (take_while p s), drop_while p s).
Proof.
  revert s. induction fuel as [|f IH]; intros s Hs.
  - destruct s; simpl in *; [done | lia].
  - destruct s as [|c s]; simpl in *; [done|].
    destruct (p c); [|done]. rewrite IH by lia. done.
Qed.

Lemma class_len p lo s :
  tokens_len (class_token p) lo s =
  if lo <=? length (take_while p s) then Some (length (take_while p s)) else None.
Proof.
  unfold tokens_len. rewrite tokens_class by done.
  destruct (lo <=? _); [|done]. f_equal.
  rewrite <- (take_drop_while p s) at 1. rewrite length_app. lia.
Qed.

Lemma take_while_stop p x c t :
  p c = false -> take_while p (x ++ c :: t) = take_while p (x ++ [c]).
Proof.
  intros Hc. induction x as [|d x IH]; simpl.
  - by rewrite Hc.
  - destruct (p d); [by rewrite IH | done].
Qed.

Lemma take_while_run p run b :
  Forall (fun c => p c = true) run ->
  (forall c b', b = c :: b' -> p c = false) ->
  take_while p (run ++ b) = run.
Proof.
  intros Hrun Hb. induction Hrun as [|c run Hc _ IH]; simpl.
  - destruct b as [|c b']; [done|]. simpl. by rewrite (Hb c b').
  - by rewrite Hc, IH.
Qed.

(** Substituting the runs of [lo] or more characters of the class [p]:
    a run that cannot be extended is replaced as a whole, and the text
    before it and the text after it are handled on their own. *)
Lemma class_scan_run p lo repl a run b :
  1 <= lo -> Forall (fun c => p c = true) run -> lo <= length run ->
  (forall a' c, a = a' ++ [c] -> p c = false) ->
  (forall c b', b = c :: b' -> p c = false) ->
  scan (tokens_len (class_token p) lo) repl 0 (a ++ run ++ b) =
  scan (tokens_len (class_token p) lo) repl 0 a ++ repl run
  ++ scan (tokens_len (class_token p) lo) repl 0 b.
Proof.
  intros Hlo Hrun Hlen Ha Hb.
  rewrite scan_app.
  - f_equal. rewrite (scan_match _ _ (length run)).
    + by rewrite take_app_length, drop_app_length.
    + rewrite class_len, take_while_run by done.
      apply Nat.leb_le in Hlen. by rewrite Hlen.
    + rewrite length_app. lia.
  - rewrite class_len. simpl. destruct lo; [lia | done].
  - intros x n Hx. eapply tokens_len_bound; [apply class_token_wf | done | done].
  - intros y x -> Hx. rewrite !class_len.
    destruct (exists_last Hx) as (x' & c & ->).
    assert (p c = false) as Hc by (apply (Ha (y ++ x')); by rewrite app_assoc).
    rewrite <- app_assoc. simpl. by rewrite take_while_stop.
Qed.

Lemma class_scan_id p lo repl s :
  (forall a run b, s = a ++ run ++ b -> Forall (fun c => p c = true) run ->
                   length run < lo) ->
  scan (tokens_len (class_token p) lo) repl 0 s = s.
Proof.
  intros Hno. eapply scan_tokens_id; [apply class_token_shape|].
  intros a toks b -> HP.
  assert (Forall (fun c => p c = true) (concat toks) /\
          length (concat toks) = length toks) as [Hall Hlen].
  { clear Hno. induction HP as [|w toks (c & -> & Hc) _ [IH1 IH2]]; simpl; [done|].
    split; [by constructor | by rewrite IH2]. }
  rewrite <- Hlen. by eapply Hno.
Qed.

(** *** Dot leaders *)

Lemma tokens_dot_concat toks b fuel :
  Forall is_dot_token toks ->
  (forall c b', b = c :: b' -> c <> DOT) ->
  (forall b', b = SPACE :: b' -> toks <> [] -> last toks = Some [DOT; SPACE]) ->
  length (concat toks ++ b) <= fuel ->
  tokens dot_token fuel (concat toks ++ b) = (length toks, b).
Proof.
  intros Htoks Hb. revert fuel.
  induction Htoks as [|tok toks Htok Htoks IH]; intros fuel Hsp Hfuel.
  - simpl. destruct fuel; [done|]. simpl.
    destruct b as [|c b']; [done|]. simpl.
    destruct (N.eqb_spec c DOT) as [->|]; [|done]. by destruct (Hb DOT b').
  - simpl concat in *. rewrite <- app_assoc in *.
    remember (concat toks ++ b) as r eqn:Er.
    assert (Hrest : forall f, length r <= f ->
                    tokens dot_token f r = (length toks, b)).
    { intros f Hf. apply IH; [|done]. intros b' -> Hne.
      rewrite <- (Hsp b') by done. destruct toks; done. }
    destruct fuel as [|f]; [destruct Htok as [-> | ->]; simpl in Hfuel; lia|].
    destruct Htok as [-> | ->]; simpl in *.
    + destruct r as [|c2 r'].
      * rewrite Hrest by (simpl; lia). done.
      * destruct (N.eqb_spec c2 SPACE) as [->|].
        -- exfalso. destruct toks as [|t2 toks'].
           ++ simpl in Er. subst b. specialize (Hsp r' eq_refl).
              by specialize (Hsp ltac:(done)).
           ++ inversion Htoks as [|? ? [-> | ->] _]; subst; simpl in Er; done.
        -- rewrite Hrest by (simpl in *; lia). done.
    + rewrite Hrest by lia. done.
Qed.

Lemma tokens_dot_local fuel x t k s1 :
  tokens dot_token fuel x = (k, s1) -> s1 <> [] ->
  tokens dot_token fuel (x ++ t) = (k, s1 ++ t).
Proof.
  revert x k. induction fuel as [|f IH]; intros x k; simpl.
  - by intros [= <- <-].
  - destruct x as [|c x]; simpl; [by intros [= <- <-]|].
    destruct (N.eqb_spec c DOT) as [->|]; [|by intros [= <- <-]].
    destruct x as [|c2 x]; simpl.
    + destruct f; simpl; by intros [= <- <-].
    + destruct (N.eqb_spec c2 SPACE) as [->|].
      * destruct (tokens dot_token f x) as [k1 s1'] eqn:E1.
        intros [= <- <-] Hne. by rewrite (IH _ _ E1).
      * destruct (tokens dot_token f (c2 :: x)) as [k1 s1'] eqn:E1.
        intros [= <- <-] Hne.
        change (c2 :: x ++ t) with ((c2 :: x) ++ t). by rewrite (IH _ _ E1).
Qed.

Lemma ends_dot_app w x : ends_dot x -> ends_dot (w ++ x).
Proof.
  intros (x' & [-> | ->]); exists (w ++ x'); rewrite app_assoc; auto.
Qed.

Lemma tokens_dot_end fuel x k :
  tokens dot_token fuel x = (k, []) -> x = [] \/ ends_dot x.
Proof.
  intros E. apply (tokens_split _ _ dot_token_shape) in E as (toks & _ & HP & ->).
  rewrite app_nil_r. induction HP as [|w toks Hw _ IH]; simpl; [by left|].
  right. destruct IH as [-> | IH].
  - rewrite app_nil_r. destruct Hw as [-> | ->]; exists []; auto.
  - by apply ends_dot_app.
Qed.

Lemma dot_len_local x t lo :
  x <> [] -> ~ ends_dot x ->
  tokens_len dot_token lo (x ++ t) = tokens_len dot_token lo x.
Proof.
  intros Hx Hend. unfold tokens_len.
  destruct (tokens dot_token (length x) x) as [k s1] eqn:E.
  assert (s1 <> []) as Hs1.
  { intros ->. apply tokens_dot_end in E as [?|?]; done. }
  rewrite (tokens_fuel _ dot_token_wf (length x) (length (x ++ t))) in E;
    [|done|rewrite length_app; lia].
  rewrite (tokens_dot_local _ _ t _ _ E Hs1).
  apply (tokens_suffix _ dot_token_wf) in E as (w & -> & _).
  destruct (lo <=? k); [|done]. f_equal. rewrite !length_app. lia.
Qed.

(** A sequence of [lo] or more dots, each with or without a space after
    it, that cannot be extended is replaced as a whole. *)
Lemma dot_scan_run lo repl a toks b :
  1 <= lo -> Forall is_dot_token toks -> lo <= length toks ->
  ~ ends_dot a ->
  (forall c b', b = c :: b' -> c <> DOT) ->
  (forall b', b = SPACE :: b' -> last toks = Some [DOT; SPACE]) ->
  scan (tokens_len dot_token lo) repl 0 (a ++ concat toks ++ b) =
  scan (tokens_len dot_token lo) repl 0 a ++ repl (concat toks)
  ++ scan (tokens_len dot_token lo) repl 0 b.
Proof.
  intros Hlo Htoks Hlen Ha Hb Hsp.
  assert (Hcl : lo <= length (concat toks)).
  { assert (length toks <= length (concat toks)); [|lia].
    clear -Htoks. induction Htoks as [|w toks [-> | ->] _ IH]; simpl; lia. }
  rewrite scan_app.
  - f_equal. rewrite (scan_match _ _ (length (concat toks))).
    + rewrite (take_app_length (concat toks) b), (drop_app_length (concat toks) b).
      done.
    + unfold tokens_len. rewrite tokens_dot_concat; [|done|done|eauto|done].
      apply Nat.leb_le in Hlen. rewrite Hlen. f_equal. rewrite length_app. lia.
    + rewrite length_app. lia.
  - unfold tokens_len. simpl. destruct lo; [lia | done].
  - intros x n Hx. eapply tokens_len_bound; [apply dot_token_wf | done | done].
  - intros y x -> Hx. apply dot_len_local; [done|].
    intros He. apply Ha. by apply ends_dot_app.
Qed.

Lemma dot_scan_id lo repl s :
  (forall a toks b, s = a ++ concat toks ++ b -> Forall is_dot_token toks ->
                    length toks < lo) ->
  scan (tokens_len dot_token lo) repl 0 s = s.
Proof. apply scan_tokens_id, dot_token_shape. Qed.

(** ** The post-processing pass *)

Lemma strip_id s :
  (forall c s', s = c :: s' -> is_space c = false) ->
  (forall s' c, s = s' ++ [c] -> is_space c = false) ->
  strip s = s.
Proof.
  intros Hl Hr. unfold strip, lstrip, rstrip.
  assert (drop_while is_space s = s) as ->.
  { destruct s as [|c s']; simpl; [done|]. by rewrite (Hl c s'). }
  destruct (rev s) as [|c r] eqn:E.
  - simpl. by rewrite <- (rev_involutive s), E.
  - simpl. rewrite (Hr (rev r) c).
    + by rewrite <- E, rev_involutive.
    + by rewrite <- (rev_involutive s), E.
Qed.

Lemma clean_fixed s : clean s -> postprocess s = s.
Proof.
  intros (Hnl & Hbl & Hl & Hr & Hg & Hd).
  unfold postprocess, cleanup_text.
  rewrite sub_newlines_scan, class_scan_id.
  - rewrite sub_blank_lines_scan.
    rewrite (scan_tokens_id _ is_blank_pair); [|apply blank_line_token_shape|done].
    rewrite strip_id by done.
    rewrite normalize_blanks_scan, class_scan_id by done.
    rewrite normalize_dot_leaders_scan. by apply dot_scan_id.
  - intros a run b -> Hrun. apply (Hnl a run b eq_refl).
    eapply Forall_impl; [done|]. intros c Hc. by apply N.eqb_eq in Hc.
Qed.

Lemma length_concat_ge (P : str -> Prop) n (toks : list str) :
  (forall w, P w -> n <= length w) -> Forall P toks ->
  n * length toks <= length (concat toks).
Proof.
  intros HP. induction 1 as [|w toks Hw _ IH]; simpl; [lia|].
  rewrite length_app. apply HP in Hw. lia.
Qed.

(** Short texts without whitespace at their ends are clean. *)
Lemma clean_short s :
  length s < 3 ->
  (forall c s', s = c :: s' -> is_space c = false) ->
  (forall s' c, s = s' ++ [c] -> is_space c = false) ->
  clean s.
Proof.
  intros Hs Hl Hr. repeat split; try done.
  - intros a run b -> _. rewrite !length_app in Hs. lia.
  - intros a toks b -> HP. rewrite !length_app in Hs.
    assert (2 * length toks <= length (concat toks)) as H.
    { apply (length_concat_ge is_blank_pair); [|done]. by intros w (c & -> & _). }
    unfold str, char in *. lia.
  - intros a run b -> _. rewrite !length_app in Hs. lia.
  - intros a toks b -> HP. rewrite !length_app in Hs.
    assert (1 * length toks <= length (concat toks)) as H.
    { apply (length_concat_ge is_dot_token); [|done]. intros w [-> | ->]; simpl; lia. }
    unfold str, char in *. lia.
Qed.

(** C9. In the post-processing pass a run of four or more characters of
    [_ ▁ … .] that cannot be extended is replaced by twice as many dots,
    the text around it being handled on its own, and shorter runs are
    kept; after that a sequence of 130 or more dots, each with or without
    a space after it, that cannot be extended is replaced by a blank
    line, 150 dots and a blank line, and shorter sequences are kept.
    Four underscores become eight dots; 140 times a dot and a space
    become the 150-dot block. *)
Theorem C9_fill_in_blank_normalization :
  (forall c, is_blank_glyph c = true <->
             c = 95%N \/ c = 9601%N \/ c = 8230%N \/ c = 46%N)
  /\ (forall s, postprocess s =
                normalize_dot_leaders (normalize_blanks (cleanup_text s)))
  /\ (forall a run b,
        Forall (fun c => is_blank_glyph c = true) run -> 4 <= length run ->
        (forall a' c, a = a' ++ [c] -> is_blank_glyph c = false) ->
        (forall c b', b = c :: b' -> is_blank_glyph c = false) ->
        normalize_blanks (a ++ run ++ b) =
        normalize_blanks a ++ replicate (2 * length run) DOT ++ normalize_blanks b)
  /\ (forall s,
        (forall a run b, s = a ++ run ++ b ->
           Forall (fun c => is_blank_glyph c = true) run -> length run < 4) ->
        normalize_blanks s = s)
  /\ (forall a toks b,
        Forall is_dot_token toks -> 130 <= length toks ->
        ~ ends_dot a ->
        (forall c b', b = c :: b' -> c <> DOT) ->
        (forall b', b = SPACE :: b' -> last toks = Some [DOT; SPACE]) ->
        normalize_dot_leaders (a ++ concat toks ++ b) =
        normalize_dot_leaders a ++ dot_block ++ normalize_dot_leaders b)
  /\ (forall s,
        (forall a toks b, s = a ++ concat toks ++ b -> Forall is_dot_token toks ->
           length toks < 130) ->
        normalize_dot_leaders s = s)
  /\ normalize_blanks (txt "____") = replicate 8 DOT
  /\ postprocess (concat (replicate 140 (txt ". "))) = dot_block.
Proof.
  repeat apply conj.
  - intros c. unfold is_blank_glyph, LOW_LINE, LOWER_BLOCK, ELLIPSIS, DOT.
    rewrite !orb_true_iff, !N.eqb_eq. tauto.
  - done.
  - intros a run b Hrun Hlen Ha Hb. rewrite !normalize_blanks_scan.
    rewrite class_scan_run by (done || lia).
    by rewrite (Nat.mul_comm 2).
  - intros s Hs. rewrite normalize_blanks_scan. by apply class_scan_id.
  - intros a toks b Htoks Hlen Ha Hb Hsp. rewrite !normalize_dot_leaders_scan.
    rewrite dot_scan_run by (done || lia). done.
  - intros s Hs. rewrite normalize_dot_leaders_scan. by apply dot_scan_id.
  - vm_compute. done.
  - vm_compute. done.
Qed.

(** C4, the claim refuted: the pass applied to its own output changes it.
    Four underscores give eight dots, and those give sixteen. *)
Lemma C4_not_idempotent :
  postprocess (txt "____") = replicate 8 DOT
  /\ postprocess (postprocess (txt "____")) = replicate 16 DOT
  /\ postprocess (postprocess (txt "____")) <> postprocess (txt "____").
Proof. vm_compute. repeat split; done. Qed.

(** C4, as amended: the pass returns clean text unchanged. *)
Theorem C4_clean_text_is_fixed (s : str) : clean s -> postprocess s = s.
Proof. apply clean_fixed. Qed.

Lemma C4_clean_text_is_fixed_witness :
  clean (txt "ab") /\ postprocess (txt "ab") = txt "ab".
Proof.
  assert (clean (txt "ab")) as H.
  { apply clean_short.
    - vm_compute. lia.
    - intros c s' [= <- _]. vm_compute. reflexivity.
    - intros s' c Hs. change (txt "ab") with [97%N; 98%N] in Hs.
      destruct s' as [|x [|y [|z s']]]; simplify_eq/=. reflexivity. }
  split; [exact H | apply (C4_clean_text_is_fixed (txt "ab") H)].
Defined.

(** ** Paragraphs *)

Lemma head_In {A} (l : list A) : (exists x, head l = Some x) <-> (exists x, In x l).
Proof.
  destruct l as [|a l]; simpl.
  - split; intros [x H]; done.
  - split; intros _; exists a; auto.
Qed.

Lemma head_None_In {A} (l : list A) : head l = None <-> forall x, ~ In x l.
Proof.
  destruct l as [|a l]; simpl.
  - split; [intros _ x [] | done].
  - split; [done | intros H; destruct (H a); auto].
Qed.

Lemma iter_advances r k a b :
  proper r = true -> iter (sem r) k a b -> advances a b.
Proof.
  intros Hp. induction 1 as [|n st m st' H _ IH]; [apply advances_refl|].
  eapply advances_trans; [|done]. by eapply sem_advances.
Qed.

Lemma iter_cls_build p w r q cs :
  Forall (fun c => p c = true) w ->
  iter (sem (Cls p)) (length w) (MState q (w ++ r) cs) (MState (q + length w) r cs).
Proof.
  intros Hw. revert q. induction Hw as [|c w Hc _ IH]; intros q; simpl.
  - rewrite Nat.add_0_r. constructor.
  - apply iter_S with (MState (S q) (w ++ r) cs).
    + exists c. done.
    + replace (q + S (length w)) with (S q + length w) by lia. apply IH.
Qed.

Lemma hyphen_not_space h : is_hyphen h = true -> is_white_space h = false.
Proof.
  unfold is_hyphen. rewrite !orb_true_iff, !N.eqb_eq.
  intros [[-> | ->] | ->]; reflexivity.
Qed.

Lemma hyphen_not_newline h : is_hyphen h = true -> h <> NL.
Proof. intros H ->. done. Qed.

Lemma trailing_hyphen_proper : proper re_trailing_hyphen = true.
Proof. reflexivity. Qed.

Lemma hyphenated_proper E : proper (re_hyphenated E) = true.
Proof. reflexivity. Qed.

(** The matches of [[-—¬]\s?$]. *)
Lemma trailing_hyphen_matches p s :
  (exists st', In st' (run re_trailing_hyphen (start p s))) <->
  exists h tail, s = h :: tail /\ is_hyphen h = true /\ hyphen_tail tail.
Proof.
  split.
  - intros (st' & H). apply run_sem in H; [|done]. simpl in H.
    destruct H as (m1 & (h & Hr1 & Hh & _) & m2 & Hopt & HEol & ->).
    simpl in Hr1. exists h, (rest m1). split; [done|]. split; [done|].
    destruct Hopt as [(w & Hr2 & Hw & _) | ->].
    + right. exists w. split; [done|]. rewrite Hr2.
      destruct HEol as [-> | ->]; auto.
    + destruct HEol as [-> | ->]; [by left|]. right. exists NL. auto.
  - intros (h & tail & -> & Hh & Htail).
    assert (exists st', sem re_trailing_hyphen (start p (h :: tail)) st') as (st' & H).
    { simpl. destruct Htail as [-> | (w & Hw & [-> | ->])].
      - exists (MState (S p) [] []), (MState (S p) [] []).
        split; [by exists h|]. exists (MState (S p) [] []). auto.
      - exists (MState (S (S p)) [] []), (MState (S p) [w] []).
        split; [by exists h|]. exists (MState (S (S p)) [] []).
        split; [left; by exists w | auto].
      - exists (MState (S (S p)) [NL] []), (MState (S p) [w; NL] []).
        split; [by exists h|]. exists (MState (S (S p)) [NL] []).
        split; [left; by exists w | auto]. }
    exists st'. by apply run_sem.
Qed.

(** The matches of [.*[\p{Ll}|\d][-—¬]\s?$]. *)
Lemma hyphenated_matches E text :
  (exists m, re_match (re_hyphenated E) text = Some m) <-> hyphenated E text.
Proof.
  unfold re_match. rewrite head_In. split.
  - intros (st' & H). apply run_sem in H; [|done].
    destruct H as (m1 & (k & _ & Hit) & m2 & (c & Hr1 & Hc & _) & Hrest).
    apply iter_advances in Hit as (pre & Hpre & _); [|done].
    assert (exists st', In st' (run re_trailing_hyphen (start (pos m2) (rest m2))))
      as Hm.
    { destruct Hrest as (m3 & H3 & m4 & H4 & H5).
      exists (MState (pos st') (rest st') []).
      apply run_sem; [done|]. simpl.
      destruct H3 as (h & Hr3 & Hh & Hp3 & _).
      exists (MState (pos m3) (rest m3) []). split; [by exists h|].
      destruct H5 as [HEol ->].
      exists (MState (pos m4) (rest m4) []). split; [|done].
      destruct H4 as [(w & Hr4 & Hw & Hp4 & _) | ->]; [left; by exists w | by right]. }
    apply trailing_hyphen_matches in Hm as (h & tail & Hr2 & Hh & Htail).
    exists pre, c, h, tail. simpl in Hpre. rewrite Hpre, Hr1, Hr2. done.
  - intros (pre & c & h & tail & -> & Hc & Hh & Htail).
    destruct (proj2 (trailing_hyphen_matches (S (length pre)) (h :: tail)))
      as (st' & Hst'); [by exists h, tail|].
    apply run_sem in Hst'; [|done].
    destruct Hst' as (m3 & H3 & m4 & H4 & H5).
    exists st'. apply run_sem; [done|].
    exists (MState (0 + length pre) ([c; h] ++ tail) []). split.
    + exists (length pre). split; [lia|].
      apply iter_cls_build. by apply Forall_forall.
    + exists (start (S (length pre)) (h :: tail)). split; [by exists c|].
      exists m3. split; [done|]. exists m4. done.
Qed.

Lemma search_from_app r t st' :
  forall a p,
  (forall y x, a = y ++ x -> x <> [] ->
               head (run r (start (p + length y) (x ++ t))) = None) ->
  head (run r (start (p + length a) t)) = Some st' ->
  search_from r p (a ++ t) = Some (p + length a, st').
Proof.
  induction a as [|c a IH]; intros p Hno Hyes.
  - simpl in *. rewrite Nat.add_0_r in *.
    destruct t; simpl; by rewrite Hyes.
  - simpl. pose proof (Hno [] (c :: a) eq_refl ltac:(done)) as H0.
    simpl in H0. rewrite Nat.add_0_r in H0. rewrite H0.
    rewrite (IH (S p)).
    + f_equal. f_equal. simpl. lia.
    + intros y x -> Hx. specialize (Hno (c :: y) x eq_refl Hx).
      simpl in Hno. by replace (S p + length y) with (p + S (length y)) by lia.
    + by replace (S p + length a) with (p + length (c :: a)) by (simpl; lia).
Qed.

(** Splitting at the trailing hyphen keeps what is before it. *)
Lemma split_head_hyphen a h tail :
  is_hyphen h = true -> hyphen_tail tail -> a <> [] ->
  split_head re_trailing_hyphen (a ++ h :: tail) = a.
Proof.
  intros Hh Htail Ha. unfold split_head.
  assert (exists x, head (run re_trailing_hyphen (start (0 + length a) (h :: tail)))
                    = Some x) as (st1 & Hst1).
  { apply head_In, trailing_hyphen_matches. by exists h, tail. }
  rewrite (search_from_app _ _ st1); [simpl; by rewrite take_app_length| |done].
  intros y x -> Hx. apply head_None_In. intros m Hm.
  assert (exists st', In st' (run re_trailing_hyphen
                                  (start (0 + length y) (x ++ h :: tail)))) as Hex
    by (by exists m).
  apply trailing_hyphen_matches in Hex as (h' & tail' & Heq & Hh' & Htail').
  destruct x as [|x0 x]; [done|]. simpl in Heq. injection Heq as -> <-.
  pose proof (hyphen_not_space _ Hh) as Hns.
  destruct Htail' as [Hnil | (w & Hw & [H1 | H2])].
  - by destruct x.
  - destruct x as [|x1 x]; simpl in H1.
    + injection H1 as -> _. congruence.
    + injection H1 as _ H1. by destruct x.
  - destruct x as [|x1 [|x2 x]]; simpl in H2.
    + injection H2 as -> _. congruence.
    + injection H2 as _ -> _. vm_compute in Hh. discriminate.
    + injection H2 as _ _ H2. by destruct x.
Qed.

Lemma convert_p_plain E el text :
  plain_text_continuation el ->
  convert_p E el text =
  match re_match (re_hyphenated E) text with
  | Some _ => Ok (split_head re_trailing_hyphen text)
  | None => Ok (text ++ [SPACE])
  end.
Proof.
  intros (Hc & name & Hget & Hname). unfold convert_p, getitem.
  rewrite Hc, Hget. destruct Hname as [-> | ->]; reflexivity.
Qed.

(** C2, the claim refuted: a paragraph that ends with a hyphen after a
    capital letter is not joined; it gets the trailing space. *)
Lemma C2_hyphen_after_capital_kept :
  (forall E,
     convert_p E (Tag "p" (Some [txt "has-continuation"])
                      [("block-type", txt "Text")] [])
               (txt "A-") = Ok (txt "A- "))
  /\ txt "A- " <> txt "A".
Proof. split; [intros E; reflexivity | done]. Qed.

(** C2, as amended. For a paragraph marked as continued whose block type
    is one of the two plain-text kinds: when the converted text ends with
    a lowercase letter, a digit or [|], then one of [-], the em-dash and
    the not sign, then at most one whitespace character (a final newline
    may follow it), the result is the text before the hyphen character
    and no paragraph break; otherwise it is the text and one space. So
    "inter-" followed by "national" reads "international", and "cats"
    followed by "next-sentence" reads "cats next-sentence". *)
Theorem C2_continued_paragraph (E : externals) (el : node) (text : str) :
  plain_text_continuation el ->
  (forall pre c h tail,
     text = pre ++ [c; h] ++ tail -> before_hyphen E c = true ->
     is_hyphen h = true -> hyphen_tail tail ->
     convert_p E el text = Ok (pre ++ [c]))
  /\ (~ hyphenated E text -> convert_p E el text = Ok (text ++ [SPACE]))
  /\ (convert_p E el (txt "inter-") = Ok (txt "inter")
      /\ txt "inter" ++ txt "national" = txt "international")
  /\ (convert_p E el (txt "cats") = Ok (txt "cats ")
      /\ txt "cats " ++ txt "next-sentence" = txt "cats next-sentence").
Proof.
  intros Hel. repeat apply conj.
  - intros pre c h tail -> Hc Hh Htail. rewrite convert_p_plain by done.
    destruct (re_match (re_hyphenated E) _) eqn:Em.
    + f_equal. replace (pre ++ [c; h] ++ tail) with ((pre ++ [c]) ++ h :: tail)
        by (by rewrite <- app_assoc).
      apply split_head_hyphen; [done | done | by destruct pre].
    + assert (exists m, re_match (re_hyphenated E) (pre ++ [c; h] ++ tail) = Some m)
        as (m & Hm); [|congruence].
      apply hyphenated_matches. by exists pre, c, h, tail.
  - intros Hno. rewrite convert_p_plain by done.
    destruct (re_match (re_hyphenated E) text) eqn:Em; [|done].
    destruct Hno. apply hyphenated_matches. eauto.
  - rewrite convert_p_plain by done. reflexivity.
  - reflexivity.
  - rewrite convert_p_plain by done. reflexivity.
  - reflexivity.
Qed.

Lemma C2_continued_paragraph_witness :
  plain_text_continuation continued_p
  /\ convert_p ascii_externals continued_p (txt "inter-") = Ok (txt "inter").
Proof.
  assert (plain_text_continuation continued_p) as H.
  { split; [reflexivity|]. eexists. split; [reflexivity | by left]. }
  split; [exact H|].
  apply (proj1 (C2_continued_paragraph ascii_externals continued_p (txt "inter-") H)
               (txt "inte") 114%N 45%N []); [reflexivity .. | by left].
Defined.

(** ** Lists: text lemmas *)

Lemma drop_while_all p (W s : str) :
  Forall (fun c => p c = true) W -> drop_while p (W ++ s) = drop_while p s.
Proof. induction 1 as [|c W Hc _ IH]; simpl; [done|]. by rewrite Hc. Qed.

Lemma rstrip_app_spaces x W :
  Forall (fun c => is_space c = true) W -> rstrip (x ++ W) = rstrip x.
Proof.
  intros HW. unfold rstrip. rewrite rev_app_distr.
  rewrite drop_while_all; [done|]. by apply Forall_rev.
Qed.

Lemma lstrip_id s :
  (forall c s', s = c :: s' -> is_space c = false) -> lstrip s = s.
Proof.
  intros H. destruct s as [|c s']; [done|]. unfold lstrip. simpl.
  by rewrite (H c s').
Qed.

Lemma rstrip_id s :
  (forall s' c, s = s' ++ [c] -> is_space c = false) -> rstrip s = s.
Proof.
  intros H. unfold rstrip. destruct (rev s) as [|c r] eqn:E.
  - simpl. by rewrite <- (rev_involutive s), E.
  - simpl. rewrite (H (rev r) c).
    + by rewrite <- E, rev_involutive.
    + by rewrite <- (rev_involutive s), E.
Qed.

(** The longest suffix of one class is determined by the text. *)
Lemma class_suffix_unique (D : char -> bool) x1 c1 s1 x2 c2 s2 :
  (x1 ++ [c1]) ++ s1 = (x2 ++ [c2]) ++ s2 ->
  Forall (fun c => D c = true) s1 -> Forall (fun c => D c = true) s2 ->
  D c1 = false -> D c2 = false ->
  s1 = s2 /\ x1 ++ [c1] = x2 ++ [c2].
Proof.
  intros Heq H1 H2 Hc1 Hc2.
  assert (rev s1 = rev s2) as Hr.
  { rewrite <- (take_while_run D (rev s1) (rev (x1 ++ [c1]))).
    - rewrite <- rev_app_distr, Heq, rev_app_distr.
      apply take_while_run; [by apply Forall_rev|].
      rewrite rev_app_distr. simpl. by intros c b' [= <- _].
    - by apply Forall_rev.
    - rewrite rev_app_distr. simpl. by intros c b' [= <- _]. }
  assert (s1 = s2) as ->.
  { by rewrite <- (rev_involutive s1), Hr, rev_involutive. }
  split; [done|]. by apply app_inv_tail in Heq.
Qed.

Lemma spaces_last W : spaces W -> exists W' w, W = W' ++ [w] /\ is_space w = true.
Proof.
  intros [Hne HW]. destruct (exists_last Hne) as (W' & w & ->).
  exists W', w. split; [done|]. apply Forall_app in HW as [_ HW].
  by inversion HW.
Qed.

Lemma stripped_prefix t p r :
  stripped t -> t = p ++ r -> p <> [] ->
  forall c s', p = c :: s' -> is_space c = false.
Proof. intros [Hl _] -> Hp c s' ->. by apply (Hl c (s' ++ r)). Qed.

(** Two ways of cutting a stripped text before a block of whitespace leave
    the same text once it is stripped. *)
Lemma strip_before_spaces t g W p V r :
  stripped t -> t = (g ++ W) ++ r -> g ++ W = p ++ V ->
  g <> [] -> p <> [] ->
  Forall (fun c => is_space c = true) W -> Forall (fun c => is_space c = true) V ->
  strip g = strip p.
Proof.
  intros Hs Ht Heq Hg Hp HW HV. unfold strip.
  rewrite (lstrip_id g), (lstrip_id p).
  - by rewrite <- (rstrip_app_spaces g W), <- (rstrip_app_spaces p V), Heq.
  - eapply (stripped_prefix t p (V ++ r)); [done| |done].
    by rewrite Ht, Heq, <- app_assoc.
  - eapply (stripped_prefix t g (W ++ r)); [done| |done].
    by rewrite Ht, <- app_assoc.
Qed.

(** A stripped text cannot end with whitespace, nor with whitespace and a
    final newline. *)
Lemma stripped_end t x W e :
  stripped t -> t = x ++ W ++ e -> Forall (fun c => is_space c = true) W ->
  e = [] \/ e = [NL] -> W = [] /\ e = [].
Proof.
  intros [_ Hr] -> HW He.
  destruct He as [-> | ->].
  - split; [|done]. destruct W as [|w W] using rev_ind; [done|].
    apply Forall_app in HW as [_ HW]. inversion HW; subst.
    rewrite (Hr (x ++ W) w) in *; [done|]. by rewrite app_nil_r, app_assoc.
  - specialize (Hr (x ++ W) NL). rewrite <- app_assoc in Hr.
    by specialize (Hr eq_refl).
Qed.

(** ** Lists: the matches of the patterns *)

Lemma iter_cls_inv p k a b :
  iter (sem (Cls p)) k a b ->
  exists w, length w = k /\ Forall (fun c => p c = true) w /\
            rest a = w ++ rest b /\ pos b = pos a + k /\ caps b = caps a.
Proof.
  induction 1 as [st|n st m st' (c & Hr & Hc & Hp & Hcs) _ (w & Hl & Hw & Hr' & Hp' & Hcs')].
  - exists []. repeat split; [done | lia].
  - exists (c :: w). simpl. rewrite Hr, Hr', Hp', Hp, Hcs', Hcs, Hl.
    repeat split; [by constructor | lia].
Qed.

Lemma iter_cls_ex p lo w r q cs :
  Forall (fun c => p c = true) w -> lo <= length w ->
  exists k, lo <= k /\
    iter (sem (Cls p)) k (MState q (w ++ r) cs) (MState (q + length w) r cs).
Proof. intros Hw Hlo. exists (length w). split; [done|]. by apply iter_cls_build. Qed.

Lemma length_nonempty (w : str) : w <> [] -> 1 <= length w.
Proof. destruct w; simpl; [done | lia]. Qed.

Lemma is_char_eq c x : is_char c x = true -> x = c.
Proof. unfold is_char. by intros ->%N.eqb_eq. Qed.

Lemma take_app_exact (w r : str) k : length w = k -> take k (w ++ r) = w.
Proof. intros <-. apply take_app_length. Qed.

(** A match of [^(.+?)\s+(\d+)<closer>\s*$] on a stripped text. *)
Lemma trailing_pattern_match E closer t m :
  stripped t -> re_match (trailing_pattern E closer) t = Some m ->
  exists p num, trailing_number E closer t p num /\
                number_first m = num ++ txt ". " ++ strip p.
Proof.
  intros Hs H. apply re_match_sem in H; [|done]. simpl in H.
  destruct H as (m0 & [_ ->] & m1 & (m1' & (k1 & Hk1 & Hit1) & ->)
                 & m2 & (k2 & Hk2 & Hit2) & m3 & (m3' & (k3 & Hk3 & Hit3) & ->)
                 & m4 & (c & Hr4 & Hc & Hp4 & Hcs4) & m5 & (k5 & _ & Hit5)
                 & [HEol ->]).
  apply iter_cls_inv in Hit1 as (g1 & Hl1 & Hg1 & Hr1 & Hp1 & Hc1).
  apply iter_cls_inv in Hit2 as (W & HlW & HW & HrW & HpW & HcW).
  apply iter_cls_inv in Hit3 as (g2 & Hl2 & Hg2 & Hr2 & Hp2 & Hc2).
  apply iter_cls_inv in Hit5 as (W' & _ & HW' & HrW' & _ & Hc5).
  apply is_char_eq in Hc as ->. simpl in *.
  assert (t = (g1 ++ W ++ g2 ++ [closer]) ++ W' ++ rest m5) as Ht.
  { rewrite Hr1, HrW, Hr2, Hr4, HrW', <- !app_assoc. done. }
  destruct (stripped_end _ _ _ _ Hs Ht HW' HEol) as [-> He]. rewrite He in *.
  simpl in Ht. rewrite app_nil_r in Ht.
  exists g1, g2. split.
  - exists W. repeat split; try done.
    + intros ->. simpl in *. lia.
    + intros ->. simpl in *. lia.
    + intros ->. simpl in *. lia.
  - unfold number_first. rewrite Hc5, Hcs4. cbn [group Nat.eqb].
    rewrite Hc2, HcW. cbn [group Nat.eqb].
    rewrite Hp2, Hr2.
    replace (pos m2 + k3 - pos m2) with k3 by lia.
    rewrite (take_app_exact g2) by done.
    rewrite Hp1, Nat.sub_0_r, Hr1, (take_app_exact g1) by done. done.
Qed.

Lemma trailing_pattern_complete E closer t p num :
  trailing_number E closer t p num ->
  exists m, re_match (trailing_pattern E closer) t = Some m.
Proof.
  intros (W & -> & [Hp Hpd] & [HW HWs] & [Hn Hnd]).
  apply head_In.
  set (t := p ++ W ++ num ++ [closer]).
  set (c1 := [(1, take (0 + length p - 0) t)]).
  set (c2 := (2, take (0 + length p + length W + length num
                       - (0 + length p + length W)) (num ++ [closer])) :: c1).
  exists (MState (S (0 + length p + length W + length num)) [] c2).
  apply run_sem; [done|]. simpl.
  exists (start 0 t). split; [done|].
  eexists. split.
  { exists (MState (0 + length p) (W ++ num ++ [closer]) []). split; [|done].
    apply iter_cls_ex; [done | by apply length_nonempty]. }
  simpl. exists (MState (0 + length p + length W) (num ++ [closer]) c1). split.
  { apply iter_cls_ex; [done | by apply length_nonempty]. }
  eexists. split.
  { exists (MState (0 + length p + length W + length num) [closer] c1).
    split; [|done]. apply iter_cls_ex; [done | by apply length_nonempty]. }
  simpl. exists (MState (S (0 + length p + length W + length num)) [] c2). split.
  { exists closer. unfold is_char. by rewrite N.eqb_refl. }
  exists (MState (S (0 + length p + length W + length num)) [] c2). split.
  { exists 0. split; [lia | constructor]. }
  split; [by left | done].
Qed.

Lemma digit_not_space_char E w :
  digits_not_space E -> is_space w = true -> is_digit E w = false.
Proof.
  intros HE Hw. destruct (is_digit E w) eqn:Ed; [|done].
  apply HE in Ed. congruence.
Qed.

Lemma trailing_number_unique E closer t p num p' num' :
  stripped t -> digits_not_space E ->
  trailing_number E closer t p num -> trailing_number E closer t p' num' ->
  num = num' /\ strip p = strip p'.
Proof.
  intros Hs HE (W & Ht & [Hp _] & HW & [_ Hn]) (W' & Ht' & [Hp' _] & HW' & [_ Hn']).
  destruct (spaces_last _ HW) as (W0 & w & HW0 & Hw).
  destruct (spaces_last _ HW') as (W0' & w' & HW0' & Hw').
  assert (((p ++ W0) ++ [w]) ++ num = ((p' ++ W0') ++ [w']) ++ num') as Heq.
  { assert (t = (((p ++ W0) ++ [w]) ++ num) ++ [closer]) as H1
      by (rewrite Ht, HW0, <- !app_assoc; done).
    assert (t = (((p' ++ W0') ++ [w']) ++ num') ++ [closer]) as H2
      by (rewrite Ht', HW0', <- !app_assoc; done).
    rewrite H1 in H2. by apply app_inj_tail in H2 as [H2 _]. }
  apply (class_suffix_unique (is_digit E)) in Heq as [-> Heq];
    [|done|done|by apply digit_not_space_char|by apply digit_not_space_char].
  split; [done|].
  rewrite <- !app_assoc, <- HW0, <- HW0' in Heq.
  apply (strip_before_spaces t p W p' W' (num' ++ [closer])); try done.
  - by rewrite <- app_assoc.
  - by destruct HW.
  - by destruct HW'.
Qed.

(** A match of [^(.+?)\s+[a-z]\)\s+(\d+)\)\s*$] on a stripped text. *)
Lemma letter_number_match E t m :
  stripped t -> re_match (trailing_letter_number_pattern E) t = Some m ->
  exists p num, trailing_letter_number E t p num /\
                number_first m = num ++ txt ". " ++ strip p.
Proof.
  intros Hs H. apply re_match_sem in H; [|done]. simpl in H.
  destruct H as (m0 & [_ ->] & m1 & (m1' & (k1 & Hk1 & Hit1) & ->)
                 & m2 & (k2 & Hk2 & Hit2)
                 & ml & (l & Hrl & Hl & Hpl & Hcl)
                 & mp & (cp & Hrp & Hcp & Hpp & Hcsp)
                 & mw & (kw & Hkw & Hitw)
                 & m3 & (m3' & (k3 & Hk3 & Hit3) & ->)
                 & m4 & (c & Hr4 & Hc & Hp4 & Hcs4) & m5 & (k5 & _ & Hit5)
                 & [HEol ->]).
  apply iter_cls_inv in Hit1 as (g1 & Hl1 & Hg1 & Hr1 & Hp1 & Hc1).
  apply iter_cls_inv in Hit2 as (W & HlW & HW & HrW & HpW & HcW).
  apply iter_cls_inv in Hitw as (W2 & HlW2 & HW2 & HrW2 & HpW2 & HcW2).
  apply iter_cls_inv in Hit3 as (g2 & Hl2 & Hg2 & Hr2 & Hp2 & Hc2).
  apply iter_cls_inv in Hit5 as (W' & _ & HW' & HrW' & _ & Hc5).
  apply is_char_eq in Hc as ->. apply is_char_eq in Hcp as ->. simpl in *.
  assert (t = (g1 ++ W ++ [l; 41%N] ++ W2 ++ g2 ++ [41%N]) ++ W' ++ rest m5) as Ht.
  { rewrite Hr1, HrW, Hrl, Hrp, HrW2, Hr2, Hr4, HrW', <- !app_assoc. done. }
  destruct (stripped_end _ _ _ _ Hs Ht HW' HEol) as [-> He]. rewrite He in *.
  simpl in Ht. rewrite app_nil_r in Ht.
  exists g1, g2. split.
  - exists W, l, W2. repeat split; try done.
    + intros ->. simpl in *. lia.
    + intros ->. simpl in *. lia.
    + intros ->. simpl in *. lia.
    + intros ->. simpl in *. lia.
  - unfold number_first. rewrite Hc5, Hcs4. cbn [group Nat.eqb].
    rewrite Hc2, HcW2, Hcsp, Hcl, HcW. cbn [group Nat.eqb].
    rewrite Hp2, Hr2.
    replace (pos mw + k3 - pos mw) with k3 by lia.
    rewrite (take_app_exact g2) by done.
    rewrite Hp1, Nat.sub_0_r, Hr1, (take_app_exact g1) by done. done.
Qed.

Lemma letter_number_complete E t p num :
  trailing_letter_number E t p num ->
  exists m, re_match (trailing_letter_number_pattern E) t = Some m.
Proof.
  intros (W & l & W2 & -> & [Hp Hpd] & [HW HWs] & Hl & [HW2 HW2s] & [Hn Hnd]).
  apply head_In.
  set (t := p ++ W ++ [l; 41%N] ++ W2 ++ num ++ [41%N]).
  set (c1 := [(1, take (0 + length p - 0) t)]).
  set (q := S (S (0 + length p + length W)) + length W2).
  set (c2 := (2, take (q + length num - q) (num ++ [41%N])) :: c1).
  exists (MState (S (q + length num)) [] c2).
  apply run_sem; [done|]. simpl.
  exists (start 0 t). split; [done|].
  eexists. split.
  { exists (MState (0 + length p) (W ++ [l; 41%N] ++ W2 ++ num ++ [41%N]) []).
    split; [|done]. apply iter_cls_ex; [done | by apply length_nonempty]. }
  simpl. exists (MState (0 + length p + length W) (l :: 41%N :: W2 ++ num ++ [41%N]) c1).
  split.
  { apply (iter_cls_ex _ _ W); [done | by apply length_nonempty]. }
  exists (MState (S (0 + length p + length W)) (41%N :: W2 ++ num ++ [41%N]) c1).
  split; [by exists l|].
  exists (MState (S (S (0 + length p + length W))) (W2 ++ num ++ [41%N]) c1).
  split; [by exists 41%N|].
  exists (MState q (num ++ [41%N]) c1). split.
  { apply iter_cls_ex; [done | by apply length_nonempty]. }
  eexists. split.
  { exists (MState (q + length num) [41%N] c1).
    split; [|done]. apply iter_cls_ex; [done | by apply length_nonempty]. }
  simpl. exists (MState (S (q + length num)) [] c2). split; [by exists 41%N|].
  exists (MState (S (q + length num)) [] c2). split.
  { exists 0. split; [lia | constructor]. }
  split; [by left | done].
Qed.

Lemma letter_number_unique E t p num p' num' :
  stripped t -> digits_not_space E ->
  trailing_letter_number E t p num -> trailing_letter_number E t p' num' ->
  num = num' /\ strip p = strip p'.
Proof.
  intros Hs HE (W & l & W2 & Ht & [Hp _] & HW & _ & HW2 & [_ Hn])
         (W' & l' & W2' & Ht' & [Hp' _] & HW' & _ & HW2' & [_ Hn']).
  destruct (spaces_last _ HW2) as (V & w & HV & Hw).
  destruct (spaces_last _ HW2') as (V' & w' & HV' & Hw').
  assert (((p ++ W ++ [l; 41%N] ++ V) ++ [w]) ++ num =
          ((p' ++ W' ++ [l'; 41%N] ++ V') ++ [w']) ++ num') as Heq.
  { assert (t = (((p ++ W ++ [l; 41%N] ++ V) ++ [w]) ++ num) ++ [41%N]) as H1
      by (rewrite Ht, HV; repeat (rewrite <- ?app_assoc; simpl); done).
    assert (t = (((p' ++ W' ++ [l'; 41%N] ++ V') ++ [w']) ++ num') ++ [41%N]) as H2
      by (rewrite Ht', HV'; repeat (rewrite <- ?app_assoc; simpl); done).
    rewrite H1 in H2. by apply app_inj_tail in H2 as [H2 _]. }
  apply (class_suffix_unique (is_digit E)) in Heq as [-> Heq];
    [|done|done|by apply digit_not_space_char|by apply digit_not_space_char].
  split; [done|].
  assert (((p ++ W ++ [l]) ++ [41%N]) ++ W2 = ((p' ++ W' ++ [l']) ++ [41%N]) ++ W2')
    as Heq2.
  { assert (((p ++ W ++ [l]) ++ [41%N]) ++ W2 =
            (p ++ W ++ [l; 41%N] ++ V) ++ [w]) as ->
      by (rewrite HV; repeat (rewrite <- ?app_assoc; simpl); done).
    assert (((p' ++ W' ++ [l']) ++ [41%N]) ++ W2' =
            (p' ++ W' ++ [l'; 41%N] ++ V') ++ [w']) as ->
      by (rewrite HV'; repeat (rewrite <- ?app_assoc; simpl); done).
    done. }
  apply (class_suffix_unique is_space) in Heq2 as [-> Heq2];
    [|by destruct HW2|by destruct HW2'|done|done].
  apply app_inj_tail in Heq2 as [Heq2 _].
  rewrite !app_assoc in Heq2. apply app_inj_tail in Heq2 as [Heq2 _].
  apply (strip_before_spaces t p W p' W' ([l; 41%N] ++ W2' ++ num' ++ [41%N]));
    try done.
  - by rewrite <- app_assoc.
  - by destruct HW.
  - by destruct HW'.
Qed.

Lemma drop_while_head p (l : str) c r : drop_while p l = c :: r -> p c = false.
Proof.
  induction l as [|x l IH]; simpl; [done|].
  destruct (p x) eqn:E; [done|]. by intros [= <- _].
Qed.

Lemma take_while_all p (l : str) : Forall (fun c => p c = true) (take_while p l).
Proof.
  induction l as [|x l IH]; simpl; [done|].
  destruct (p x) eqn:E; [by constructor | done].
Qed.

Lemma rstrip_prefix y : exists W, y = rstrip y ++ W.
Proof.
  exists (rev (take_while is_space (rev y))). unfold rstrip.
  by rewrite <- rev_app_distr, take_drop_while, rev_involutive.
Qed.

(** What [strip] returns has no whitespace at either end. *)
Lemma strip_stripped s : stripped (strip s).
Proof.
  unfold strip. split.
  - intros c s' Hc. destruct (rstrip_prefix (lstrip s)) as (W & HW).
    rewrite Hc in HW. simpl in HW. by apply drop_while_head in HW.
  - intros s' c Hc. unfold rstrip in Hc.
    apply (f_equal (@rev char)) in Hc.
    rewrite rev_involutive, rev_app_distr in Hc. simpl in Hc.
    by apply drop_while_head in Hc.
Qed.

Lemma stripped_no_leading_space t W x :
  stripped t -> t = W ++ x -> Forall (fun c => is_space c = true) W -> W = [].
Proof.
  intros [Hl _] -> HW. destruct W as [|w W]; [done|].
  inversion HW; subst. rewrite (Hl w (W ++ x)) in *; done.
Qed.

(** After whitespace inside a stripped text comes, sooner or later, a
    character that is not whitespace. *)
Lemma spaces_then_char t x W r :
  stripped t -> t = x ++ W ++ r -> spaces W ->
  exists Wm c r', W ++ r = Wm ++ c :: r' /\ spaces Wm /\ is_space c = false.
Proof.
  intros [_ Hr] Ht [HW HWs].
  pose proof (take_drop_while is_space (W ++ r)) as Hsplit.
  destruct (drop_while is_space (W ++ r)) as [|c r'] eqn:Ed.
  - exfalso. rewrite app_nil_r in Hsplit.
    assert (W ++ r <> []) as Hne by (by destruct W).
    destruct (exists_last Hne) as (y & c & Hy).
    pose proof (take_while_all is_space (W ++ r)) as Hall.
    rewrite Hsplit, Hy in Hall. apply Forall_app in Hall as [_ Hc].
    inversion Hc; subst. rewrite (Hr (x ++ y) c) in *; [done|].
    by rewrite <- app_assoc, <- Hy.
  - exists (take_while is_space (W ++ r)), c, r'. split; [done|]. split.
    + split; [|apply take_while_all].
      destruct W as [|w W]; [done|]. inversion HWs as [|? ? Hw _]; subst.
      simpl. by rewrite Hw.
    + by apply drop_while_head in Ed.
Qed.

Lemma not_space_dot c : is_space c = false -> dot c = true.
Proof. unfold dot. destruct (N.eqb_spec c NL) as [->|]; done. Qed.

(** The matches of the two patterns for an ordinal at the start. *)
Lemma numbered_match E t m :
  stripped t -> re_match (numbered_pattern E) t = Some m -> leading_ordinal E t.
Proof.
  intros Hs H. apply re_match_sem in H; [|done]. simpl in H.
  destruct H as (m0 & [_ ->] & m1 & (k0 & _ & Hit0)
                 & m2 & (m2' & (k1 & Hk1 & Hit1) & ->)
                 & m3 & (m3' & Halt & ->)
                 & m4 & (k2 & Hk2 & Hit2) & _).
  apply iter_cls_inv in Hit0 as (W0 & _ & HW0 & Hr0 & _).
  apply iter_cls_inv in Hit1 as (g1 & Hl1 & Hg1 & Hr1 & _).
  apply iter_cls_inv in Hit2 as (W & HlW & HW & HrW & _).
  simpl in *.
  assert (W0 = []) as -> by (by eapply stripped_no_leading_space).
  assert (exists sep, rest m2' = sep :: rest m3' /\ (sep = DOT \/ sep = 41%N))
    as (sep & Hrs & Hsep).
  { destruct Halt as [(c & Hr & Hc & _) | (c & Hr & Hc & _)];
      apply is_char_eq in Hc as ->; eauto. }
  exists g1, sep, W, (rest m4). simpl in Hr0.
  rewrite Hr0, Hr1, Hrs, HrW. repeat split; try done.
  - left. split; [|done]. intros ->. simpl in *. lia.
  - intros ->. simpl in *. lia.
Qed.

Lemma letter_numbered_match E t m :
  stripped t -> re_match letter_numbered_pattern t = Some m -> leading_ordinal E t.
Proof.
  intros Hs H. apply re_match_sem in H; [|done]. simpl in H.
  destruct H as (m0 & [_ ->] & m1 & (k0 & _ & Hit0)
                 & m2 & (m2' & (l & Hrl & Hl & _) & ->)
                 & m3 & (m3' & Halt & ->)
                 & m4 & (k2 & Hk2 & Hit2) & _).
  apply iter_cls_inv in Hit0 as (W0 & _ & HW0 & Hr0 & _).
  apply iter_cls_inv in Hit2 as (W & HlW & HW & HrW & _).
  simpl in *.
  assert (W0 = []) as -> by (by eapply stripped_no_leading_space).
  assert (exists sep, rest m2' = sep :: rest m3' /\ (sep = DOT \/ sep = 41%N))
    as (sep & Hrs & Hsep).
  { destruct Halt as [(c & Hr & Hc & _) | (c & Hr & Hc & _)];
      apply is_char_eq in Hc as ->; eauto. }
  exists [l], sep, W, (rest m4). simpl in Hr0.
  rewrite Hr0, Hrl, Hrs, HrW. repeat split; try done.
  - right. eauto.
  - intros ->. simpl in *. lia.
Qed.

Lemma leading_complete E t :
  stripped t -> leading_ordinal E t ->
  (exists m, re_match (numbered_pattern E) t = Some m)
  \/ (exists m, re_match letter_numbered_pattern t = Some m).
Proof.
  intros Hs (ord & sep & W & r & Ht & Hord & Hsep & HW).
  destruct (spaces_then_char t (ord ++ [sep]) W r Hs) as (Wm & c & r' & Hsplit & [HWm HWms] & Hc);
    [by rewrite <- app_assoc | done |].
  assert (t = ord ++ sep :: Wm ++ c :: r') as Ht'.
  { rewrite Ht. simpl. by rewrite Hsplit. }
  apply not_space_dot in Hc.
  assert (forall q cs, sem dot_or_paren (MState q (sep :: Wm ++ c :: r') cs)
                           (MState (S q) (Wm ++ c :: r') cs)) as Hsem_sep.
  { intros q cs. simpl. destruct Hsep as [-> | ->]; [left | right];
      eexists; (split; [reflexivity|]); done. }
  destruct Hord as [[Hn Hnd] | (l & -> & Hl)]; [left | right]; apply head_In.
  - eexists. apply run_sem; [done|]. simpl.
    exists (start 0 t). split; [done|].
    exists (start 0 t). split; [exists 0; split; [lia | constructor]|].
    eexists. split.
    { exists (MState (0 + length ord) (sep :: Wm ++ c :: r') []). split; [|done].
      rewrite Ht'. apply iter_cls_ex; [done | by apply length_nonempty]. }
    simpl. eexists. split.
    { eexists. split; [apply Hsem_sep | done]. }
    simpl.
    set (cs := (2, take (S (0 + length ord) - (0 + length ord))
                        (sep :: Wm ++ c :: r'))
                 :: [(1, take (0 + length ord - 0) t)]).
    exists (MState (S (0 + length ord) + length Wm) (c :: r') cs).
    split; [apply iter_cls_ex; [done | by apply length_nonempty]|].
    exists (MState (S (S (0 + length ord) + length Wm)) r' cs). split; [|done].
    exists 1. split; [lia|].
    refine (iter_S _ 0 _ _ _ _ (iter_O _ _)). by exists c.
  - eexists. apply run_sem; [done|]. simpl.
    exists (start 0 t). split; [done|].
    exists (start 0 t). split; [exists 0; split; [lia | constructor]|].
    eexists. split.
    { exists (MState 1 (sep :: Wm ++ c :: r') []). split; [|done].
      exists l. rewrite Ht'. done. }
    simpl. eexists. split.
    { eexists. split; [apply Hsem_sep | done]. }
    simpl.
    set (cs := (2, take (2 - 1) (sep :: Wm ++ c :: r')) :: [(1, take (1 - 0) t)]).
    exists (MState (2 + length Wm) (c :: r') cs).
    split; [apply iter_cls_ex; [done | by apply length_nonempty]|].
    exists (MState (S (2 + length Wm)) r' cs). split; [|done].
    exists 1. split; [lia|].
    refine (iter_S _ 0 _ _ _ _ (iter_O _ _)). by exists c.
Qed.

(** ** Lists: the line of an item *)

Lemma trailing_number_end E closer t p num :
  trailing_number E closer t p num -> exists x, t = x ++ [closer].
Proof. intros (W & -> & _). exists (p ++ W ++ num). by rewrite <- !app_assoc. Qed.

Lemma letter_number_end E t p num :
  trailing_letter_number E t p num -> exists x, t = x ++ [41%N].
Proof.
  intros (W & l & W2 & -> & _). exists (p ++ W ++ [l; 41%N] ++ W2 ++ num).
  repeat (rewrite <- ?app_assoc; simpl). done.
Qed.

Section ItemLine.
Variable E : externals.
Variable t : str.
Hypothesis t_stripped : stripped t.
Hypothesis E_digits : digits_not_space E.

Let no_letter_number := ~ exists p num, trailing_letter_number E t p num.
Let no_number_dot := ~ exists p num, trailing_number E DOT t p num.
Let no_number_paren := ~ exists p num, trailing_number E 41%N t p num.

Lemma no_letter_number_match :
  no_letter_number -> re_match (trailing_letter_number_pattern E) t = None.
Proof using t_stripped.
  intros Hno. destruct (re_match _ t) as [m|] eqn:Em; [|done].
  destruct Hno. apply letter_number_match in Em as (p & num & H & _); eauto.
Qed.

Lemma no_number_match closer :
  (~ exists p num, trailing_number E closer t p num) ->
  re_match (trailing_pattern E closer) t = None.
Proof using t_stripped.
  intros Hno. destruct (re_match _ t) as [m|] eqn:Em; [|done].
  destruct Hno. apply trailing_pattern_match in Em as (p & num & H & _); eauto.
Qed.

Lemma li_line_letter_number p num :
  trailing_letter_number E t p num -> li_line E t = num ++ txt ". " ++ strip p.
Proof using t_stripped E_digits.
  intros H. destruct (letter_number_complete _ _ _ _ H) as (m & Hm).
  unfold li_line. rewrite Hm.
  apply letter_number_match in Hm as (p' & num' & H' & ->); [|done].
  by destruct (letter_number_unique E t p num p' num') as [-> ->].
Qed.

Lemma li_line_number closer p num :
  no_letter_number ->
  re_match (trailing_pattern E closer) t =
    re_match (trailing_number_pattern E) t
  \/ (re_match (trailing_number_pattern E) t = None /\
      re_match (trailing_pattern E closer) t =
        re_match (trailing_number_paren_pattern E) t) ->
  trailing_number E closer t p num -> li_line E t = num ++ txt ". " ++ strip p.
Proof using t_stripped E_digits.
  intros Hno Hpat H. destruct (trailing_pattern_complete _ _ _ _ _ H) as (m & Hm).
  unfold li_line. rewrite no_letter_number_match by done.
  assert (number_first m = num ++ txt ". " ++ strip p) as Hout.
  { apply trailing_pattern_match in Hm as (p' & num' & H' & ->); [|done].
    by destruct (trailing_number_unique E closer t p num p' num') as [-> ->]. }
  destruct Hpat as [Heq | [Hnone Heq]].
  - by rewrite <- Heq, Hm.
  - by rewrite Hnone, <- Heq, Hm.
Qed.

Lemma li_line_number_dot p num :
  trailing_number E DOT t p num -> li_line E t = num ++ txt ". " ++ strip p.
Proof using t_stripped E_digits.
  intros H. apply (li_line_number DOT); [|by left|done].
  intros (p' & num' & H'). apply letter_number_end in H' as (x & Hx).
  apply trailing_number_end in H as (y & Hy). rewrite Hx in Hy.
  by apply app_inj_tail in Hy as [_ ?].
Qed.

Lemma li_line_number_paren p num :
  no_letter_number -> trailing_number E 41%N t p num ->
  li_line E t = num ++ txt ". " ++ strip p.
Proof using t_stripped E_digits.
  intros Hno H. apply (li_line_number 41%N); [done| |done].
  right. split; [|done]. apply (no_number_match DOT).
  intros (p' & num' & H'). apply trailing_number_end in H' as (x & Hx).
  apply trailing_number_end in H as (y & Hy). rewrite Hx in Hy.
  by apply app_inj_tail in Hy as [_ ?].
Qed.

Lemma li_line_no_trailing :
  no_letter_number -> no_number_dot -> no_number_paren ->
  li_line E t =
  match re_match (numbered_pattern E) t with
  | Some _ => t
  | None =>
      match re_match letter_numbered_pattern t with
      | Some _ => t
      | None => txt "- " ++ t
      end
  end.
Proof using t_stripped.
  intros Ha Hb Hc. unfold li_line.
  rewrite no_letter_number_match by done.
  change (trailing_number_pattern E) with (trailing_pattern E DOT).
  change (trailing_number_paren_pattern E) with (trailing_pattern E 41%N).
  by rewrite !no_number_match.
Qed.

Lemma li_line_leading :
  no_letter_number -> no_number_dot -> no_number_paren ->
  leading_ordinal E t -> li_line E t = t.
Proof using t_stripped.
  intros Ha Hb Hc H. rewrite li_line_no_trailing by done.
  destruct (leading_complete E t t_stripped H) as [(m & ->) | (m & Hm)]; [done|].
  rewrite Hm. by destruct (re_match (numbered_pattern E) t).
Qed.

Lemma li_line_bullet :
  no_letter_number -> no_number_dot -> no_number_paren ->
  ~ leading_ordinal E t -> li_line E t = txt "- " ++ t.
Proof using t_stripped.
  intros Ha Hb Hc H. rewrite li_line_no_trailing by done.
  destruct (re_match (numbered_pattern E) t) eqn:E1.
  { destruct H. by eapply numbered_match. }
  destruct (re_match letter_numbered_pattern t) eqn:E2; [|done].
  destruct H. by eapply letter_numbered_match.
Qed.

End ItemLine.

Lemma li_lines_head E li lis lines :
  li_lines E (li :: lis) = Ok lines ->
  head lines = Some (li_line E (strip (li_text li))).
Proof.
  simpl. destruct (nested_lines E _); simpl; [|done].
  destruct (li_lines E lis); simpl; [|done]. by intros [= <-].
Qed.

Lemma ascii_digits_not_space : digits_not_space ascii_externals.
Proof.
  intros c. unfold is_digit, digit_value. simpl.
  destruct (c <? 128)%N; [|done].
  destruct (between 48 57 c) eqn:Hb; [|done]. intros _.
  unfold between in Hb. apply andb_true_iff in Hb as [H1 H2].
  apply N.leb_le in H1, H2.
  assert (c = 48 \/ c = 49 \/ c = 50 \/ c = 51 \/ c = 52 \/ c = 53 \/ c = 54
          \/ c = 55 \/ c = 56 \/ c = 57)%N as Hc by lia.
  repeat (destruct Hc as [-> | Hc]; [reflexivity|]). by subst.
Qed.


(** ** Lists: nesting and dispatch *)

Lemma split_acc_line sep acc l :
  Forall (fun c => c <> sep) l -> split_acc sep acc l = [rev acc ++ l].
Proof.
  intros Hl. revert acc. induction Hl as [|c l Hc _ IH]; intros acc; simpl.
  - by rewrite app_nil_r.
  - destruct (N.eqb_spec c sep); [done|]. rewrite IH. simpl.
    by rewrite <- app_assoc.
Qed.

Lemma split_acc_app sep acc l s :
  Forall (fun c => c <> sep) l ->
  split_acc sep acc (l ++ sep :: s) = (rev acc ++ l) :: split_acc sep [] s.
Proof.
  intros Hl. revert acc. induction Hl as [|c l Hc _ IH]; intros acc; simpl.
  - rewrite N.eqb_refl. by rewrite app_nil_r.
  - destruct (N.eqb_spec c sep); [done|]. rewrite IH. simpl.
    by rewrite <- app_assoc.
Qed.

Lemma split_join sep l ls :
  Forall (Forall (fun c => c <> sep)) (l :: ls) ->
  split1 sep (join [sep] (l :: ls)) = l :: ls.
Proof.
  unfold split1. revert l. induction ls as [|l2 ls IH]; intros l Hall.
  - simpl. inversion Hall; subst. by rewrite split_acc_line.
  - inversion Hall as [|? ? Hl Hrest]; subst.
    change (join [sep] (l :: l2 :: ls)) with (l ++ [sep] ++ join [sep] (l2 :: ls)).
    simpl app. rewrite split_acc_app by done. simpl. f_equal. by apply IH.
Qed.

Lemma split_acc_no_sep sep acc s :
  Forall (fun c => c <> sep) acc ->
  Forall (Forall (fun c => c <> sep)) (split_acc sep acc s).
Proof.
  revert acc. induction s as [|c s IH]; intros acc Hacc; simpl.
  - constructor; [by apply Forall_rev | done].
  - destruct (N.eqb_spec c sep).
    + constructor; [by apply Forall_rev | by apply IH].
    + apply IH. by constructor.
Qed.

Lemma split_acc_nonempty sep acc s : split_acc sep acc s <> [].
Proof.
  revert acc. induction s as [|c s IH]; intros acc; simpl; [done|].
  destruct (c =? sep)%N; [done | apply IH].
Qed.

(** Every line of an indented nested list is blank or starts with two
    spaces. *)
Lemma indent_nested_lines md :
  Forall indented_or_blank (split1 NL (indent_nested md)).
Proof.
  unfold indent_nested.
  remember (split1 NL (strip md)) as ls eqn:Els.
  set (f := fun line : str =>
              match strip line with [] => line | _ :: _ => txt "  " ++ line end).
  assert (Forall (Forall (fun c => c <> NL)) (map f ls)) as Hno.
  { apply Forall_map. pose proof (split_acc_no_sep NL [] (strip md) ltac:(done)) as H.
    fold (split1 NL (strip md)) in H. rewrite <- Els in H.
    eapply Forall_impl; [exact H|]. intros line Hline. unfold f.
    destruct (strip line); [done|]. change (txt "  ") with [32%N; 32%N].
    simpl. constructor; [done|]. by constructor. }
  destruct (map f ls) as [|l0 ls0] eqn:Em.
  { destruct ls; [|done]. symmetry in Els.
    by apply split_acc_nonempty in Els. }
  rewrite split_join by done.
  cut (Forall indented_or_blank (map f ls)); [by rewrite Em|]. apply Forall_map.
  apply Forall_forall. intros line _. unfold f, indented_or_blank.
  destruct (strip line) eqn:Es; [by left | right; eauto].
Qed.

(** C6, the claim refuted: the class has no handler of its own for [ol],
    so an ordered list goes to the inherited handler whatever its items
    are; with a base class that returns the text of the children, the
    list whose only item reads "Introduction" keeps the numbered line the
    base class made for it, where the same items in a [ul] give
    "- Introduction". *)
Lemma C6_ol_not_handled_as_ul :
  convert_tag ascii_externals default_config "ul" ul_example
              (txt "1. Introduction" ++ [NL]) [] =
    Ok (txt "- Introduction" ++ [NL; NL])
  /\ convert_tag ascii_externals default_config "ol" ol_example
                 (txt "1. Introduction" ++ [NL]) [] =
       Ok (txt "1. Introduction" ++ [NL])
  /\ (forall E self el text parent_tags,
        convert_tag E self "ol" el text parent_tags =
        inherited E "ol" el text parent_tags).
Proof. repeat split. Qed.


(** ** Lists: the whole list *)

Lemma li_lines_blocks E items nesteds :
  nested_blocks E items nesteds ->
  li_lines E items = Ok (item_lines E items nesteds).
Proof.
  unfold nested_blocks, item_lines.
  induction 1 as [|item nested items nesteds Hn _ IH]; [done|].
  cbn [li_lines]. by rewrite Hn, IH.
Qed.

Lemma li_lines_inv E items : forall lines,
  li_lines E items = Ok lines ->
  exists nesteds, nested_blocks E items nesteds /\ lines = item_lines E items nesteds.
Proof.
  induction items as [|item items IH]; intros lines.
  - intros [= <-]. exists []. split; [constructor | done].
  - cbn [li_lines]. unfold mbind, result_bind.
    destruct (nested_lines E (find_children ["ul"; "ol"] item)) as [nested|e] eqn:Hn;
      [|done].
    destruct (li_lines E items) as [lines'|e]; [|done].
    intros [= <-]. destruct (IH _ eq_refl) as (nesteds & Hns & ->).
    exists (nested :: nesteds). split; [by constructor | done].
Qed.

Lemma li_lines_spec E items lines :
  li_lines E items = Ok lines <->
  exists nesteds, nested_blocks E items nesteds /\ lines = item_lines E items nesteds.
Proof.
  split; [apply li_lines_inv|]. intros (nesteds & Hns & ->). by apply li_lines_blocks.
Qed.

Lemma convert_ul_spec E el text parent_tags out :
  find_children ["li"] el <> [] ->
  convert_ul E el text parent_tags = Ok out <->
  exists nesteds,
    nested_blocks E (find_children ["li"] el) nesteds /\
    out = join [NL] (item_lines E (find_children ["li"] el) nesteds) ++ [NL; NL].
Proof.
  intros Hne. unfold convert_ul.
  destruct (find_children ["li"] el) as [|item items] eqn:Hitems; [done|].
  unfold mbind, result_bind. split.
  - destruct (li_lines E (item :: items)) as [lines|e] eqn:Hl; [|done].
    intros [= <-]. apply li_lines_inv in Hl as (nesteds & Hns & ->). eauto.
  - intros (nesteds & Hns & ->). by rewrite (li_lines_blocks _ _ _ Hns).
Qed.

Lemma nested_lines_blocks E nested mds :
  Forall2 (fun n md => convert_html E (html_str E n) = Ok md) nested mds ->
  nested_lines E nested = Ok (map indent_nested (List.filter nonempty mds)).
Proof.
  induction 1 as [|n md nested mds Hmd _ IH]; [done|].
  cbn [nested_lines]. rewrite Hmd, IH. by destruct md.
Qed.

Lemma nested_lines_inv E nested : forall blocks,
  nested_lines E nested = Ok blocks ->
  exists mds,
    Forall2 (fun n md => convert_html E (html_str E n) = Ok md) nested mds /\
    blocks = map indent_nested (List.filter nonempty mds).
Proof.
  induction nested as [|n nested IH]; intros blocks.
  - intros [= <-]. exists []. split; [constructor | done].
  - cbn [nested_lines]. unfold mbind, result_bind.
    destruct (convert_html E (html_str E n)) as [md|e] eqn:Hmd; [|done].
    destruct (nested_lines E nested) as [lines|e]; [|done].
    intros [= <-]. destruct (IH _ eq_refl) as (mds & Hmds & ->).
    exists (md :: mds). split; [by constructor|]. by destruct md.
Qed.

Lemma nested_lines_spec E nested blocks :
  nested_lines E nested = Ok blocks <->
  exists mds,
    Forall2 (fun n md => convert_html E (html_str E n) = Ok md) nested mds /\
    blocks = map indent_nested (List.filter nonempty mds).
Proof.
  split; [apply nested_lines_inv|]. intros (mds & Hmds & ->).
  by apply nested_lines_blocks.
Qed.

Lemma join_split_acc sep s : forall acc,
  join [sep] (split_acc sep acc s) = rev acc ++ s.
Proof.
  induction s as [|c s IH]; intros acc; simpl.
  - by rewrite app_nil_r.
  - destruct (N.eqb_spec c sep) as [->|Hne].
    + specialize (IH []). simpl in IH.
      destruct (split_acc sep [] s) as [|l ls] eqn:Es.
      { by apply split_acc_nonempty in Es. }
      change (join [sep] (rev acc :: l :: ls))
        with (rev acc ++ [sep] ++ join [sep] (l :: ls)).
      by rewrite IH.
    + rewrite IH. simpl. by rewrite <- app_assoc.
Qed.

(** The indented block: the lines of the stripped conversion, each line
    that is not blank with two spaces in front. *)
Lemma indent_nested_spec md ls :
  ls <> [] -> Forall (Forall (fun c => c <> NL)) ls ->
  strip md = join [NL] ls ->
  indent_nested md = join [NL] (map indent_line ls).
Proof.
  intros Hne Hls Hmd. unfold indent_nested. rewrite Hmd.
  destruct ls as [|l ls]; [done|]. by rewrite split_join.
Qed.

Lemma indent_nested_lines_exist md :
  exists ls, ls <> [] /\ Forall (Forall (fun c => c <> NL)) ls /\
             strip md = join [NL] ls /\
             indent_nested md = join [NL] (map indent_line ls).
Proof.
  exists (split1 NL (strip md)).
  assert (split1 NL (strip md) <> []) as Hne by apply split_acc_nonempty.
  assert (Forall (Forall (fun c => c <> NL)) (split1 NL (strip md))) as Hls.
  { by apply split_acc_no_sep. }
  assert (strip md = join [NL] (split1 NL (strip md))) as Hmd.
  { unfold split1. by rewrite join_split_acc. }
  split; [done|]. split; [done|]. split; [done|]. done.
Qed.

(** C5, the claim refuted: the item "a", newline, "b 1." ends with
    "<text> <number>." for the text "a", newline, "b", and yet it gets
    the bullet: the patterns of the code stop the text before the ordinal
    at a newline. *)
Lemma C5_multiline_item :
  multiline_item = (txt "a" ++ [NL] ++ txt "b") ++ txt " " ++ txt "1" ++ [DOT]
  /\ strip multiline_item = multiline_item
  /\ (forall E, li_line E multiline_item = txt "- " ++ multiline_item)
  /\ (forall E, li_line E multiline_item <> txt "1. " ++ txt "a" ++ [NL] ++ txt "b")
  /\ (forall E text parent_tags,
        convert_ul E multiline_example text parent_tags =
        Ok (txt "- a" ++ [NL] ++ txt "b 1." ++ [NL; NL])).
Proof. repeat split. intros E. discriminate. Qed.

(** C5, as amended. A [ul] node with direct [li] children gives, for
    each item in turn, the line of the item and then the blocks of its
    nested lists, joined by newlines and followed by an empty line. The
    line of an item whose stripped text is [t]: a trailing
    "<text> <letter>) <number>)", else a trailing "<text> <number>.",
    else a trailing "<text> <number>)" gives "<number>. <text>"; else a
    text that starts with a number or a lowercase letter followed by "."
    or ")" and whitespace is kept as it is; any other text gets the
    bullet "- ". Here <text> is not empty and has no newline, and
    <number> is one or more digits. *)
Theorem C5_list_item_line (E : externals) (el : node) (text : str)
    (parent_tags : list string) :
  digits_not_space E ->
  (find_children ["li"] el <> [] ->
   forall out,
     convert_ul E el text parent_tags = Ok out <->
     exists nesteds,
       nested_blocks E (find_children ["li"] el) nesteds /\
       out = join [NL] (item_lines E (find_children ["li"] el) nesteds) ++ [NL; NL])
  /\ (forall item,
        let t := strip (li_text item) in
        let no_letter_number := ~ exists p num, trailing_letter_number E t p num in
        let no_number_dot := ~ exists p num, trailing_number E DOT t p num in
        let no_number_paren := ~ exists p num, trailing_number E 41%N t p num in
        (forall p num, trailing_letter_number E t p num ->
                       li_line E t = num ++ txt ". " ++ strip p)
        /\ (forall p num, trailing_number E DOT t p num ->
                          li_line E t = num ++ txt ". " ++ strip p)
        /\ (forall p num, no_letter_number -> trailing_number E 41%N t p num ->
                          li_line E t = num ++ txt ". " ++ strip p)
        /\ (no_letter_number -> no_number_dot -> no_number_paren ->
            leading_ordinal E t -> li_line E t = t)
        /\ (no_letter_number -> no_number_dot -> no_number_paren ->
            ~ leading_ordinal E t -> li_line E t = txt "- " ++ t))
  /\ li_line E (txt "Some entry a) 3)") = txt "3. Some entry"
  /\ li_line E (txt "1. Introduction") = txt "1. Introduction"
  /\ li_line E (txt "Introduction") = txt "- Introduction"
  /\ convert_ul E ordinals_example text parent_tags =
     Ok (txt "3. Some entry" ++ [NL] ++ txt "1. Introduction" ++ [NL]
         ++ txt "- Introduction" ++ [NL; NL]).
Proof.
  intros HE. split; [|split].
  - intros Hne out. by apply convert_ul_spec.
  - intros item t. pose proof (strip_stripped (li_text item)) as Hs. fold t in Hs.
    repeat apply conj.
    + intros p num. by apply li_line_letter_number.
    + intros p num. by apply li_line_number_dot.
    + intros p num. by apply li_line_number_paren.
    + by apply li_line_leading.
    + by apply li_line_bullet.
  - repeat split.
Qed.

Lemma C5_list_item_line_witness :
  digits_not_space ascii_externals
  /\ li_line ascii_externals (strip (li_text numbered_item)) = txt "12. text".
Proof.
  split; [exact ascii_digits_not_space|].
  pose proof (C5_list_item_line ascii_externals (ul [numbered_item]) [] []
                                ascii_digits_not_space)
    as (_ & H & _).
  destruct (H numbered_item) as (_ & Hdot & _).
  apply (Hdot (txt "text") (txt "12")).
  exists (txt " "). split; [reflexivity|].
  repeat split; try done; repeat constructor.
Defined.

(** C6, as amended. The ordinal detection and re-numbering is the
    handler of [ul] nodes only; an [ol] node is rendered by the inherited
    handler. A [ul] node with direct [li] children gives, for each item
    in turn, the line of the item and then the blocks of its nested
    lists, joined by newlines and followed by an empty line. Each [ul] or
    [ol] nested directly in the item is converted on its own, and a
    conversion that is not empty gives one block: the lines of the
    stripped conversion, each line that is not blank with two spaces in
    front. An item whose text ends with an ordinal gives
    "<number>. <text>", one that starts with an ordinal is kept as it
    is, and any other item gets the bullet "- ". *)
Theorem C6_list_handlers (E : externals) (self : Markdownify) (el : node)
    (text : str) (parent_tags : list string) :
  convert_tag E self "ol" el text parent_tags = inherited E "ol" el text parent_tags
  /\ convert_tag E self "ul" el text parent_tags = convert_ul E el text parent_tags
  /\ (find_children ["li"] el = [] ->
      convert_ul E el text parent_tags = inherited E "ul" el text parent_tags)
  /\ (forall lines,
        find_children ["li"] el <> [] ->
        li_lines E (find_children ["li"] el) = Ok lines ->
        convert_ul E el text parent_tags = Ok (join [NL] lines ++ [NL; NL]))
  /\ (forall li lis nested lines,
        nested_lines E (find_children ["ul"; "ol"] li) = Ok nested ->
        li_lines E lis = Ok lines ->
        li_lines E (li :: lis) =
        Ok (li_line E (strip (li_text li)) :: nested ++ lines))
  /\ (forall nested_list nested_markdown,
        convert_html E (html_str E nested_list) = Ok nested_markdown ->
        nested_markdown <> [] ->
        nested_lines E [nested_list] = Ok [indent_nested nested_markdown])
  /\ (forall nested_markdown,
        Forall indented_or_blank (split1 NL (indent_nested nested_markdown)))
  /\ (forall li,
        let t := strip (li_text li) in
        (~ exists p num, trailing_letter_number E t p num) ->
        (~ exists p num, trailing_number E DOT t p num) ->
        (~ exists p num, trailing_number E 41%N t p num) ->
        ~ leading_ordinal E t -> li_line E t = txt "- " ++ t)
  /\ (find_children ["li"] el <> [] ->
      forall out,
        convert_ul E el text parent_tags = Ok out <->
        exists nesteds,
          nested_blocks E (find_children ["li"] el) nesteds /\
          out = join [NL] (item_lines E (find_children ["li"] el) nesteds)
                ++ [NL; NL])
  /\ (forall nested blocks,
        nested_lines E nested = Ok blocks <->
        exists mds,
          Forall2 (fun n md => convert_html E (html_str E n) = Ok md) nested mds /\
          blocks = map indent_nested (List.filter nonempty mds))
  /\ (forall nested_markdown,
        exists ls, ls <> [] /\ Forall (Forall (fun c => c <> NL)) ls /\
                   strip nested_markdown = join [NL] ls /\
                   indent_nested nested_markdown = join [NL] (map indent_line ls))
  /\ (forall nested_markdown ls,
        ls <> [] -> Forall (Forall (fun c => c <> NL)) ls ->
        strip nested_markdown = join [NL] ls ->
        indent_nested nested_markdown = join [NL] (map indent_line ls))
  /\ indent_nested (txt "- a" ++ [NL] ++ txt "  - b" ++ [NL] ++ [NL] ++ txt "- c"
                    ++ [NL; NL])
     = txt "  - a" ++ [NL] ++ txt "    - b" ++ [NL] ++ [NL] ++ txt "  - c"
  /\ (digits_not_space E ->
      forall li,
        let t := strip (li_text li) in
        let no_letter_number := ~ exists p num, trailing_letter_number E t p num in
        let no_number_dot := ~ exists p num, trailing_number E DOT t p num in
        let no_number_paren := ~ exists p num, trailing_number E 41%N t p num in
        (forall p num, trailing_letter_number E t p num ->
                       li_line E t = num ++ txt ". " ++ strip p)
        /\ (forall p num, trailing_number E DOT t p num ->
                          li_line E t = num ++ txt ". " ++ strip p)
        /\ (forall p num, no_letter_number -> trailing_number E 41%N t p num ->
                          li_line E t = num ++ txt ". " ++ strip p)
        /\ (no_letter_number -> no_number_dot -> no_number_paren ->
            leading_ordinal E t -> li_line E t = t)).
Proof.
  repeat apply conj.
  - done.
  - done.
  - intros H. unfold convert_ul. by rewrite H.
  - intros lines Hne Hl. unfold convert_ul.
    destruct (find_children ["li"] el); [done|]. by rewrite Hl.
  - intros li lis nested lines Hn Hl. simpl. by rewrite Hn, Hl.
  - intros n md Hmd Hne. simpl. rewrite Hmd. simpl. by destruct md.
  - apply indent_nested_lines.
  - intros li t. apply li_line_bullet. apply strip_stripped.
  - intros Hne out. by apply convert_ul_spec.
  - intros nested blocks. apply nested_lines_spec.
  - apply indent_nested_lines_exist.
  - apply indent_nested_spec.
  - reflexivity.
  - intros HE li t. pose proof (strip_stripped (li_text li)) as Hs. fold t in Hs.
    repeat apply conj.
    + intros p num. by apply li_line_letter_number.
    + intros p num. by apply li_line_number_dot.
    + intros p num. by apply li_line_number_paren.
    + by apply li_line_leading.
Qed.

(** ** Tables: the grid *)

Lemma py_index_nonneg n c :
  (0 <= c)%Z ->
  py_index n c = if (c <? Z.of_nat n)%Z then Some (Z.to_nat c) else None.
Proof.
  intros Hc. unfold py_index.
  destruct (Z.ltb_spec c 0); [lia|].
  destruct (Z.leb_spec 0 c); [|lia]. simpl. done.
Qed.

Lemma cell_at_insert (g : grid) r (row : list (option str)) j v r' j' :
  g !! r = Some row -> j < length row ->
  cell_at (<[r := <[j := v]> row]> g) r' j' =
  if decide (r' = r /\ j' = j) then Some v else cell_at g r' j'.
Proof.
  intros Hr Hj. unfold cell_at, grid in *.
  assert (r < length g) by (by eapply lookup_lt_Some).
  destruct (decide (r' = r)) as [->|Hne].
  - rewrite list_lookup_insert_eq by done. rewrite Hr.
    destruct (decide (j' = j)) as [->|Hnj].
    + rewrite list_lookup_insert_eq by done. by rewrite decide_True.
    + rewrite list_lookup_insert_ne by done. rewrite decide_False; [done | tauto].
  - rewrite list_lookup_insert_ne by done. rewrite decide_False; [done | tauto].
Qed.

Lemma grid_set_at g r c v r' j' :
  (0 <= c)%Z ->
  cell_at (default g (grid_set g r c v)) r' j' =
  match cell_at g r' j' with
  | None => None
  | Some old => if decide (r' = r /\ j' = Z.to_nat c) then Some v else Some old
  end.
Proof.
  intros Hc. unfold grid_set, grid in *.
  destruct (g !! r) as [row|] eqn:Er; simpl.
  - rewrite py_index_nonneg by done.
    destruct (Z.ltb_spec c (Z.of_nat (length row))); simpl.
    + rewrite (cell_at_insert g r row) by (done || lia).
      destruct (decide (r' = r /\ j' = Z.to_nat c)) as [[-> ->]|Hne].
      * unfold cell_at, grid in *. rewrite Er.
        destruct (lookup_lt_is_Some_2 row (Z.to_nat c)) as [x ->]; [lia | done].
      * by destruct (cell_at g r' j').
    + destruct (cell_at g r' j') eqn:Ec; [|done].
      rewrite decide_False; [done|]. intros [-> ->].
      unfold cell_at, grid in *. rewrite Er in Ec.
      apply lookup_lt_Some in Ec. lia.
  - destruct (cell_at g r' j') eqn:Ec; [|done].
    rewrite decide_False; [done|]. intros [-> ->].
    unfold cell_at, grid in *. by rewrite Er in Ec.
Qed.

Lemma grid_set_shape R C g r c v :
  shape R C g -> shape R C (default g (grid_set g r c v)).
Proof.
  intros [HR HC]. unfold grid_set, grid in *.
  destruct (g !! r) as [row|] eqn:Er; simpl; [|done].
  destruct (py_index (length row) c) as [j|]; simpl; [|done].
  split; [by rewrite length_insert|].
  apply Forall_insert; [done|]. rewrite length_insert.
  eapply Forall_lookup_1 in HC; [|done]. done.
Qed.

Lemma fill_position_eq value row_idx col_idx g r c :
  fill_position value row_idx col_idx g r c =
  default g (grid_set g (row_idx + r) (col_idx + Z.of_nat c)%Z
                      (Some (if decide (r = 0 /\ c = 0) then value else []))).
Proof.
  unfold fill_position.
  destruct r as [|r], c as [|c]; simpl; rewrite ?Nat.add_0_r, ?Z.add_0_r;
    by destruct (grid_set _ _ _ _).
Qed.

Lemma fill_position_shape R C value i col g r c :
  shape R C g -> shape R C (fill_position value i col g r c).
Proof. rewrite fill_position_eq. apply grid_set_shape. Qed.

Lemma fill_position_at value i col g r c r' j' :
  (0 <= col)%Z ->
  cell_at (fill_position value i col g r c) r' j' =
  match cell_at g r' j' with
  | None => None
  | Some old =>
      if decide (r' = i + r /\ j' = Z.to_nat col + c)
      then Some (Some (if decide (r = 0 /\ c = 0) then value else []))
      else Some old
  end.
Proof.
  intros Hc. rewrite fill_position_eq, grid_set_at by lia.
  destruct (cell_at g r' j'); [|done].
  replace (Z.to_nat (col + Z.of_nat c)) with (Z.to_nat col + c) by lia. done.
Qed.

(** The inner loop: columns [0 .. n-1] of the extent, in row [r] of it. *)
Lemma fill_columns_at value i col r n g r' j' :
  (0 <= col)%Z ->
  cell_at (foldl (fun g c => fill_position value i col g r c) g (seq 0 n)) r' j' =
  match cell_at g r' j' with
  | None => None
  | Some old =>
      if decide (r' = i + r /\ Z.to_nat col <= j' < Z.to_nat col + n)
      then Some (Some (if decide (r = 0 /\ j' = Z.to_nat col) then value else []))
      else Some old
  end.
Proof.
  intros Hc. induction n as [|n IH].
  - simpl. destruct (cell_at g r' j'); [|done]. rewrite decide_False; [done | lia].
  - rewrite seq_S, foldl_app. simpl. rewrite fill_position_at by done.
    rewrite IH. destruct (cell_at g r' j') as [old|]; [|done].
    repeat (case_decide || simpl); try done; exfalso; lia.
Qed.

Lemma fill_columns_shape R C value i col r n g :
  shape R C g ->
  shape R C (foldl (fun g c => fill_position value i col g r c) g (seq 0 n)).
Proof.
  intros Hs. induction n as [|n IH]; [done|].
  rewrite seq_S, foldl_app. simpl. by apply fill_position_shape.
Qed.

(** The two loops: what a cell's fills leave at each position. A position
    that exists and lies in the extent gets the cell's text if it is the
    anchor and the empty string otherwise; nothing else changes. *)
Lemma fill_extent_at value i col rowspan colspan g r' j' :
  (0 <= col)%Z ->
  cell_at (fill_extent value i col rowspan colspan g) r' j' =
  match cell_at g r' j' with
  | None => None
  | Some old =>
      if decide ((i <= r' < i + Z.to_nat rowspan) /\
                 Z.to_nat col <= j' < Z.to_nat col + Z.to_nat colspan)
      then Some (Some (if decide (r' = i /\ j' = Z.to_nat col) then value else []))
      else Some old
  end.
Proof.
  intros Hc. unfold fill_extent.
  generalize (Z.to_nat rowspan) as m. generalize (Z.to_nat colspan) as n.
  intros n m. induction m as [|m IH].
  - simpl. destruct (cell_at g r' j'); [|done]. rewrite decide_False; [done | lia].
  - rewrite seq_S, foldl_app. simpl. rewrite fill_columns_at by done.
    rewrite IH. destruct (cell_at g r' j') as [old|]; [|done].
    repeat (case_decide || simpl); try done; exfalso; lia.
Qed.

Lemma fill_extent_shape R C value i col rowspan colspan g :
  shape R C g -> shape R C (fill_extent value i col rowspan colspan g).
Proof.
  intros Hs. unfold fill_extent.
  induction (Z.to_nat rowspan) as [|m IH]; [done|].
  rewrite seq_S, foldl_app. simpl. by apply fill_columns_shape.
Qed.

Lemma shape_cell_at R C g r j :
  shape R C g -> r < R -> j < C -> exists x, cell_at g r j = Some x.
Proof.
  intros [HR HC] Hr Hj. unfold cell_at, grid in *.
  destruct (lookup_lt_is_Some_2 g r) as [row Hrow]; [lia|]. rewrite Hrow.
  eapply Forall_lookup_1 in HC; [|done].
  apply lookup_lt_is_Some_2. lia.
Qed.

Lemma cell_at_Some_bounds R C g r j x :
  shape R C g -> cell_at g r j = Some x -> r < R /\ j < C.
Proof.
  intros [HR HC]. unfold cell_at, grid in *. destruct (g !! r) as [row|] eqn:Er; [|done].
  intros Hj. apply lookup_lt_Some in Hj. pose proof (lookup_lt_Some _ _ _ Er).
  eapply Forall_lookup_1 in HC; [|done]. lia.
Qed.

(** The [while] loop stops at the first position from the cursor on that
    is not filled, or at the end of the row. *)
Lemma skip_filled_spec fuel row total_cols col :
  (0 <= col)%Z -> length row = Z.to_nat total_cols ->
  Z.to_nat (total_cols - col) <= fuel ->
  exists c', skip_filled fuel row total_cols col = Ok c' /\
    (col <= c')%Z /\
    (forall j, (col <= j < c')%Z -> exists s, row !! Z.to_nat j = Some (Some s)) /\
    ((c' < total_cols)%Z -> row !! Z.to_nat c' = Some None).
Proof.
  intros Hc Hlen. revert col Hc. induction fuel as [|f IH]; intros col Hc Hf.
  - assert (total_cols <= col)%Z by lia.
    exists col. simpl. destruct (Z.ltb_spec col total_cols); [lia|].
    repeat split; [lia | intros; lia | intros; lia].
  - simpl. destruct (Z.ltb_spec col total_cols).
    + rewrite py_index_nonneg by done.
      destruct (Z.ltb_spec col (Z.of_nat (length row))); [|lia].
      destruct (lookup_lt_is_Some_2 row (Z.to_nat col)) as [x Hx]; [lia|].
      rewrite Hx. destruct x as [s|].
      * destruct (IH (col + 1)%Z) as (c' & -> & Hle & Hfilled & Hfree); [lia|lia|].
        exists c'. repeat split; [lia| |done].
        intros j Hj. destruct (decide (j = col)) as [->|]; [eauto|].
        apply Hfilled. lia.
      * exists col. repeat split; [lia | intros; lia | done].
    + exists col. repeat split; [lia | intros; lia | intros; lia].
Qed.

(** ** Tables: the second pass *)

Lemma place_cell_inv E tc i g cur log cell st' :
  place_cell E tc i (g, cur, log) cell = Ok st' ->
  exists row c rs cs,
    g !! i = Some row /\
    skip_filled (Z.to_nat (tc - cur)) row tc cur = Ok c /\
    cell_span E cell "rowspan" = Ok rs /\
    cell_span E cell "colspan" = Ok cs /\
    st' = (if (tc <=? c)%Z then g
           else fill_extent (cell_value E cell) i c rs cs g,
           if (tc <=? c)%Z then c else (c + cs)%Z,
           log ++ [Build_placement i c (cell_value E cell) rs cs g]).
Proof.
  unfold place_cell, mbind, result_bind.
  destruct (g !! i) as [row|] eqn:E1; [|done].
  destruct (skip_filled _ row tc cur) as [c|] eqn:E2; [|done].
  destruct (cell_span E cell "rowspan") as [rs|] eqn:E3; [|done].
  destruct (cell_span E cell "colspan") as [cs|] eqn:E4; [|done].
  intros H. exists row, c, rs, cs. split; [done|]. split; [done|].
  split; [done|]. split; [done|].
  destruct (tc <=? c)%Z; by injection H.
Qed.

Lemma place_cell_total E R tc i g cur log cell rs cs :
  i < R -> inv_base R tc i (g, cur, log) ->
  cell_span E cell "rowspan" = Ok rs -> cell_span E cell "colspan" = Ok cs ->
  exists st', place_cell E tc i (g, cur, log) cell = Ok st'.
Proof.
  intros Hi ([HR HC] & Hcur & _) Hrs Hcs.
  unfold place_cell, mbind, result_bind. unfold grid in *.
  destruct (lookup_lt_is_Some_2 g i) as [row Hrow]; [lia|]. rewrite Hrow.
  eapply Forall_lookup_1 in HC; [|done].
  destruct (skip_filled_spec (Z.to_nat (tc - cur)) row tc cur) as (c & -> & _);
    [done | done | lia |].
  rewrite Hrs, Hcs. destruct (tc <=? c)%Z; eauto.
Qed.

Section SecondPass.
Variable E : externals.
Variable R : nat.
Variable tc : Z.

Lemma place_cell_base i g cur log cell g' cur' log' :
  i < R -> inv_base R tc i (g, cur, log) ->
  place_cell E tc i (g, cur, log) cell = Ok (g', cur', log') ->
  (forall e, last log' = Some e -> (0 <= p_colspan e)%Z) ->
  inv_base R tc i (g', cur', log').
Proof.
  intros Hi (Hshape & Hcur & Hanch) Hplace Hcs0.
  apply place_cell_inv in Hplace as (row & c & rs & cs & Hrow & Hskip & Hrs & Hcs & Hst).
  injection Hst as -> -> ->.
  assert (0 <= cs)%Z as Hcs_nonneg.
  { apply (Hcs0 (Build_placement i c (cell_value E cell) rs cs g)).
    by rewrite last_snoc. }
  assert (length row = Z.to_nat tc) as Hlen.
  { destruct Hshape as [_ HC]. unfold grid in *. by eapply Forall_lookup_1 in HC. }
  destruct (skip_filled_spec (Z.to_nat (tc - cur)) row tc cur)
    as (c0 & Hskip' & Hle & Hfilled & Hfree); [done | done | lia |].
  rewrite Hskip in Hskip'. injection Hskip' as <-.
  destruct (Z.leb_spec tc c) as [Hout|Hin].
  - split; [done|]. split; [lia|].
    intros e He Hw. apply in_app_iff in He as [He | [<- | []]].
    + destruct (Hanch e He Hw) as (H0 & Hat & Hpos).
      split; [done|]. split; [done|]. lia.
    + destruct Hw as [Hw _]. simpl in Hw. lia.
  - split; [by apply fill_extent_shape|]. split; [lia|].
    intros e He Hw. apply in_app_iff in He as [He | [<- | []]].
    + destruct (Hanch e He Hw) as (H0 & Hat & Hpos).
      split; [done|]. split; [|lia].
      rewrite fill_extent_at, Hat by lia.
      rewrite decide_False; [done | lia].
    + destruct Hw as (_ & Hrs1 & Hcs1). simpl in *.
      split; [lia|]. split; [|lia].
      rewrite fill_extent_at by lia.
      unfold cell_at, grid in *. rewrite Hrow, Hfree by done.
      rewrite decide_True by lia. by rewrite decide_True.
Qed.

Lemma fits_written e : fits R tc e -> written tc e.
Proof. intros (H1 & H2 & H3 & _). unfold written. lia. Qed.

Lemma place_cell_fit i g cur log cell g' cur' log' :
  i < R -> inv_base R tc i (g, cur, log) -> inv_fit R tc i (g, cur, log) ->
  place_cell E tc i (g, cur, log) cell = Ok (g', cur', log') ->
  Forall (fits R tc) log' ->
  inv_fit R tc i (g', cur', log').
Proof.
  intros Hi (Hshape & Hcur & Hanch) (_ & Hext & Hleft & Hfirst & Hpair) Hplace Hfits.
  apply place_cell_inv in Hplace as (row & c & rs & cs & Hrow & Hskip & Hrs & Hcs & Hst).
  injection Hst as -> -> ->.
  set (e_new := Build_placement i c (cell_value E cell) rs cs g) in *.
  assert (fits R tc e_new) as (Hrs1 & Hcs1 & Hcol & Hrowb).
  { apply Forall_app in Hfits as [_ Hf]. by inversion Hf. }
  simpl in Hrs1, Hcs1, Hcol, Hrowb.
  assert (length row = Z.to_nat tc) as Hlen.
  { destruct Hshape as [_ HC]. unfold grid in *. by eapply Forall_lookup_1 in HC. }
  destruct (skip_filled_spec (Z.to_nat (tc - cur)) row tc cur)
    as (c0 & Hskip' & Hle & Hfilled & Hfree); [done | done | lia |].
  rewrite Hskip in Hskip'. injection Hskip' as <-.
  specialize (Hfree ltac:(lia)).
  assert (cell_at g i (Z.to_nat c) = Some None) as Hfree'.
  { unfold cell_at, grid in *. by rewrite Hrow. }
  assert (forall j, (Z.of_nat j < c)%Z -> filled g i j) as Hbefore.
  { intros j Hj. destruct (Z.lt_ge_cases (Z.of_nat j) cur) as [Hlt|Hge].
    - by apply Hleft.
    - destruct (Hfilled (Z.of_nat j)) as (s & Hs); [lia|].
      exists s. unfold cell_at, grid in *. rewrite Hrow.
      by rewrite Nat2Z.id in Hs. }
  destruct (Z.leb_spec tc c) as [Hout|Hin]; [lia|].
  split; [done|]. split; [|split; [|split]].
  - intros e r j He Hin_ext Hna. rewrite fill_extent_at by lia.
    apply in_app_iff in He as [He | [<- | []]].
    + rewrite (Hext e r j He Hin_ext Hna).
      case_decide; [|done]. rewrite decide_False; [done|].
      intros [-> ->].
      pose proof (Hext e i (Z.to_nat c) He Hin_ext Hna) as Hx. congruence.
    + destruct Hin_ext as [Hr Hj]. simpl in Hr, Hj.
      destruct (shape_cell_at R (Z.to_nat tc) g r j Hshape) as [x ->]; [lia | lia |].
      rewrite decide_True by lia. rewrite decide_False; [done|].
      intros [-> ->]. apply Hna. split; simpl; lia.
  - intros j Hj. unfold filled. rewrite fill_extent_at by lia.
    destruct (shape_cell_at R (Z.to_nat tc) g i j Hshape) as [x Hx]; [lia | lia |].
    rewrite Hx. case_decide; [eauto|].
    destruct (Hbefore j) as (s & Hs); [lia|]. rewrite Hs in Hx.
    injection Hx as <-. eauto.
  - intros e He. apply in_app_iff in He as [He | [<- | []]]; [by apply Hfirst|].
    simpl. split; [lia|]. done.
  - intros k1 k2 e1 e2 Hk H1 H2.
    destruct (decide (k2 < length log)) as [Hlt|Hge].
    + rewrite lookup_app_l in H1, H2 by lia. by apply (Hpair k1 k2 e1 e2).
    + pose proof (lookup_lt_Some _ _ _ H2) as Hk2. rewrite length_app in Hk2.
      simpl in Hk2. assert (k2 = length log) as -> by lia.
      rewrite lookup_app_l in H1 by lia.
      rewrite list_lookup_middle in H2 by done. injection H2 as <-.
      simpl. intros Hin_ext.
      assert (In e1 log) as He1 by (by eapply list_elem_of_In, list_elem_of_lookup_2).
      destruct (decide (i = p_row e1 /\ Z.of_nat (Z.to_nat c) = p_col e1))
        as [[Hr Hc]|Hna].
      * assert (written tc e1) as Hw.
        { apply fits_written. apply Forall_app in Hfits as [Hf _].
          by eapply Forall_forall in Hf; [|apply list_elem_of_In]. }
        destruct (Hanch e1 He1 Hw) as (_ & Hat & _).
        rewrite <- Hr, <- Hc, Nat2Z.id in Hat. congruence.
      * specialize (Hext e1 i (Z.to_nat c) He1 Hin_ext Hna). congruence.
Qed.

Lemma inv_base_next_row i g cur log :
  inv_base R tc i (g, cur, log) -> inv_base R tc (S i) (g, 0%Z, log).
Proof.
  intros (Hs & _ & Ha). split; [done|]. split; [lia|].
  intros e He Hw. destruct (Ha e He Hw) as (H0 & Hat & Hpos).
  split; [done|]. split; [done|]. lia.
Qed.

Lemma inv_fit_next_row i g cur log :
  inv_fit R tc i (g, cur, log) -> inv_fit R tc (S i) (g, 0%Z, log).
Proof.
  intros (Hf & Hx & _ & Hff & Hp). split; [done|]. split; [done|].
  split; [intros j Hj; lia|]. done.
Qed.

Lemma place_cells_cons i st cell cells :
  place_cells E tc i st (cell :: cells) =
  match place_cell E tc i st cell with
  | Ok st1 => place_cells E tc i st1 cells
  | Raise e => Raise e
  end.
Proof. done. Qed.

Lemma place_rows_cons i g log tr rows :
  place_rows E tc i g log (tr :: rows) =
  match place_cells E tc i (g, 0%Z, log) (find_all ["td"; "th"] tr) with
  | Ok (g1, _, log1) => place_rows E tc (S i) g1 log1 rows
  | Raise e => Raise e
  end.
Proof. done. Qed.

Lemma place_cells_inv i cells g cur log g' cur' log' :
  i < R ->
  place_cells E tc i (g, cur, log) cells = Ok (g', cur', log') ->
  (exists l, log' = log ++ l /\ map p_value l = map (cell_value E) cells)
  /\ ((forall e, In e log' -> (0 <= p_colspan e)%Z) ->
      inv_base R tc i (g, cur, log) ->
      inv_base R tc i (g', cur', log') /\
      (inv_fit R tc i (g, cur, log) -> Forall (fits R tc) log' ->
       inv_fit R tc i (g', cur', log'))).
Proof.
  intros Hi. revert g cur log. induction cells as [|cell cells IH]; intros g cur log.
  - simpl. intros [= -> -> ->]. split.
    + exists []. by rewrite app_nil_r.
    + intros _ Hb. split; [done|]. tauto.
  - rewrite place_cells_cons.
    destruct (place_cell E tc i (g, cur, log) cell) as [[[g1 cur1] log1]|] eqn:E1;
      [|done].
    intros Hrest. destruct (IH _ _ _ Hrest) as ((l & -> & Hl) & Hinv).
    pose proof (place_cell_inv _ _ _ _ _ _ _ _ E1)
      as (row & c & rs & cs & _ & _ & _ & _ & Hst).
    injection Hst as _ _ ->. split.
    + eexists. rewrite <- app_assoc. split; [done|]. simpl. by rewrite Hl.
    + intros Hcs Hb.
      assert (inv_base R tc i (g1, cur1, log ++ [Build_placement i c (cell_value E cell) rs cs g]))
        as Hb1.
      { apply (place_cell_base i g cur log cell g1 cur1 _ Hi Hb E1).
        intros e He. apply Hcs. apply in_app_iff. left.
        apply last_Some in He as (l' & ->). apply in_app_iff. right. by left. }
      destruct (Hinv Hcs Hb1) as [Hb' Hf']. split; [done|].
      intros Hf Hfits. apply Hf'; [|done].
      apply (place_cell_fit i g cur log cell g1 cur1 _ Hi Hb Hf E1).
      by apply Forall_app in Hfits as [? _].
Qed.

Lemma place_rows_inv rows : forall i g log g' log',
  i + length rows <= R ->
  place_rows E tc i g log rows = Ok (g', log') ->
  (exists l, log' = log ++ l /\
             map p_value l =
             map (cell_value E) (flat_map (find_all ["td"; "th"]) rows))
  /\ ((forall e, In e log' -> (0 <= p_colspan e)%Z) ->
      inv_base R tc i (g, 0%Z, log) ->
      inv_base R tc (i + length rows) (g', 0%Z, log') /\
      (inv_fit R tc i (g, 0%Z, log) -> Forall (fits R tc) log' ->
       inv_fit R tc (i + length rows) (g', 0%Z, log'))).
Proof.
  induction rows as [|tr rows IH]; intros i g log g' log' Hi.
  - simpl. intros [= -> ->]. rewrite Nat.add_0_r. split.
    + exists []. by rewrite app_nil_r.
    + intros _ Hb. split; [done|]. tauto.
  - rewrite place_rows_cons. simpl in Hi.
    destruct (place_cells E tc i (g, 0%Z, log) _) as [[[g1 cur1] log1]|] eqn:E1;
      [|done].
    intros Hrest. destruct (IH (S i) _ _ _ _ ltac:(lia) Hrest) as ((l & -> & Hl) & Hinv).
    destruct (place_cells_inv i _ _ _ _ _ _ _ ltac:(lia) E1) as ((l1 & -> & Hl1) & Hinv1).
    split.
    + eexists. rewrite <- app_assoc. split; [done|].
      cbn [flat_map]. by rewrite !map_app, Hl, Hl1.
    + intros Hcs Hb.
      destruct Hinv1 as [Hb1 Hf1]; [|done|].
      { intros e He. apply Hcs. apply in_app_iff. by left. }
      assert (i + length (tr :: rows) = S i + length rows) as -> by (simpl; lia).
      destruct Hinv as [Hb' Hf']; [done | by eapply inv_base_next_row|].
      split; [done|]. intros Hf Hfits. apply Hf'; [|done].
      eapply inv_fit_next_row. apply Hf1; [done|].
      by apply Forall_app in Hfits as [? _].
Qed.

Lemma place_cells_total i cells g cur log :
  i < R -> inv_base R tc i (g, cur, log) ->
  (forall cell, In cell cells -> spans_ok E cell) ->
  (forall e, In e log -> (0 <= p_colspan e)%Z) ->
  exists g' cur' log',
    place_cells E tc i (g, cur, log) cells = Ok (g', cur', log') /\
    (forall e, In e log' -> (0 <= p_colspan e)%Z).
Proof.
  intros Hi. revert g cur log. induction cells as [|cell cells IH];
    intros g cur log Hb Hok Hlog.
  - exists g, cur, log. done.
  - destruct (Hok cell) as (cs & rs & Hcs & Hcs0 & Hrs); [by left|].
    destruct (place_cell_total E R tc i g cur log cell rs cs) as ([[g1 cur1] log1] & E1);
      [done..|].
    pose proof (place_cell_inv _ _ _ _ _ _ _ _ E1)
      as (row & c & rs' & cs' & _ & _ & _ & Hcs' & Hst).
    rewrite Hcs in Hcs'. injection Hcs' as <-. injection Hst as _ _ Hlog1.
    assert (forall e, In e log1 -> (0 <= p_colspan e)%Z) as Hlog1'.
    { rewrite Hlog1. intros e [He | [<- | []]]%in_app_iff; [by apply Hlog | done]. }
    destruct (IH g1 cur1 log1) as (g' & cur' & log' & Hrest & Hlog'); [| |done|].
    + eapply place_cell_base; [done | done | done |].
      intros e He. apply Hlog1'. apply last_Some in He as (l' & ->).
      apply in_app_iff. right. by left.
    + intros c0 Hc0. apply Hok. by right.
    + exists g', cur', log'. by rewrite place_cells_cons, E1.
Qed.

Lemma place_rows_total rows : forall i g log,
  i + length rows <= R -> inv_base R tc i (g, 0%Z, log) ->
  (forall cell, In cell (flat_map (find_all ["td"; "th"]) rows) -> spans_ok E cell) ->
  (forall e, In e log -> (0 <= p_colspan e)%Z) ->
  exists g' log',
    place_rows E tc i g log rows = Ok (g', log') /\
    (forall e, In e log' -> (0 <= p_colspan e)%Z).
Proof.
  induction rows as [|tr rows IH]; intros i g log Hi Hb Hok Hlog.
  - exists g, log. done.
  - simpl in Hi. cbn [flat_map] in Hok.
    destruct (place_cells_total i (find_all ["td"; "th"] tr) g 0%Z log)
      as (g1 & cur1 & log1 & E1 & Hlog1); [lia | done | | done |].
    { intros cell Hc. apply Hok. apply in_app_iff. by left. }
    destruct (place_cells_inv i _ _ _ _ _ _ _ ltac:(lia) E1) as (_ & Hinv1).
    destruct Hinv1 as [Hb1 _]; [done | done |].
    destruct (IH (S i) g1 log1) as (g' & log' & Hrest & Hlog'); [lia | | | done |].
    + by eapply inv_base_next_row.
    + intros cell Hc. apply Hok. apply in_app_iff. by right.
    + exists g', log'. by rewrite place_rows_cons, E1.
Qed.

End SecondPass.

(** ** Tables: the log of the second pass and the cells *)

Lemma indexed_from_cons i tr rows :
  indexed_from i (tr :: rows) =
  map (pair i) (find_all ["td"; "th"] tr) ++ indexed_from (S i) rows.
Proof.
  unfold indexed_from. cbn [imap concat]. rewrite Nat.add_0_r. f_equal. f_equal.
  apply imap_ext. intros j x _. simpl. f_equal. f_equal. lia.
Qed.

Lemma indexed_from_cells rows : forall i,
  map snd (indexed_from i rows) = flat_map (find_all ["td"; "th"]) rows.
Proof.
  induction rows as [|tr rows IH]; intros i; [done|].
  rewrite indexed_from_cons, map_app, IH. cbn [flat_map]. f_equal.
  rewrite map_map. simpl. apply map_id.
Qed.

Lemma indexed_cells_cells el : map snd (indexed_cells el) = table_cells el.
Proof. apply indexed_from_cells. Qed.

Section LogInvariant.
Variable E : externals.
Variable R : nat.
Variable tc : Z.

Lemma inv_log_init : inv_log E R tc [] (empty_grid R tc) [].
Proof.
  split; [constructor|]. split.
  { intros r j (s & Hs). exfalso. unfold cell_at, empty_grid in Hs.
    destruct (replicate R _ !! r) as [row|] eqn:Er; [|done].
    apply lookup_replicate in Er as [-> _].
    apply lookup_replicate in Hs as [? _]. done. }
  split; [by intros e r j []|]. split; [by intros k e H|].
  split; [by intros k e H|]. by intros e [].
Qed.

Lemma place_cell_log i g cur log cell g' cur' log' done :
  i < R -> inv_base R tc i (g, cur, log) -> inv_log E R tc done g log ->
  place_cell E tc i (g, cur, log) cell = Ok (g', cur', log') ->
  inv_log E R tc (done ++ [(i, cell)]) g' log'.
Proof.
  intros Hi (Hshape & Hcur & _) (HT & HC & HF & HB & HF' & HP) Hplace.
  apply place_cell_inv in Hplace as (row & c & rs & cs & Hrow & Hskip & Hrs & Hcs & Hst).
  injection Hst as -> -> ->.
  set (e_new := Build_placement i c (cell_value E cell) rs cs g) in *.
  assert (length row = Z.to_nat tc) as Hlen.
  { destruct Hshape as [_ HCs]. unfold grid in *. by eapply Forall_lookup_1 in HCs. }
  destruct (skip_filled_spec (Z.to_nat (tc - cur)) row tc cur)
    as (c0 & Hskip' & Hle & Hfilled & Hfree); [done | done | lia |].
  rewrite Hskip in Hskip'. injection Hskip' as <-.
  assert (forall k e, log !! k = Some e -> (log ++ [e_new]) !! k = Some e) as Hold.
  { intros k e Hk. rewrite lookup_app_l; [done|]. by eapply lookup_lt_Some. }
  assert (forall r j, filled g r j ->
            exists k e, k < length log /\ log !! k = Some e /\ written tc e /\
                        in_extent e r j) as HC'.
  { intros r j Hf. destruct (HC r j Hf) as (k & e & Hk & Hw & Hin).
    exists k, e. split; [by eapply lookup_lt_Some | done]. }
  split; [|split; [|split; [|split; [|split]]]].
  - apply Forall2_app; [done|]. constructor; [|constructor]. done.
  - intros r j Hf.
    assert (filled g r j \/ ((c < tc)%Z /\ written tc e_new /\ in_extent e_new r j))
      as [Hg | (Hin & Hw & Hext)].
    { destruct (Z.leb_spec tc c) as [Hout|Hin]; [by left|].
      destruct Hf as (s & Hs). rewrite fill_extent_at in Hs by lia.
      destruct (cell_at g r j) as [old|] eqn:Eold; [|done].
      case_decide as Hd.
      - right. split; [done|]. unfold written, in_extent. simpl. lia.
      - left. exists s. congruence. }
    + destruct (HC' r j Hg) as (k & e & _ & Hk & Hw & Hin). exists k, e. auto.
    + exists (length log), e_new. split; [|done]. by apply list_lookup_middle.
  - intros e r j He Hw Hin Hr Hj.
    destruct (shape_cell_at R (Z.to_nat tc) g r j Hshape Hr Hj) as [x Hx].
    apply in_app_iff in He as [He | [<- | []]].
    + destruct (HF e r j He Hw Hin Hr Hj) as (s & Hs).
      destruct (Z.leb_spec tc c) as [Hout|Hinb]; [by exists s|].
      unfold filled. rewrite fill_extent_at, Hs by lia. case_decide; eauto.
    + destruct Hw as (Hw & _ & _). simpl in Hw.
      destruct (Z.leb_spec tc c) as [Hout|Hinb]; [lia|].
      unfold filled. rewrite fill_extent_at, Hx by lia.
      destruct Hin as [Hr' Hj']. simpl in Hr', Hj'.
      rewrite decide_True by lia. eauto.
  - intros k e Hk r j Hf.
    destruct (decide (k < length log)) as [Hlt|Hge].
    + rewrite lookup_app_l in Hk by done.
      destruct (HB k e Hk r j Hf) as (k' & e' & Hlt' & Hk' & Hw & Hin).
      exists k', e'. auto.
    + pose proof (lookup_lt_Some _ _ _ Hk) as Hk2. rewrite length_app in Hk2.
      simpl in Hk2. assert (k = length log) as -> by lia.
      rewrite list_lookup_middle in Hk by done. injection Hk as <-.
      destruct (HC' r j Hf) as (k' & e' & Hlt' & Hk' & Hw & Hin).
      exists k', e'. auto.
  - intros k e Hk k' e' r j Hlt' Hk' Hw Hin Hr Hj.
    destruct (decide (k < length log)) as [Hlt|Hge].
    + rewrite lookup_app_l in Hk, Hk' by lia. by eapply HF'.
    + pose proof (lookup_lt_Some _ _ _ Hk) as Hk2. rewrite length_app in Hk2.
      simpl in Hk2. assert (k = length log) as -> by lia.
      rewrite list_lookup_middle in Hk by done. injection Hk as <-.
      rewrite lookup_app_l in Hk' by lia. simpl.
      apply (HF e' r j); try done.
      by eapply list_elem_of_In, list_elem_of_lookup_2.
  - intros e He. apply in_app_iff in He as [He | [<- | []]]; [by apply HP|].
    simpl. split; [done|]. split; [lia|]. intros Hin.
    unfold cell_at, grid in *. rewrite Hrow. by apply Hfree.
Qed.

Lemma place_cells_log i cells : forall g cur log g' cur' log' done,
  i < R ->
  place_cells E tc i (g, cur, log) cells = Ok (g', cur', log') ->
  (forall e, In e log' -> (0 <= p_colspan e)%Z) ->
  inv_base R tc i (g, cur, log) -> inv_log E R tc done g log ->
  inv_log E R tc (done ++ map (pair i) cells) g' log'.
Proof.
  induction cells as [|cell cells IH]; intros g cur log g' cur' log' done Hi.
  - simpl. intros [= -> -> ->] _ _ Hl. by rewrite app_nil_r.
  - rewrite place_cells_cons.
    destruct (place_cell E tc i (g, cur, log) cell) as [[[g1 cur1] log1]|] eqn:E1;
      [|done].
    intros Hrest Hcs Hb Hl.
    destruct (place_cells_inv E R tc i _ _ _ _ _ _ _ Hi Hrest) as ((l & -> & _) & _).
    assert (inv_base R tc i (g1, cur1, log1)) as Hb1.
    { apply (place_cell_base E R tc i g cur log cell g1 cur1 _ Hi Hb E1).
      intros e He. apply Hcs. apply in_app_iff. left.
      apply last_Some in He as (l' & ->). apply in_app_iff. right. by left. }
    pose proof (place_cell_log i g cur log cell g1 cur1 log1 done Hi Hb Hl E1) as Hl1.
    pose proof (IH _ _ _ _ _ _ _ Hi Hrest Hcs Hb1 Hl1) as Hfin.
    simpl. by rewrite <- app_assoc in Hfin.
Qed.

Lemma place_rows_log rows : forall i g log g' log' done,
  i + length rows <= R ->
  place_rows E tc i g log rows = Ok (g', log') ->
  (forall e, In e log' -> (0 <= p_colspan e)%Z) ->
  inv_base R tc i (g, 0%Z, log) -> inv_log E R tc done g log ->
  inv_log E R tc (done ++ indexed_from i rows) g' log'.
Proof.
  induction rows as [|tr rows IH]; intros i g log g' log' done Hi.
  - simpl. intros [= -> ->] _ _ Hl. unfold indexed_from. simpl. by rewrite app_nil_r.
  - rewrite place_rows_cons. simpl in Hi.
    destruct (place_cells E tc i (g, 0%Z, log) _) as [[[g1 cur1] log1]|] eqn:E1;
      [|done].
    intros Hrest Hcs Hb Hl.
    destruct (place_rows_inv E R tc rows (S i) _ _ _ _ ltac:(lia) Hrest)
      as ((l & -> & _) & _).
    assert (forall e, In e log1 -> (0 <= p_colspan e)%Z) as Hcs1.
    { intros e He. apply Hcs. apply in_app_iff. by left. }
    destruct (place_cells_inv E R tc i _ _ _ _ _ _ _ ltac:(lia) E1) as (_ & Hinv1).
    destruct Hinv1 as [Hb1 _]; [done | done |].
    pose proof (place_cells_log i _ _ _ _ _ _ _ done ltac:(lia) E1 Hcs1 Hb Hl) as Hl1.
    pose proof (IH (S i) _ _ _ _ _ ltac:(lia) Hrest Hcs
                   (inv_base_next_row R tc i _ _ _ Hb1) Hl1) as Hfin.
    rewrite indexed_from_cons. by rewrite <- app_assoc in Hfin.
Qed.

End LogInvariant.

(** The log of the second pass of a table, colspans not negative: what
    holds of it and of the grid at the end. *)
Lemma table_grid_log E el tc g log :
  table_grid E el = Ok (tc, g, log) ->
  (forall e, In e log -> (0 <= p_colspan e)%Z) ->
  inv_log E (length (find_all ["tr"] el)) tc (indexed_cells el) g log.
Proof.
  intros Hgrid Hcs. 
  unfold table_grid, mbind, result_bind in Hgrid.
  destruct (table_total_cols E el) as [tc'|]; [|done].
  destruct (place_rows E tc' 0 _ [] _) as [[g' log']|] eqn:Ep; [|done].
  injection Hgrid as -> -> ->.
  set (R := length (find_all ["tr"] el)) in *.
  apply (place_rows_log E R tc (find_all ["tr"] el) 0 _ _ _ _ [] (le_n R) Ep Hcs).
  - split; [unfold empty_grid; split; [by rewrite length_replicate|];
            apply Forall_replicate; by rewrite length_replicate|].
    split; [lia|]. by intros e [].
  - apply inv_log_init.
Qed.

(** ** Tables: the whole conversion *)

Lemma empty_grid_shape R tc : shape R (Z.to_nat tc) (empty_grid R tc).
Proof.
  unfold empty_grid. split; [by rewrite length_replicate|].
  apply Forall_replicate. by rewrite length_replicate.
Qed.

Lemma inv_base_init R tc : inv_base R tc 0 (empty_grid R tc, 0%Z, []).
Proof. split; [apply empty_grid_shape|]. split; [lia|]. by intros e []. Qed.


Lemma table_grid_inv E el tc g log :
  table_grid E el = Ok (tc, g, log) ->
  table_total_cols E el = Ok tc /\
  place_rows E tc 0 (empty_grid (length (find_all ["tr"] el)) tc) []
             (find_all ["tr"] el) = Ok (g, log).
Proof.
  unfold table_grid, mbind, result_bind.
  destruct (table_total_cols E el) as [tc'|]; [|done].
  destruct (place_rows E tc' 0 _ [] _) as [[g' log']|] eqn:Ep; [|done].
  by intros [= <- <- <-].
Qed.

Lemma count_cells_ok E i cells : forall row_cols m,
  (forall cell, In cell cells -> spans_ok E cell) ->
  exists res, count_cells E i cells row_cols m = Ok res.
Proof.
  induction cells as [|cell cells IH]; intros row_cols m Hok; simpl.
  - eauto.
  - destruct (Hok cell) as (cs & rs & -> & _ & ->); [by left|]. simpl.
    apply IH. intros c Hc. apply Hok. by right.
Qed.

Lemma count_rows_ok E rows : forall i m,
  (forall cell, In cell (flat_map (find_all ["td"; "th"]) rows) -> spans_ok E cell) ->
  exists colspans, count_rows E i rows m = Ok colspans.
Proof.
  induction rows as [|row rows IH]; intros i m Hok.
  - simpl. eauto.
  - cbn [flat_map] in Hok. cbn [count_rows].
    destruct (count_cells_ok E i (find_all ["td"; "th"] row)
                             (default 0%Z (m !! i)) m) as ([rc m'] & ->).
    { intros c Hc. apply Hok. apply in_app_iff. by left. }
    simpl. destruct (IH (S i) m') as (cols & ->).
    { intros c Hc. apply Hok. apply in_app_iff. by right. }
    simpl. eauto.
Qed.

(** With integer spans and no negative colspan the conversion of the
    table comes to an end, the grid has its shape and the written cells
    are where they were put. *)
Lemma table_grid_safe E el :
  (forall cell, In cell (table_cells el) -> spans_ok E cell) ->
  exists tc g log,
    table_grid E el = Ok (tc, g, log) /\
    shape (length (find_all ["tr"] el)) (Z.to_nat tc) g /\
    forall e, In e log -> written tc e ->
      cell_at g (p_row e) (Z.to_nat (p_col e)) = Some (Some (p_value e)).
Proof.
  intros Hok. unfold table_grid, table_total_cols.
  destruct (count_rows_ok E (find_all ["tr"] el) 0 ∅ Hok) as (cols & Hcols).
  rewrite Hcols. simpl.
  set (tc := max_or_zero cols). set (R := length (find_all ["tr"] el)).
  destruct (place_rows_total E R tc (find_all ["tr"] el) 0 (empty_grid R tc) [])
    as (g & log & Hrows & Hlog); [done | apply inv_base_init | done | by intros e [] |].
  rewrite Hrows. simpl. exists tc, g, log. split; [done|].
  destruct (place_rows_inv E R tc (find_all ["tr"] el) 0 _ _ _ _ (le_n R) Hrows) as (_ & Hinv).
  destruct Hinv as [(Hs & _ & Ha) _]; [done | apply inv_base_init |].
  split; [done|]. intros e He Hw. by destruct (Ha e He Hw) as (_ & ? & _).
Qed.

(** C8, the claim refuted: with a negative colspan the grid-filling pass
    raises [IndexError], or lets a later cell cover the anchor of an
    earlier one ("B" is lost in the second table). *)
Lemma C8_negative_colspan :
  (forall E, table_grid E negative_colspan_example = Raise IndexError)
  /\ (forall E, exists log,
        table_grid E overwritten_example =
        Ok (3%Z, [[Some (txt "X"); Some (txt "Y"); Some (txt "W")];
                  [Some (txt "C"); Some []; Some []]], log)).
Proof.
  split; intros E.
  - reflexivity.
  - eexists. reflexivity.
Qed.

(** The grid of the table whose extents reach beyond the grid: the
    assignments out of range are dropped and the cells that follow are
    placed. *)
Lemma overflow_example_grid E :
  exists log,
    table_grid E overflow_example =
    Ok (2%Z, [[Some (txt "A"); None]; [Some []; Some (txt "B")];
              [Some (txt "C"); Some []]], log).
Proof. eexists. reflexivity. Qed.

(** C8, as amended. For a table whose rowspan and colspan attributes are
    integers, colspans not negative, the grid-filling pass does not
    raise, however far the extents reach beyond the grid. It returns a
    grid of [total_rows] rows of [total_cols] positions and handles every
    cell of the table, in order, with the rowspan and colspan of its
    attributes. A cell is written when its cursor is inside the grid and
    its spans are at least one: its text is then still at its anchor at
    the end, every position of its extent that lies inside the grid is
    filled, and nothing else is filled. The cursor of a cell is not
    negative and, inside the grid, does not lie in the extent of a cell
    written before it. *)
Theorem C8_grid_filling_is_safe (E : externals) (el : node) :
  (forall cell, In cell (table_cells el) -> spans_ok E cell) ->
  exists total_cols g log,
    table_grid E el = Ok (total_cols, g, log) /\
    shape (length (find_all ["tr"] el)) (Z.to_nat total_cols) g /\
    Forall2 (placement_of E) log (indexed_cells el) /\
    (forall e, In e log -> written total_cols e ->
       cell_at g (p_row e) (Z.to_nat (p_col e)) = Some (Some (p_value e))) /\
    (forall e r j, In e log -> written total_cols e -> in_extent e r j ->
       r < length (find_all ["tr"] el) -> j < Z.to_nat total_cols ->
       filled g r j) /\
    (forall r j, filled g r j ->
       exists e, In e log /\ written total_cols e /\ in_extent e r j) /\
    (forall k e, log !! k = Some e ->
       (0 <= p_col e)%Z /\
       forall k' e', k' < k -> log !! k' = Some e' -> written total_cols e' ->
         (p_col e < total_cols)%Z ->
         ~ in_extent e' (p_row e) (Z.to_nat (p_col e))).
Proof.
  intros Hok. unfold table_grid, table_total_cols.
  destruct (count_rows_ok E (find_all ["tr"] el) 0 ∅ Hok) as (cols & Hcols).
  rewrite Hcols. simpl.
  set (tc := max_or_zero cols). set (R := length (find_all ["tr"] el)).
  destruct (place_rows_total E R tc (find_all ["tr"] el) 0 (empty_grid R tc) [])
    as (g & log & Hrows & Hlog); [done | apply inv_base_init | done | by intros e [] |].
  rewrite Hrows. simpl. exists tc, g, log. split; [done|].
  destruct (place_rows_inv E R tc (find_all ["tr"] el) 0 _ _ _ _ (le_n R) Hrows) as (_ & Hinv).
  destruct Hinv as [(Hs & _ & Ha) _]; [done | apply inv_base_init |].
  assert (table_grid E el = Ok (tc, g, log)) as Hgrid.
  { unfold table_grid, table_total_cols. rewrite Hcols. simpl.
    fold R. fold tc. by rewrite Hrows. }
  destruct (table_grid_log E el tc g log Hgrid Hlog) as (HT & HC & HF & HB & HF' & HP).
  fold R in HC, HF, HB, HF', HP.
  split; [done|]. split; [done|]. split; [|split; [|split]].
  - intros e He Hw. by destruct (Ha e He Hw) as (_ & ? & _).
  - done.
  - intros r j Hf. destruct (HC r j Hf) as (k & e & Hk & Hw & Hin).
    exists e. split; [|done]. by eapply list_elem_of_In, list_elem_of_lookup_2.
  - intros k e Hk.
    assert (In e log) as He by (by eapply list_elem_of_In, list_elem_of_lookup_2).
    destruct (HP e He) as (Hrow & Hcol & Hfree). split; [done|].
    intros k' e' Hlt Hk' Hw Hin Hext.
    destruct (HF' k e Hk k' e' (p_row e) (Z.to_nat (p_col e))) as (s & Hfill);
      try done; [lia|].
    rewrite Hfree in Hfill by done. done.
Qed.

Lemma C8_grid_filling_is_safe_witness :
  exists total_cols g log,
    table_grid ascii_externals overflow_example = Ok (total_cols, g, log) /\
    shape 3 (Z.to_nat total_cols) g /\
    Forall2 (placement_of ascii_externals) log (indexed_cells overflow_example) /\
    (forall e, In e log -> written total_cols e ->
       cell_at g (p_row e) (Z.to_nat (p_col e)) = Some (Some (p_value e))) /\
    (forall e r j, In e log -> written total_cols e -> in_extent e r j ->
       r < 3 -> j < Z.to_nat total_cols -> filled g r j) /\
    (forall r j, filled g r j ->
       exists e, In e log /\ written total_cols e /\ in_extent e r j) /\
    (forall k e, log !! k = Some e ->
       (0 <= p_col e)%Z /\
       forall k' e', k' < k -> log !! k' = Some e' -> written total_cols e' ->
         (p_col e < total_cols)%Z ->
         ~ in_extent e' (p_row e) (Z.to_nat (p_col e))).
Proof.
  apply (C8_grid_filling_is_safe ascii_externals overflow_example).
  intros cell [<- | [<- | [<- | []]]].
  - exists 1%Z, 2%Z. repeat split; (reflexivity || lia).
  - exists 2%Z, 2%Z. repeat split; (reflexivity || lia).
  - exists 1%Z, 2%Z. repeat split; (reflexivity || lia).
Defined.


(** ** Tables: the rendered lines *)

Lemma py_index_lt n c j : py_index n c = Some j -> j < n.
Proof.
  unfold py_index. destruct (c <? 0)%Z;
    destruct (Z.leb_spec 0 (if false then c else c)); simpl;
    repeat match goal with
           | |- context [(?a <=? ?b)%Z] => destruct (Z.leb_spec a b); simpl
           | |- context [(?a <? ?b)%Z] => destruct (Z.ltb_spec a b); simpl
           end; intros [= <-]; lia.
Qed.

Lemma grid_set_cells (P : str -> Prop) g r c s :
  cells_ok P g -> P s -> cells_ok P (default g (grid_set g r c (Some s))).
Proof.
  intros Hg Hs. unfold grid_set, grid in *.
  destruct (g !! r) as [row|] eqn:Er; simpl; [|done].
  destruct (py_index (length row) c) as [j|] eqn:Ej; simpl; [|done].
  apply py_index_lt in Ej. intros r' j' s'.
  rewrite (cell_at_insert g r row) by done.
  case_decide; [by intros [= <-] | apply Hg].
Qed.

Section Sanitized.
Variable E : externals.
Variable P : str -> Prop.
Hypothesis P_empty : P [].
Hypothesis P_value : forall cell, P (cell_value E cell).

Lemma fill_extent_cells value i col rs cs g :
  P value -> cells_ok P g -> cells_ok P (fill_extent value i col rs cs g).
Proof using P_empty.
  intros Hv. unfold fill_extent.
  generalize (seq 0 (Z.to_nat rs)). intros rows. revert g.
  induction rows as [|r rows IH]; intros g Hg; simpl; [done|].
  apply IH. generalize (seq 0 (Z.to_nat cs)). intros cols. revert g Hg.
  induction cols as [|c cols IHc]; intros g Hg; simpl; [done|].
  apply IHc. rewrite fill_position_eq. apply grid_set_cells; [done|].
  by case_decide.
Qed.

Lemma place_cells_cells R tc i cells : forall g cur log g' cur' log',
  place_cells E tc i (g, cur, log) cells = Ok (g', cur', log') ->
  shape R (Z.to_nat tc) g /\ cells_ok P g ->
  shape R (Z.to_nat tc) g' /\ cells_ok P g'.
Proof using P_empty P_value.
  induction cells as [|cell cells IH]; intros g cur log g' cur' log'.
  - simpl. by intros [= -> -> ->].
  - rewrite place_cells_cons.
    destruct (place_cell E tc i (g, cur, log) cell) as [[[g1 cur1] log1]|] eqn:E1;
      [|done].
    intros Hrest [Hs Hc]. apply (IH _ _ _ _ _ _ Hrest).
    apply place_cell_inv in E1 as (row & c & rs & cs & _ & _ & _ & _ & Hst).
    injection Hst as -> _ _. destruct (tc <=? c)%Z; [done|].
    split; [by apply fill_extent_shape | by apply fill_extent_cells].
Qed.

Lemma place_rows_cells R tc rows : forall i g log g' log',
  place_rows E tc i g log rows = Ok (g', log') ->
  shape R (Z.to_nat tc) g /\ cells_ok P g ->
  shape R (Z.to_nat tc) g' /\ cells_ok P g'.
Proof using P_empty P_value.
  induction rows as [|row rows IH]; intros i g log g' log'.
  - simpl. by intros [= -> ->].
  - rewrite place_rows_cons.
    destruct (place_cells E tc i (g, 0%Z, log) _) as [[[g1 cur1] log1]|] eqn:E1;
      [|done].
    intros Hrest Hg. apply (IH _ _ _ _ _ Hrest).
    by eapply place_cells_cells.
Qed.

Lemma table_grid_cells el tc g log :
  table_grid E el = Ok (tc, g, log) ->
  shape (length (find_all ["tr"] el)) (Z.to_nat tc) g /\ cells_ok P g.
Proof using P_empty P_value.
  intros [_ Hrows]%table_grid_inv.
  eapply place_rows_cells; [done|]. split; [apply empty_grid_shape|].
  intros r j s. unfold cell_at, empty_grid.
  destruct (replicate _ _ !! r) as [row|] eqn:Er; [|done].
  apply lookup_replicate in Er as [-> _].
  intros [? _]%lookup_replicate. done.
Qed.

End Sanitized.

Lemma Forall_drop_while (Q : char -> Prop) p s :
  Forall Q s -> Forall Q (drop_while p s).
Proof.
  induction 1 as [|c s Hc Hs IH]; simpl; [done|].
  destruct (p c); [done | by constructor].
Qed.

Lemma Forall_strip (Q : char -> Prop) s : Forall Q s -> Forall Q (strip s).
Proof.
  intros H. unfold strip, rstrip, lstrip.
  apply Forall_rev, Forall_drop_while, Forall_rev. by apply Forall_drop_while.
Qed.

Lemma replace1_removes old new s :
  Forall (fun c => c <> old) new -> Forall (fun c => c <> old) (replace1 old new s).
Proof.
  intros Hnew. unfold replace1. induction s as [|c s IH]; simpl; [done|].
  apply Forall_app. split; [|done].
  destruct (N.eqb_spec c old); [done | by constructor].
Qed.

Lemma replace1_keeps (Q : char -> Prop) old new s :
  Forall Q new -> Forall Q s -> Forall Q (replace1 old new s).
Proof.
  intros Hnew. unfold replace1. induction 1 as [|c s Hc Hs IH]; simpl; [done|].
  apply Forall_app. split; [|done].
  destruct (c =? old)%N; [done | by constructor].
Qed.

(** The text put in the grid has no pipe and no newline. *)
Lemma cell_value_sanitized E cell :
  Forall (fun c => c <> PIPE /\ c <> NL) (cell_value E cell).
Proof.
  unfold cell_value. apply Forall_strip. apply Forall_and. split.
  - apply replace1_removes. by constructor.
  - apply replace1_keeps; [by constructor|]. apply replace1_removes. by constructor.
Qed.

Lemma cell_value_no_pipe E cell : no_pipe (cell_value E cell).
Proof.
  eapply Forall_impl; [apply cell_value_sanitized|]. by intros c [? _].
Qed.

Lemma count_char_app c a b : count_char c (a ++ b) = count_char c a + count_char c b.
Proof. unfold count_char. by rewrite List.filter_app, length_app. Qed.

Lemma count_char_none c s : Forall (fun x => x <> c) s -> count_char c s = 0.
Proof.
  unfold count_char. induction 1 as [|x s Hx _ IH]; simpl; [done|].
  by destruct (N.eqb_spec x c).
Qed.

Lemma count_char_pipe : count_char PIPE [PIPE] = 1.
Proof. done. Qed.

Lemma count_char_join parts :
  Forall no_pipe parts ->
  count_char PIPE (join [PIPE] parts) = length parts - 1.
Proof.
  induction 1 as [|p parts Hp Hparts IH]; [done|].
  destruct parts as [|p2 parts].
  - simpl. by apply count_char_none.
  - change (join [PIPE] (p :: p2 :: parts))
      with (p ++ [PIPE] ++ join [PIPE] (p2 :: parts)).
    rewrite !count_char_app, IH, (count_char_none _ p), count_char_pipe by done.
    simpl. lia.
Qed.

(** A line made of parts without pipes, framed and separated by pipes. *)
Lemma framed_line parts :
  parts <> [] -> Forall no_pipe parts ->
  let line := [PIPE] ++ join [PIPE] parts ++ [PIPE] in
  head line = Some PIPE /\ last line = Some PIPE /\
  count_char PIPE line = length parts + 1.
Proof.
  intros Hne Hparts line. split; [done|]. split.
  - unfold line. by rewrite app_assoc, last_snoc.
  - unfold line. rewrite !count_char_app, count_char_join, count_char_pipe by done.
    destruct parts; [done|]. simpl. lia.
Qed.

Lemma render_row_line widths (row : list (option str)) :
  row <> [] -> (forall j s, row !! j = Some (Some s) -> no_pipe s) ->
  let line := render_row widths row in
  head line = Some PIPE /\ last line = Some PIPE /\
  count_char PIPE line = length row + 1.
Proof.
  intros Hne Hrow. unfold render_row. cbv zeta.
  match goal with |- context [imap ?g row] => set (f := g) end.
  pose proof (framed_line (imap f row)) as Hline. cbv zeta in Hline.
  rewrite length_imap in Hline. apply Hline.
  - intros H. apply (f_equal length) in H. rewrite length_imap in H.
    by destruct row.
  - apply Forall_lookup. intros j part. rewrite list_lookup_imap.
    intros (cell & Ej & ->)%fmap_Some. unfold f.
    assert (no_pipe (default [] cell)) as Hc.
    { destruct cell as [s|]; simpl; [by eapply Hrow | constructor]. }
    assert (no_pipe [SPACE]) as Hsp by (by repeat constructor).
    apply Forall_app. split; [done|].
    apply Forall_app. split; [done|].
    apply Forall_app. split; [by apply Forall_replicate | done].
Qed.

Lemma header_line_line widths :
  widths <> [] ->
  let line := header_line widths in
  head line = Some PIPE /\ last line = Some PIPE /\
  count_char PIPE line = length widths + 1.
Proof.
  intros Hne. unfold header_line.
  pose proof (framed_line (map (fun width => replicate (width + 2) 45%N) widths))
    as Hline. cbv zeta in Hline. rewrite length_map in Hline. apply Hline.
  - by destruct widths.
  - apply Forall_map. apply Forall_forall. intros w _. by apply Forall_replicate.
Qed.

Lemma render_rows_elem widths b (g : grid) line :
  In line (render_rows widths b g) ->
  line = header_line widths \/ exists row, In row g /\ line = render_row widths row.
Proof.
  revert b. induction g as [|row g IH]; intros b; simpl; [done|].
  destruct (is_empty_line row && negb b).
  - intros [H | (r & Hr & H)]%IH; [by left | right; eauto].
  - intros [<- | H]; [right; eauto|].
    destruct b.
    + apply IH in H as [H | (r & Hr & H)]; [by left | right; eauto].
    + destruct H as [<- | H]; [by left|].
      apply IH in H as [H | (r & Hr & H)]; [by left | right; eauto].
Qed.

Lemma foldl_length {A B} (F : list A -> B -> list A) :
  (forall w b, length (F w b) = length w) ->
  forall l w, length (foldl F w l) = length w.
Proof.
  intros HF l. induction l as [|b l IH]; intros w; simpl; [done|].
  by rewrite IH, HF.
Qed.

Lemma column_widths_length tc (g : grid) :
  length (column_widths tc g) = Z.to_nat tc.
Proof.
  unfold column_widths. rewrite foldl_length; [apply length_replicate|].
  intros w row. apply foldl_length. intros w' [col_idx [s|]]; [|done].
  apply length_insert.
Qed.

(** C10: with the HTML passthrough disabled, the table is the lines of
    [markdown_lines] joined by newlines; when [total_cols >= 1] every one of
    these lines (header row, dash separator, data rows) starts with a pipe,
    ends with a pipe and has exactly [total_cols + 1] pipes.  The text of a
    cell has no pipe and no newline left when it is placed, so no text in the
    grid has one. *)
Theorem C10_table_lines_pipes (E : externals) (self : Markdownify) (el : node)
    (total_cols : Z) (g : grid) (log : list placement) :
  html_tables_in_markdown self = false ->
  table_grid E el = Ok (total_cols, g, log) ->
  (1 <= total_cols)%Z ->
  convert_table E self el
    = Ok ([NL; NL] ++ join [NL] (markdown_lines total_cols g) ++ [NL; NL]) /\
  (forall line, In line (markdown_lines total_cols g) ->
     head line = Some PIPE /\ last line = Some PIPE /\
     count_char PIPE line = Z.to_nat total_cols + 1) /\
  (forall cell, count_char PIPE (cell_value E cell) = 0 /\
                count_char NL (cell_value E cell) = 0) /\
  (forall r j s, cell_at g r j = Some (Some s) ->
     count_char PIPE s = 0 /\ count_char NL s = 0).
Proof.
  intros Hflag Hgrid Htc. split; [|split; [|split]].
  - unfold convert_table. by rewrite Hflag, Hgrid.
  - destruct (table_grid_cells E no_pipe (List.Forall_nil _) (cell_value_no_pipe E)
                _ _ _ _ Hgrid) as [[_ Hshape] Hcells].
    intros line Hline. unfold markdown_lines in Hline.
    apply render_rows_elem in Hline as [-> | (row & Hrow & ->)].
    + pose proof (header_line_line (column_widths total_cols g)) as Hh.
      cbv zeta in Hh. rewrite column_widths_length in Hh.
      apply Hh. intros Hw. apply (f_equal length) in Hw.
      rewrite column_widths_length in Hw. simpl in Hw. lia.
    + apply list_elem_of_In, list_elem_of_lookup in Hrow as [r Hr].
      assert (length row = Z.to_nat total_cols) as Hlen.
      { eapply Forall_lookup in Hshape; [|exact Hr]. done. }
      rewrite <- Hlen. apply render_row_line.
      * intros ->. simpl in Hlen. lia.
      * intros j s Hj. apply (Hcells r j s). unfold cell_at.
        unfold grid in *. by rewrite Hr.
  - intros cell. split; apply count_char_none;
      (eapply Forall_impl; [apply cell_value_sanitized|]); by intros c [? ?].
  - destruct (table_grid_cells E (Forall (fun c => c <> PIPE /\ c <> NL))
                (List.Forall_nil _) (cell_value_sanitized E) _ _ _ _ Hgrid)
      as [_ Hcells].
    intros r j s Hs. apply Hcells in Hs.
    split; apply count_char_none;
      (eapply Forall_impl; [exact Hs|]); by intros c [? ?].
Qed.

(** C10 at the two-row table with a cell spanning both rows. *)
Lemma C10_table_lines_pipes_witness :
  html_tables_in_markdown default_config = false /\
  (exists log, table_grid ascii_externals rowspan_example
     = Ok (2%Z, [[Some (txt "A"); Some (txt "B")];
                 [Some (txt ""); Some (txt "C")]], log)) /\
  (1 <= 2)%Z /\
  (forall line,
     In line (markdown_lines 2 [[Some (txt "A"); Some (txt "B")];
                                [Some (txt ""); Some (txt "C")]]) ->
     head line = Some PIPE /\ last line = Some PIPE /\
     count_char PIPE line = 3).
Proof.
  split; [reflexivity|].
  destruct (table_grid ascii_externals rowspan_example)
    as [[[tc g] log]|] eqn:Hgrid; [|vm_compute in Hgrid; discriminate Hgrid].
  pose proof Hgrid as Heq. vm_compute in Heq.
  injection Heq as <- <- _.
  split; [by eexists|]. split; [lia|].
  exact (proj1 (proj2 (C10_table_lines_pipes ascii_externals default_config
                         rowspan_example _ _ _ eq_refl Hgrid ltac:(lia)))).
Defined.

(** ** Tables: the column count *)

(** C1: the first pass adds the colspan of a cell with rowspan [k] to the
    counters of rows [i .. i + k - 2], the first of which has been read
    already, so only [k - 2] following rows get it.  For a cell spanning
    two rows alone in its row, above a row of two cells, the code counts 2
    columns where the formula of the claim gives 3, and the last cell of
    the second row is dropped from the table. *)
Theorem C1_rowspan_pushed_one_row_short :
  (forall E, spec_total_cols E pushed_example = 3%Z) /\
  (forall E, table_total_cols E pushed_example = Ok 2%Z) /\
  (forall E, exists log,
     table_grid E pushed_example =
     Ok (2%Z, [[Some (txt "A"); None]; [Some []; Some (txt "B")]], log)) /\
  (forall E, convert_table E default_config pushed_example =
     Ok ([NL; NL] ++ txt "| A |   |" ++ [NL] ++ txt "|---|---|" ++ [NL]
         ++ txt "|   | B |" ++ [NL; NL])).
Proof.
  split; [|split; [|split]]; intros E.
  - reflexivity.
  - reflexivity.
  - eexists. reflexivity.
  - reflexivity.
Qed.

(** ** Handlers that raise *)

Lemma convert_p_returns E el text :
  has_continuation el = false \/
  (exists name block_type,
     get el "block-type" = Some name /\
     BlockTypes_getitem E name = Ok block_type) ->
  exists out, convert_p E el text = Ok out.
Proof.
  unfold convert_p. intros [-> | (name & bt & Hname & Hbt)]; [by eexists|].
  destruct (has_continuation el); [|by eexists].
  unfold getitem. rewrite Hname. simpl. rewrite Hbt. simpl.
  destruct bt; try by eexists.
  all: destruct (re_match _ _); by eexists.
Qed.

(** C3, the claim refuted: a paragraph of class has-continuation without a
    block-type attribute makes [convert_p] raise [KeyError], one whose
    block-type names no member of [BlockTypes] too, and a colspan that is
    no integer makes [convert_table] raise [ValueError]. *)
Lemma C3_handlers_raise :
  (forall E text,
     convert_p E (Tag "p" (Some [txt "has-continuation"]) [] []) text
     = Raise KeyError) /\
  (forall text,
     convert_p ascii_externals
       (Tag "p" (Some [txt "has-continuation"]) [("block-type", txt "Nope")] [])
       text
     = Raise KeyError) /\
  (forall E, convert_table E default_config bad_colspan_example
     = Raise ValueError).
Proof.
  split; [|split]; intros; reflexivity.
Qed.


(** * Further properties *)

(** ** The clean-up pass *)

Lemma tokens_len_lo token lo s n :
  (forall s s1, token s = Some s1 -> exists w, w <> [] /\ s = w ++ s1) ->
  tokens_len token lo s = Some n -> lo <= n.
Proof.
  intros Hwf. unfold tokens_len.
  destruct (tokens token (length s) s) as [k s'] eqn:Et.
  destruct (Nat.leb_spec lo k); [|done]. intros [= <-].
  destruct (tokens_suffix token Hwf _ _ _ _ Et) as (w & Hs & Hk).
  apply (f_equal length) in Hs. rewrite length_app in Hs. lia.
Qed.

Lemma blank_line_token_wf s s1 :
  blank_line_token s = Some s1 -> exists w, w <> [] /\ s = w ++ s1.
Proof.
  intros (w & (c & -> & _) & ->)%blank_line_token_shape. by exists [NL; c].
Qed.

(** A substitution that replaces every match by a text no longer than the
    match does not lengthen the text. *)
Lemma scan_length_le ml repl :
  (forall x n, ml x = Some n -> 1 <= n <= length x) ->
  (forall x n, ml x = Some n -> length (repl (take n x)) <= n) ->
  forall s, length (scan ml repl 0 s) <= length s.
Proof.
  intros Hwf Hrepl s. remember (length s) as n eqn:Hn. revert s Hn.
  induction n as [n IH] using lt_wf_ind. intros s ->.
  destruct (ml s) as [k|] eqn:Em.
  - destruct (Hwf _ _ Em) as [H1 H2]. rewrite (scan_match ml repl k s Em) by lia.
    rewrite length_app. pose proof (Hrepl _ _ Em) as Hr.
    assert (length (drop k s) < length s) as Hlt by (rewrite length_drop; lia).
    specialize (IH _ Hlt (drop k s) eq_refl). rewrite length_drop in IH. lia.
  - destruct s as [|c s].
    + by rewrite scan_nil.
    + rewrite scan_no_match_here by done. simpl.
      specialize (IH (length s) ltac:(simpl; lia) s eq_refl). lia.
Qed.

Lemma drop_while_length p (s : str) : length (drop_while p s) <= length s.
Proof. induction s as [|c s IH]; simpl; [done|]. destruct (p c); simpl; lia. Qed.

Lemma strip_length s : length (strip s) <= length s.
Proof.
  unfold strip, rstrip, lstrip. rewrite length_rev.
  etransitivity; [apply drop_while_length|]. rewrite length_rev.
  apply drop_while_length.
Qed.

Lemma count_char_run c (run : str) :
  Forall (fun x => is_char c x = true) run -> count_char c run = length run.
Proof.
  unfold count_char, is_char. induction 1 as [|x run Hx _ IH]; simpl; [done|].
  rewrite Hx. simpl. by rewrite IH.
Qed.

Lemma count_char_blank_pairs (toks : list str) :
  Forall is_blank_pair toks -> length toks <= count_char NL (concat toks).
Proof.
  induction 1 as [|w toks (c & -> & _) _ IH]; [done|].
  cbn [concat length]. rewrite count_char_app.
  assert (1 <= count_char NL [NL; c]) as Hc.
  { unfold count_char. simpl. destruct (c =? NL)%N; simpl; lia. }
  lia.
Qed.

(** With fewer than three newlines in the text, neither pattern of
    [cleanup_text] has a match. *)
Lemma few_newlines_scan_newlines repl s :
  count_char NL s < 3 ->
  scan (tokens_len (class_token (is_char NL)) 3) repl 0 s = s.
Proof.
  intros Hs. apply class_scan_id. intros a run b -> Hrun.
  rewrite !count_char_app, (count_char_run NL run) in Hs by done. lia.
Qed.

Lemma few_newlines_scan_blank_lines repl s :
  count_char NL s < 3 -> scan (tokens_len blank_line_token 3) repl 0 s = s.
Proof.
  intros Hs. apply (scan_tokens_id _ is_blank_pair).
  - intros x x1 (w & Hw & ->)%blank_line_token_shape. by exists w.
  - intros a toks b -> Htoks. apply count_char_blank_pairs in Htoks.
    rewrite !count_char_app in Hs. unfold str, char in *. lia.
Qed.

Lemma text_line_first p c s' : text_line p -> p = c :: s' -> c <> NL.
Proof. intros (_ & _ & Hp) ->. by inversion Hp. Qed.

Lemma text_line_last p s' c : text_line p -> p = s' ++ [c] -> c <> NL.
Proof.
  intros (_ & _ & Hp) ->. apply Forall_app in Hp as [_ Hc]. by inversion Hc.
Qed.

Lemma is_char_false c x : x <> c -> is_char c x = false.
Proof. intros H. unfold is_char. by destruct (N.eqb_spec x c). Qed.

(** Two lines with a blank line between them are what [strip] keeps. *)
Lemma strip_two_lines p q :
  text_line p -> text_line q -> strip (p ++ [NL; NL] ++ q) = p ++ [NL; NL] ++ q.
Proof.
  intros (Hp & [Hp1 _] & _) (Hq & [_ Hq2] & _). apply strip_id.
  - intros c s' Heq. destruct p as [|c0 p]; [done|]. injection Heq as -> _.
    by eapply Hp1.
  - intros s' c Heq. destruct (exists_last Hq) as (q' & c0 & ->).
    rewrite !app_assoc in Heq. apply app_inj_tail in Heq as [_ <-].
    by eapply Hq2.
Qed.

Lemma no_newline_pair_runs s :
  no_newline_pair s = true ->
  forall a run b, s = a ++ run ++ b ->
    Forall (fun c => is_char NL c = true) run -> length run < 3.
Proof.
  intros Hs a. revert s Hs. induction a as [|x a IH]; intros s Hs run b -> Hrun.
  - destruct Hrun as [|c1 run Hc1 Hrun]; [simpl; lia|].
    destruct Hrun as [|c2 run Hc2 Hrun]; [simpl; lia|].
    simpl in Hs. unfold is_char in Hc1, Hc2. by rewrite Hc1, Hc2 in Hs.
  - assert (no_newline_pair (a ++ run ++ b) = true) as Hs'.
    { simpl in Hs. destruct (a ++ run ++ b); [done|].
      by apply andb_prop in Hs as [_ Hs]. }
    exact (IH _ Hs' run b eq_refl Hrun).
Qed.

Lemma no_newline_pair_cons c s :
  c <> NL -> no_newline_pair s = true -> no_newline_pair (c :: s) = true.
Proof.
  intros Hc Hs. simpl. destruct s as [|c2 s]; [done|].
  destruct (N.eqb_spec c NL); [done|]. simpl. exact Hs.
Qed.

Lemma no_newline_pair_line p s :
  Forall (fun c => c <> NL) p -> no_newline_pair s = true ->
  no_newline_pair (p ++ s) = true.
Proof.
  induction 1 as [|c p Hc _ IH]; intros Hs; [done|].
  simpl app. apply no_newline_pair_cons; auto.
Qed.

Lemma no_newline_pair_blank_pairs toks s :
  Forall blank_line_pair toks -> no_newline_pair s = true ->
  no_newline_pair (concat toks ++ s) = true.
Proof.
  induction 1 as [|w toks (c & -> & _ & Hc) _ IH]; intros Hs; [done|].
  specialize (IH Hs). simpl.
  destruct (N.eqb_spec c NL); [done|]. simpl.
  destruct (concat toks ++ s) as [|c2 r] eqn:Er; [done|].
  destruct (N.eqb_spec c NL); [done|]. simpl. exact IH.
Qed.

Lemma tokens_blank_pairs toks q :
  Forall blank_line_pair toks -> blank_line_token q = None ->
  forall fuel, length (concat toks ++ q) <= fuel ->
  tokens blank_line_token fuel (concat toks ++ q) = (length toks, q).
Proof.
  intros Htoks Hq. induction Htoks as [|w toks (c & -> & Hc & _) _ IH]; intros fuel Hf.
  - simpl. destruct fuel; [done|]. simpl. by rewrite Hq.
  - simpl in Hf. destruct fuel as [|fuel]; [lia|].
    cbn [concat app tokens blank_line_token].
    rewrite N.eqb_refl, Hc. simpl. rewrite IH by lia. done.
Qed.

Lemma blank_line_token_line x t c x' :
  x = c :: x' -> c <> NL -> blank_line_token (x ++ t) = None.
Proof.
  intros -> Hc. simpl. destruct (x' ++ t); [done|].
  by destruct (N.eqb_spec c NL).
Qed.

Lemma tokens_len_none token lo s :
  1 <= lo -> token s = None -> tokens_len token lo s = None.
Proof.
  intros Hlo Hs. unfold tokens_len. destruct (length s); simpl.
  - by destruct lo; [lia|].
  - rewrite Hs. by destruct lo; [lia|].
Qed.

Lemma count_newlines_line p : text_line p -> count_char NL p = 0.
Proof. intros (_ & _ & Hp). by apply count_char_none. Qed.

Lemma count_newlines_two_lines p q :
  text_line p -> text_line q -> count_char NL (p ++ [NL; NL] ++ q) = 2.
Proof.
  intros Hp Hq. rewrite !count_char_app.
  rewrite (count_newlines_line p Hp), (count_newlines_line q Hq). done.
Qed.

Lemma blank_lines_len_wf x n :
  tokens_len blank_line_token 3 x = Some n -> 1 <= n <= length x.
Proof.
  intros H.
  apply (tokens_len_bound blank_line_token 3 x n blank_line_token_wf); [lia | exact H].
Qed.

Lemma blank_lines_len_line x t c x' :
  x = c :: x' -> c <> NL -> tokens_len blank_line_token 3 (x ++ t) = None.
Proof.
  intros Hx Hc. apply tokens_len_none; [lia|]. by eapply blank_line_token_line.
Qed.

(** X1: [cleanup_text] never makes the text longer, and what it returns
    has no whitespace at either end. *)
Theorem X1_cleanup_text_shrinks (s : str) :
  length (cleanup_text s) <= length s /\ stripped (cleanup_text s).
Proof.
  split; [|apply strip_stripped].
  unfold cleanup_text. etransitivity; [apply strip_length|].
  rewrite sub_blank_lines_scan, sub_newlines_scan.
  etransitivity; [apply scan_length_le|apply scan_length_le].
  - apply blank_lines_len_wf.
  - intros x n Hn. apply tokens_len_lo in Hn; [simpl; lia|].
    apply blank_line_token_wf.
  - intros x n Hn.
    apply (tokens_len_bound _ 3 x n (class_token_wf (is_char NL))); [lia | exact Hn].
  - intros x n Hn. apply tokens_len_lo in Hn; [simpl; lia|].
    apply class_token_wf.
Qed.

(** X2: a text with fewer than three newlines is only trimmed by
    [cleanup_text]. *)
Theorem X2_cleanup_text_few_newlines (s : str) :
  count_char NL s < 3 -> cleanup_text s = strip s.
Proof.
  intros Hs. unfold cleanup_text.
  rewrite sub_blank_lines_scan, sub_newlines_scan.
  rewrite few_newlines_scan_newlines by done.
  by rewrite few_newlines_scan_blank_lines.
Qed.

Lemma X2_cleanup_text_few_newlines_witness :
  count_char NL (txt " a" ++ [NL] ++ txt "b ") < 3
  /\ cleanup_text (txt " a" ++ [NL] ++ txt "b ") = txt "a" ++ [NL] ++ txt "b".
Proof.
  assert (count_char NL (txt " a" ++ [NL] ++ txt "b ") < 3) as H
    by (vm_compute; lia).
  split; [exact H|].
  rewrite (X2_cleanup_text_few_newlines _ H). reflexivity.
Defined.

(** X3: two lines of text separated by two or more newlines, or by three
    or more line ends each followed by a blank character, come out of
    [cleanup_text] separated by exactly one empty line. *)
Theorem X3_cleanup_text_blank_line (p q : str) :
  text_line p -> text_line q ->
  (forall n, 2 <= n ->
     cleanup_text (p ++ replicate n NL ++ q) = p ++ [NL; NL] ++ q)
  /\ (forall toks, Forall blank_line_pair toks -> 3 <= length toks ->
        cleanup_text (p ++ concat toks ++ q) = p ++ [NL; NL] ++ q).
Proof.
  intros Hp Hq. split.
  - intros n Hn. unfold cleanup_text.
    rewrite sub_blank_lines_scan, sub_newlines_scan.
    assert (scan (tokens_len (class_token (is_char NL)) 3) (fun _ => [NL; NL]) 0
                 (p ++ replicate n NL ++ q) = p ++ [NL; NL] ++ q) as ->.
    { destruct (decide (n = 2)) as [-> | Hn2].
      - apply few_newlines_scan_newlines.
        change (replicate 2 NL) with [NL; NL].
        rewrite count_newlines_two_lines by done. lia.
      - rewrite class_scan_run.
        + rewrite !few_newlines_scan_newlines
            by (rewrite count_newlines_line by done; lia). done.
        + lia.
        + apply Forall_replicate. apply N.eqb_refl.
        + rewrite length_replicate. lia.
        + intros a' c Ha. apply is_char_false.
          exact (text_line_last p a' c Hp Ha).
        + intros c b' Hb. apply is_char_false.
          exact (text_line_first q c b' Hq Hb). }
    rewrite few_newlines_scan_blank_lines
      by (rewrite count_newlines_two_lines by done; lia).
    by apply strip_two_lines.
  - intros toks Htoks Hlen. unfold cleanup_text.
    rewrite sub_blank_lines_scan, sub_newlines_scan.
    destruct Hp as (Hp0 & Hp1 & Hp2), Hq as (Hq0 & Hq1 & Hq2).
    assert (blank_line_token q = None) as Hqt.
    { destruct q as [|c q']; [done|]. inversion Hq2; subst.
      rewrite <- (app_nil_r (c :: q')). by eapply blank_line_token_line. }
    rewrite class_scan_id.
    2:{ apply no_newline_pair_runs. apply no_newline_pair_line; [done|].
        apply no_newline_pair_blank_pairs; [done|].
        rewrite <- (app_nil_r q). by apply no_newline_pair_line. }
    rewrite scan_app.
    + rewrite (few_newlines_scan_blank_lines _ p)
        by (rewrite count_char_none by done; lia).
      assert (tokens_len blank_line_token 3 (concat toks ++ q)
              = Some (length (concat toks))) as Hm.
      { unfold tokens_len. rewrite tokens_blank_pairs by done.
        destruct (Nat.leb_spec 3 (length toks)); [|lia].
        f_equal. rewrite length_app. lia. }
      rewrite (scan_match _ _ _ _ Hm) by (by apply blank_lines_len_wf).
      rewrite (drop_app_length (concat toks) q).
      rewrite (few_newlines_scan_blank_lines _ q)
        by (rewrite count_char_none by done; lia).
      by apply strip_two_lines.
    + done.
    + apply blank_lines_len_wf.
    + intros y x -> Hx. destruct x as [|c x']; [done|].
      apply Forall_app in Hp2 as [_ Hx2]. apply Forall_cons in Hx2 as [Hc _].
      rewrite (blank_lines_len_line (c :: x') _ c x' eq_refl Hc).
      pose proof (blank_lines_len_line (c :: x') [] c x' eq_refl Hc) as H0.
      by rewrite app_nil_r in H0.
Qed.

Lemma X3_cleanup_text_blank_line_witness :
  text_line (txt "a") /\ text_line (txt "b")
  /\ cleanup_text (txt "a" ++ replicate 4 NL ++ txt "b")
     = txt "a" ++ [NL; NL] ++ txt "b".
Proof.
  assert (forall c, text_line [c] <-> is_space c = false /\ c <> NL) as Hl.
  { intros c. split.
    - intros (_ & [H _] & Hn). split; [by eapply H | by inversion Hn].
    - intros [Hs Hn]. split; [done|]. split; [|by repeat constructor].
      split.
      + by intros c' s' [= <- _].
      + intros s' c' Heq. destruct s' as [|x [|y s']]; simplify_eq/=. done. }
  assert (text_line (txt "a")) as Ha by (apply Hl; by vm_compute).
  assert (text_line (txt "b")) as Hb by (apply Hl; by vm_compute).
  split; [exact Ha|]. split; [exact Hb|].
  apply (proj1 (X3_cleanup_text_blank_line (txt "a") (txt "b") Ha Hb) 4). lia.
Defined.

(** ** Escaping *)

Lemma replace1_dollars_escaped s :
  dollars_escaped (replace1 DOLLAR [BACKSLASH; DOLLAR] s).
Proof.
  unfold replace1. induction s as [|c s IH]; intros i; [done|].
  cbn [flat_map]. destruct (N.eqb_spec c DOLLAR) as [->|Hc].
  - destruct i as [|[|i]]; simpl; [done | by exists 0 |].
    intros (j & -> & Hj)%IH. by exists (S (S j)).
  - destruct i as [|i]; simpl; [by intros [= ->]|].
    intros (j & -> & Hj)%IH. by exists (S j).
Qed.

Lemma replace1_length old new s :
  length (replace1 old [new; old] s) = length s + count_char old s.
Proof.
  unfold replace1, count_char. induction s as [|c s IH]; [done|].
  cbn [flat_map List.filter]. rewrite length_app.
  destruct (c =? old)%N; simpl in *; lia.
Qed.

(** X4: [escape_dollars] puts a backslash before every dollar sign, one
    character each, and so does [escape] of the converter that the
    renderer builds, whatever the inherited [escape] returns. *)
Theorem X4_dollars_escaped (E : externals) (self : MarkdownRenderer) (text : str) :
  dollars_escaped (escape_dollars text)
  /\ length (escape_dollars text) = length text + count_char DOLLAR text
  /\ escape E (md_cls self) text = escape_dollars (base_escape E text)
  /\ dollars_escaped (escape E (md_cls self) text).
Proof.
  split; [apply replace1_dollars_escaped|].
  split; [apply replace1_length|].
  split; [done | apply replace1_dollars_escaped].
Qed.

(** ** Links *)

Lemma one_char_match_len p q s :
  match_len (Grp 1 (Cls p)) q s = one_char_len p s.
Proof.
  unfold match_len, one_char_len. simpl. destruct s as [|c s]; [done|].
  destruct (p c); simpl; [|done]. f_equal. lia.
Qed.

Lemma one_char_scan p repl s :
  scan (one_char_len p) repl 0 s
  = flat_map (fun c => if p c then repl [c] else [c]) s.
Proof.
  induction s as [|c s IH]; [done|].
  cbn [flat_map]. destruct (p c) eqn:Hc.
  - rewrite (scan_match _ _ 1) by (simpl; rewrite ?Hc; (done || lia)).
    simpl. by rewrite drop_0, IH.
  - rewrite scan_no_match_here by (simpl; by rewrite Hc). by rewrite IH.
Qed.

(** X7: [convert_a] hands the inherited handler the escaped text with a
    backslash put before each square bracket and each parenthesis, and
    nothing else changed. *)
Theorem X7_convert_a_brackets (E : externals) (self : Markdownify) (el : node)
    (text : str) (parent_tags : list string) :
  convert_a E self el text parent_tags
  = inherited E "a" el
      (flat_map (fun c => if is_bracket c then [BACKSLASH; c] else [c])
                (escape E self text))
      parent_tags
  /\ (forall c, is_bracket c = true <->
                c = 91%N \/ c = 93%N \/ c = 40%N \/ c = 41%N).
Proof.
  split.
  - unfold convert_a, re_sub.
    rewrite (sub_scan_scan _ (one_char_len is_bracket))
      by apply one_char_match_len.
    by rewrite one_char_scan.
  - intros c. unfold is_bracket.
    destruct (N.eqb_spec c 91), (N.eqb_spec c 93), (N.eqb_spec c 40),
      (N.eqb_spec c 41); simpl; split; intros H; try done; try tauto;
      try (destruct H as [?|[?|[?|?]]]; done).
Qed.

(** ** Pagination markers *)

Lemma startswith_spec prefix s :
  startswith prefix s = true <-> exists t, s = prefix ++ t.
Proof.
  unfold startswith, text_eqb. rewrite bool_decide_eq_true. split.
  - intros H. exists (drop (length prefix) s).
    transitivity (take (length prefix) s ++ drop (length prefix) s);
      [by rewrite take_drop | by rewrite H].
  - intros (t & ->). by rewrite take_app_length.
Qed.

Lemma endswith_spec suffix s :
  endswith suffix s = true <-> exists t, s = t ++ suffix.
Proof.
  unfold endswith, text_eqb. rewrite andb_true_iff, bool_decide_eq_true. split.
  - intros [_ H]. exists (take (length s - length suffix) s).
    transitivity (take (length s - length suffix) s
                  ++ drop (length s - length suffix) s);
      [by rewrite take_drop | by rewrite H].
  - intros (t & ->). rewrite length_app. split.
    + apply Nat.leb_le. lia.
    + replace (length t + length suffix - length suffix) with (length t) by lia.
      by rewrite drop_app_length.
Qed.


Lemma lstrip_spaces (W : str) :
  Forall (fun c => is_space c = true) W -> lstrip W = [].
Proof.
  unfold lstrip. induction 1 as [|c W Hc _ IH]; simpl; [done|]. by rewrite Hc.
Qed.

Lemma lstrip_app s (W : str) :
  Forall (fun c => is_space c = true) W ->
  lstrip (s ++ W) = lstrip s ++ W \/ (lstrip (s ++ W) = [] /\ lstrip s = []).
Proof.
  intros HW. unfold lstrip. induction s as [|c s IH]; simpl.
  - right. split; [by apply lstrip_spaces | done].
  - destruct (is_space c); [exact IH | by left].
Qed.

Lemma strip_app_spaces s (W : str) :
  Forall (fun c => is_space c = true) W -> strip (s ++ W) = strip s.
Proof.
  intros HW. unfold strip. destruct (lstrip_app s W HW) as [-> | [-> ->]].
  - by apply rstrip_app_spaces.
  - done.
Qed.

Lemma fix_pagination_on self markdown :
  renderer_paginate_output self = true ->
  exists m1,
    startswith [NL; NL] m1 = true /\
    (m1 = markdown \/ m1 = [NL; NL] ++ markdown) /\
    fix_pagination self markdown
    = if endswith (renderer_page_separator self) m1 then m1 ++ [NL; NL] else m1.
Proof.
  intros Hp. unfold fix_pagination. rewrite Hp.
  destruct (startswith [NL; NL] markdown) eqn:Hs; simpl.
  - exists markdown. auto.
  - exists ([NL; NL] ++ markdown). split; [|auto].
    apply startswith_spec. by eexists.
Qed.


(** X6: when the page separator is not empty and does not end with a
    newline, the pagination fix-up changes nothing the second time. *)
Theorem X6_fix_pagination_idempotent (self : MarkdownRenderer) (markdown : str) :
  (exists sep c, renderer_page_separator self = sep ++ [c] /\ c <> NL) ->
  fix_pagination self (fix_pagination self markdown)
  = fix_pagination self markdown.
Proof.
  intros (sep & c & Hsep & Hc).
  destruct (renderer_paginate_output self) eqn:Hp.
  2:{ unfold fix_pagination. by rewrite Hp. }
  destruct (fix_pagination_on self markdown Hp) as (m1 & Hs & _ & Hfix).
  set (m2 := fix_pagination self markdown) in *.
  assert (startswith [NL; NL] m2 = true) as Hs2.
  { rewrite Hfix. destruct (endswith _ m1); [|done].
    apply startswith_spec in Hs as (t & ->). apply startswith_spec.
    exists (t ++ [NL; NL]). by rewrite <- app_assoc. }
  assert (endswith (renderer_page_separator self) m2 = false) as He2.
  { rewrite Hfix. destruct (endswith _ m1) eqn:He; [|done].
    apply not_true_is_false. intros (t & Ht)%endswith_spec.
    rewrite Hsep in Ht. change [NL; NL] with ([NL] ++ [NL]) in Ht.
    rewrite !app_assoc in Ht. apply app_inj_tail in Ht as [_ Hnl]. by subst. }
  unfold fix_pagination at 1. rewrite Hp, Hs2. simpl. by rewrite He2.
Qed.

Lemma X6_fix_pagination_idempotent_witness :
  (exists sep c, renderer_page_separator paginating_renderer = sep ++ [c] /\ c <> NL)
  /\ fix_pagination paginating_renderer
       (fix_pagination paginating_renderer (txt "text"))
     = [NL; NL] ++ txt "text".
Proof.
  assert (exists sep c, renderer_page_separator paginating_renderer = sep ++ [c]
                        /\ c <> NL) as H.
  { exists (replicate 47 45%N), 45%N. split; [reflexivity | done]. }
  split; [exact H|].
  rewrite (X6_fix_pagination_idempotent paginating_renderer (txt "text") H).
  reflexivity.
Defined.

(** ** Blocks and paragraphs *)

Lemma text_eqb_true a b : text_eqb a b = true <-> a = b.
Proof. unfold text_eqb. apply bool_decide_eq_true. Qed.

Lemma text_eqb_false a b : text_eqb a b = false <-> a <> b.
Proof. unfold text_eqb. apply bool_decide_eq_false. Qed.

(** X8: [convert_div] raises in two cases only: [IndexError] for a class
    attribute with no class in it, [KeyError] for a page to paginate that
    has no [data-page-id]. A page to paginate gives its marker, the page
    identifier in braces and the separator between two empty lines, and
    then its text; any other block gives its text and an empty line, or
    nothing when the text is empty. *)
Theorem X8_convert_div (self : Markdownify) (el : node) (text : str) :
  (forall e,
     convert_div self el text = Raise e <->
     (node_class el = Some [] /\ e = IndexError) \/
     (paginate_output self = true /\
      (exists cl, node_class el = Some (txt "page" :: cl)) /\
      get el "data-page-id" = None /\ e = KeyError))
  /\ (forall cl page_id,
        paginate_output self = true ->
        node_class el = Some (txt "page" :: cl) ->
        get el "data-page-id" = Some page_id ->
        convert_div self el text
        = Ok ([NL; NL] ++ txt "{" ++ page_id ++ txt "}" ++ page_separator self
              ++ [NL; NL] ++ text))
  /\ (paginate_output self = false \/ node_class el = None \/
      (exists c cl, node_class el = Some (c :: cl) /\ c <> txt "page") ->
      node_class el <> Some [] ->
      convert_div self el text = Ok (default_convert_p text)).
Proof.
  unfold convert_div, getitem. split; [|split].
  - intros e. destruct (node_class el) as [[|c cl]|]; simpl.
    + split; [intros [= <-]; by left|].
      intros [[_ ->] | (_ & (cl & [=]) & _)]. done.
    + destruct (paginate_output self); simpl.
      * destruct (text_eqb c (txt "page")) eqn:Hc; simpl.
        -- apply text_eqb_true in Hc as ->.
           destruct (get el "data-page-id"); simpl.
           ++ split; [done|]. by intros [[[=] _] | (_ & _ & [=] & _)].
           ++ split; [intros [= <-]; right; eauto|].
              by intros [[[=] _] | (_ & _ & _ & ->)].
        -- apply text_eqb_false in Hc.
           split; [done|]. intros [[[=] _] | (_ & (cl' & [= -> _]) & _)]. done.
      * split; [done|]. by intros [[[=] _] | ([=] & _)].
    + destruct (paginate_output self); simpl;
        (split; [done|]; by intros [[[=] _] | (_ & (cl & [=]) & _)]).
  - intros cl page_id -> -> ->. done.
  - intros H Hne. destruct (node_class el) as [[|c cl]|]; simpl; [done| |].
    + destruct H as [-> | [[=] | (c' & cl' & [= <- <-] & Hc)]]; [done|].
      apply text_eqb_false in Hc. rewrite Hc. by rewrite andb_false_r.
    + by rewrite andb_false_r.
Qed.

Lemma BlockTypes_getitem_raises E name e :
  BlockTypes_getitem E name = Raise e -> e = KeyError.
Proof.
  unfold BlockTypes_getitem.
  repeat match goal with |- context [if ?b then _ else _] => destruct b end;
    by intros [= <-].
Qed.

(** X9: [convert_p] raises only for a paragraph marked as continued, and
    only [KeyError]: when the paragraph has no [block-type] attribute, or
    when the attribute names no member of [BlockTypes]. A continued
    paragraph of a list group gives its text as it is; one of any other
    kind but the two of plain text, and any paragraph that is not marked,
    gives its text and an empty line, or nothing when the text is
    empty. *)
Theorem X9_convert_p_cases (E : externals) (el : node) (text : str) :
  (forall e,
     convert_p E el text = Raise e <->
     has_continuation el = true /\ e = KeyError /\
     (get el "block-type" = None \/
      exists name, get el "block-type" = Some name /\
                   BlockTypes_getitem E name = Raise KeyError))
  /\ (has_continuation el = false ->
      convert_p E el text = Ok (default_convert_p text))
  /\ (forall name,
        has_continuation el = true -> get el "block-type" = Some name ->
        (BlockTypes_getitem E name = Ok ListGroup ->
         convert_p E el text = Ok text) /\
        (forall other, BlockTypes_getitem E name = Ok (OtherBlockType other) ->
                       convert_p E el text = Ok (default_convert_p text))).
Proof.
  unfold convert_p, getitem. split; [|split].
  - intros e. destruct (has_continuation el); simpl.
    2:{ split; [done | by intros [[=] _]]. }
    destruct (get el "block-type") as [name|]; simpl.
    2:{ split; [intros [= <-]; auto|]. by intros (_ & -> & _). }
    destruct (BlockTypes_getitem E name) as [bt|e'] eqn:Hbt; simpl.
    + split.
      * destruct bt; try done; by destruct (re_match _ _).
      * intros (_ & _ & [[=] | (name' & [= <-] & Hr)]). congruence.
    + pose proof (BlockTypes_getitem_raises E name e' Hbt) as ->.
      split; [intros [= <-]; eauto 6 | by intros (_ & -> & _)].
  - by intros ->.
  - intros name -> ->. simpl. split.
    + by intros ->.
    + by intros other ->.
Qed.

(** ** The text of a table cell *)

Lemma join_table_text_after_br parts :
  join_table_text (Some BR) parts = join_table_text None parts.
Proof. destruct parts as [|t parts]; [done|]. simpl. by destruct (text_eqb t BR). Qed.

Lemma join_table_text_br prev a b :
  join_table_text prev (a ++ BR :: b)
  = join_table_text prev a ++ BR ++ join_table_text None b.
Proof.
  revert prev. induction a as [|t a IH]; intros prev.
  - cbn [app join_table_text]. rewrite join_table_text_after_br.
    assert (text_eqb BR BR = true) as -> by by apply text_eqb_true.
    done.
  - cbn [app join_table_text]. rewrite IH. by rewrite <- !app_assoc.
Qed.

Lemma join_table_text_spaced p parts :
  p <> BR -> Forall (fun t => t <> BR) parts ->
  join_table_text (Some p) parts = concat (map (fun t => SPACE :: t) parts).
Proof.
  intros Hp Hparts. revert p Hp.
  induction Hparts as [|t parts Ht _ IH]; intros p Hp; [done|].
  cbn [join_table_text map concat].
  apply text_eqb_false in Ht as Ht'. apply text_eqb_false in Hp as Hp'.
  rewrite Ht', Hp'. by rewrite IH.
Qed.

Lemma join_spaced (parts : list str) t :
  join [SPACE] (t :: parts) = t ++ concat (map (fun t => SPACE :: t) parts).
Proof.
  revert t. induction parts as [|t2 parts IH]; intros t.
  - simpl. by rewrite app_nil_r.
  - change (join [SPACE] (t :: t2 :: parts))
      with (t ++ [SPACE] ++ join [SPACE] (t2 :: parts)).
    rewrite IH. done.
Qed.

Lemma join_table_text_no_br parts :
  Forall (fun t => t <> BR) parts ->
  join_table_text None parts = join [SPACE] parts.
Proof.
  intros Hparts. destruct Hparts as [|t parts Ht Hparts]; [done|].
  cbn [join_table_text]. apply text_eqb_false in Ht as Ht'. rewrite Ht'.
  rewrite join_table_text_spaced by done. by rewrite join_spaced.
Qed.

Lemma escape_dollars_plain s :
  Forall (fun c => c <> DOLLAR) s -> escape_dollars s = s.
Proof.
  unfold escape_dollars, replace1.
  induction 1 as [|c s Hc _ IH]; [done|]. cbn [flat_map].
  destruct (N.eqb_spec c DOLLAR); [done|]. by rewrite IH.
Qed.

Lemma escape_dollars_has_dollar s :
  ~ Forall (fun c => c <> DOLLAR) s -> In DOLLAR (escape_dollars s).
Proof.
  unfold escape_dollars, replace1. induction s as [|c s IH]; intros H.
  - destruct H. constructor.
  - cbn [flat_map]. apply in_or_app.
    destruct (N.eqb_spec c DOLLAR) as [->|Hc]; [left; simpl; auto|].
    right. apply IH. intros Hs. apply H. by constructor.
Qed.

Lemma escape_dollars_br s : escape_dollars s = BR -> s = BR.
Proof.
  intros H. destruct (decide (Forall (fun c => c <> DOLLAR) s)) as [Hs | Hs].
  - by rewrite escape_dollars_plain in H.
  - apply escape_dollars_has_dollar in Hs. rewrite H in Hs.
    simpl in Hs. unfold DOLLAR in Hs.
    repeat (destruct Hs as [Hs | Hs]; [done|]). done.
Qed.

(** X10: a line break in a table cell is kept as [<br>], with no space
    put before or after it: the text of the cell is the text of what is
    before the break, [<br>], and the text of what is after it. *)
Theorem X10_cell_text_line_break (E : externals) (name : string)
    (class : option (list str)) (attrs : list (string * str))
    (before after : list node) (br_class : option (list str))
    (br_attrs : list (string * str)) (br_contents : list node) :
  get_formatted_table_text E
    (Tag name class attrs
         (before ++ Tag "br" br_class br_attrs br_contents :: after))
  = get_formatted_table_text E (Tag name class attrs before)
    ++ txt "<br>"
    ++ get_formatted_table_text E (Tag name class attrs after).
Proof.
  unfold get_formatted_table_text. cbn [contents].
  rewrite flat_map_app. cbn [flat_map]. cbn [String.eqb Ascii.eqb Bool.eqb].
  cbn [app]. apply join_table_text_br.
Qed.

(** X11: in a cell made of text nodes only, the nodes that are blank are
    dropped, and the others are trimmed, get their dollar signs escaped
    and are joined by one space each (none of them being the text
    [<br>]). *)
Theorem X11_cell_text_words (E : externals) (name : string)
    (class : option (list str)) (attrs : list (string * str)) (words : list str) :
  Forall (fun s => strip s <> txt "<br>") words ->
  get_formatted_table_text E (Tag name class attrs (map NavigableString words))
  = join [SPACE]
         (map escape_dollars
              (List.filter (fun s => negb (text_eqb s [])) (map strip words))).
Proof.
  intros Hwords. unfold get_formatted_table_text. cbn [contents].
  match goal with
  | |- join_table_text None ?l = _ =>
      assert (l = map escape_dollars
                      (List.filter (fun s => negb (text_eqb s []))
                                   (map strip words))) as ->
  end.
  { clear. induction words as [|w words IH]; [done|].
    cbn [map flat_map List.filter]. rewrite IH. by destruct (strip w). }
  apply join_table_text_no_br. apply Forall_forall.
  intros t Ht%list_elem_of_In.
  apply in_map_iff in Ht as (st & <- & [Hst _]%filter_In).
  apply in_map_iff in Hst as (w & <- & Hw).
  intros Hbr%escape_dollars_br.
  eapply Forall_forall in Hwords; [|apply list_elem_of_In, Hw]. done.
Qed.

Lemma X11_cell_text_words_witness :
  Forall (fun s => strip s <> txt "<br>") [txt " cost "; txt "  "; txt "$5"]
  /\ get_formatted_table_text ascii_externals
       (Tag "td" None [] (map NavigableString [txt " cost "; txt "  "; txt "$5"]))
     = txt "cost" ++ [SPACE; BACKSLASH; DOLLAR] ++ txt "5".
Proof.
  assert (Forall (fun s => strip s <> txt "<br>")
                 [txt " cost "; txt "  "; txt "$5"]) as H
    by (repeat constructor; by vm_compute).
  split; [exact H|].
  rewrite (X11_cell_text_words ascii_externals "td" None [] _ H). reflexivity.
Defined.


(** ** Tables: the lines and their layout *)

Lemma render_rows_header_added widths (g : grid) :
  render_rows widths true g = map (render_row widths) g.
Proof.
  induction g as [|row g IH]; [done|]. simpl. rewrite andb_false_r. by rewrite IH.
Qed.

Lemma render_rows_skip widths (g : grid) :
  render_rows widths false g =
  match skip_blank_rows g with
  | [] => []
  | row :: rest =>
      render_row widths row :: header_line widths :: map (render_row widths) rest
  end.
Proof.
  induction g as [|row g IH]; [done|]. simpl. rewrite andb_true_r.
  destruct (is_empty_line row); [exact IH|]. by rewrite render_rows_header_added.
Qed.

Lemma is_empty_line_spec (row : list (option str)) :
  is_empty_line row = true <->
  forall j s, row !! j = Some (Some s) -> s = [].
Proof.
  unfold is_empty_line. rewrite forallb_forall. split.
  - intros H j s Hj. specialize (H (Some s)).
    destruct s; [done|]. discriminate H.
    apply list_elem_of_In. by eapply list_elem_of_lookup_2.
  - intros H cell [j Hj]%list_elem_of_In%list_elem_of_lookup.
    destruct cell as [[|c s]|]; [done| |done]. by specialize (H j _ Hj).
Qed.

(** X12: the lines of a table. Blank rows at the top of the grid give no
    line; the first row that is not blank gives the first line, the line
    of dashes comes second, and every row after it gives a line, blank
    or not. A grid with blank rows only gives no line at all, and the
    table is then four newlines. *)
Theorem X12_table_header_second (E : externals) (self : Markdownify)
    (el : node) (total_cols : Z) (g : grid) (log : list placement) :
  let widths := column_widths total_cols g in
  (markdown_lines total_cols g =
   match skip_blank_rows g with
   | [] => []
   | row :: rest =>
       render_row widths row :: header_line widths
       :: map (render_row widths) rest
   end)
  /\ (forall row, is_empty_line row = true <->
                  forall j s, row !! j = Some (Some s) -> s = [])
  /\ (table_grid E el = Ok (total_cols, g, log) ->
      html_tables_in_markdown self = false ->
      Forall (fun row => is_empty_line row = true) g ->
      convert_table E self el = Ok [NL; NL; NL; NL]).
Proof.
  intros widths. split; [apply render_rows_skip|].
  split; [apply is_empty_line_spec|].
  intros Hgrid Hflag Hblank. unfold convert_table. rewrite Hflag, Hgrid. simpl.
  unfold markdown_lines. rewrite render_rows_skip.
  assert (skip_blank_rows g = []) as ->; [|done].
  clear Hgrid. induction Hblank as [|row g Hrow _ IH]; [done|].
  simpl. by rewrite Hrow.
Qed.

(** *** Column widths *)

Lemma nth_insert_max (w : list nat) k v j :
  k < length w ->
  nth j (<[k := v]> w) 0 = if decide (j = k) then v else nth j w 0.
Proof.
  intros Hk. rewrite !nth_lookup. case_decide as Hj.
  - subst. by rewrite list_lookup_insert_eq.
  - by rewrite list_lookup_insert_ne.
Qed.

Lemma widths_row_fold (row : list (option str)) : forall k (w : list nat),
  k + length row <= length w ->
  let w' :=
    foldl (fun widths '(col_idx, cell) =>
             match cell with
             | Some s => <[col_idx := Nat.max (nth col_idx widths 0) (length s)]> widths
             | None => widths
             end)
          w (imap (fun col_idx cell => (k + col_idx, cell)) row) in
  length w' = length w /\
  forall j, nth j w' 0 =
            if decide (k <= j < k + length row)
            then Nat.max (nth j w 0) (text_len (row !! (j - k)))
            else nth j w 0.
Proof.
  induction row as [|c row IH]; intros k w Hlen.
  - simpl. split; [done|]. intros j. case_decide; [lia | done].
  - cbv zeta. cbn [imap foldl]. simpl in Hlen.
    set (w1 := match c with
               | Some s => <[k + 0 := Nat.max (nth (k + 0) w 0) (length s)]> w
               | None => w
               end).
    assert (length w1 = length w) as Hw1.
    { unfold w1. destruct c; [apply length_insert | done]. }
    assert (forall j, nth j w1 0 =
                      if decide (j = k) then Nat.max (nth k w 0) (text_len (Some c))
                      else nth j w 0) as Hn1.
    { intros j. unfold w1. rewrite Nat.add_0_r. destruct c as [s|]; simpl.
      - rewrite nth_insert_max by lia. done.
      - case_decide; [subst; lia | done]. }
    rewrite (imap_ext _ (fun col_idx cell => (S k + col_idx, cell)))
      by (intros; simpl; f_equal; lia).
    specialize (IH (S k) w1 ltac:(lia)). cbv zeta in IH.
    destruct IH as [IHlen IHn].
    split; [etransitivity; [exact IHlen | exact Hw1]|].
    intros j. etransitivity; [apply IHn|]. rewrite Hn1.
    repeat case_decide; simpl length in *; try lia.
    + replace (j - k) with (S (j - S k)) by lia. done.
    + subst. by rewrite Nat.sub_diag.
Qed.

Lemma text_len_beyond (row : list (option str)) j :
  length row <= j -> text_len (row !! j) = 0.
Proof. intros H. by rewrite lookup_ge_None_2. Qed.

Lemma column_widths_nth tc (g : grid) j :
  Forall (fun row => length row <= Z.to_nat tc) g ->
  nth j (column_widths tc g) 0 = column_max g j.
Proof.
  unfold column_widths.
  assert (forall w : list nat,
            Forall (fun row => length row <= length w) g ->
            nth j (foldl (fun widths row =>
                            foldl (fun widths '(col_idx, cell) =>
                                     match cell with
                                     | Some s =>
                                         <[col_idx := Nat.max (nth col_idx widths 0)
                                                              (length s)]> widths
                                     | None => widths
                                     end)
                                  widths (imap (fun col_idx cell => (col_idx, cell)) row))
                         w g) 0
            = Nat.max (nth j w 0) (column_max g j)) as H.
  { induction g as [|row g IH]; intros w Hg.
    - simpl. unfold column_max. simpl. lia.
    - apply Forall_cons in Hg as [Hrow Hg]. cbn [foldl].
      match goal with
      | |- context [foldl ?F (foldl ?G w ?l) g] => set (w' := foldl G w l)
      end.
      destruct (widths_row_fold row 0 w ltac:(simpl; lia)) as [Hlen Hn].
      assert (length w' = length w) as Hlen' by exact Hlen.
      assert (forall j, nth j w' 0 =
                        if decide (0 <= j < 0 + length row)
                        then Nat.max (nth j w 0) (text_len (row !! (j - 0)))
                        else nth j w 0) as Hn' by exact Hn.
      clearbody w'. clear Hlen Hn.
      rewrite IH by (by rewrite Hlen'). rewrite Hn'.
      unfold column_max. cbn [map foldr]. rewrite Nat.sub_0_r.
      case_decide.
      + lia.
      + rewrite (text_len_beyond row j) by lia. lia. }
  intros Hg. rewrite H by (by rewrite length_replicate).
  rewrite nth_lookup.
  destruct (replicate (Z.to_nat tc) 0 !! j) as [x|] eqn:Hx; simpl; [|done].
  by apply lookup_replicate in Hx as [-> _].
Qed.

Lemma column_max_bound (g : grid) r j s :
  cell_at g r j = Some (Some s) -> length s <= column_max g j.
Proof.
  unfold cell_at, column_max. revert r.
  induction g as [|row g IH]; intros r; [done|].
  cbn [map foldr]. destruct r as [|r]; simpl.
  - intros ->. simpl. lia.
  - intros H. specialize (IH r H). lia.
Qed.

Lemma column_max_attained (g : grid) j :
  column_max g j = 0 \/
  exists r s, cell_at g r j = Some (Some s) /\ length s = column_max g j.
Proof.
  unfold column_max. induction g as [|row g IH]; [by left|].
  cbn [map foldr].
  destruct (Nat.max_spec (text_len (row !! j))
                         (foldr Nat.max 0 (map (fun row => text_len (row !! j)) g)))
    as [[Hlt ->] | [Hle ->]].
  - destruct IH as [H0 | (r & s & Hr & Hs)]; [by left|].
    right. by exists (S r), s.
  - destruct (row !! j) as [[s|]|] eqn:Hj; simpl; [|by left|by left].
    right. exists 0, s. unfold cell_at. simpl. by rewrite Hj.
Qed.

Lemma table_grid_shape E el tc g log :
  table_grid E el = Ok (tc, g, log) ->
  shape (length (find_all ["tr"] el)) (Z.to_nat tc) g.
Proof.
  intros H.
  by destruct (table_grid_cells E (fun _ => True) I (fun _ => I) _ _ _ _ H).
Qed.

(** X13: the width of a column of a table is the length of the longest
    text in that column of the grid, and 0 for a column without text. *)
Theorem X13_column_widths (E : externals) (el : node) (total_cols : Z)
    (g : grid) (log : list placement) :
  table_grid E el = Ok (total_cols, g, log) ->
  let widths := column_widths total_cols g in
  length widths = Z.to_nat total_cols
  /\ (forall r j s, cell_at g r j = Some (Some s) -> length s <= nth j widths 0)
  /\ (forall j, nth j widths 0 = 0 \/
                exists r s, cell_at g r j = Some (Some s) /\
                            length s = nth j widths 0).
Proof.
  intros Hgrid widths. apply table_grid_shape in Hgrid as [_ Hshape].
  assert (forall j, nth j widths 0 = column_max g j) as Hw.
  { intros j. apply column_widths_nth.
    eapply Forall_impl; [exact Hshape|]. simpl. intros row ->. done. }
  split; [apply column_widths_length|]. split.
  - intros r j s Hs. rewrite Hw. by eapply column_max_bound.
  - intros j. rewrite Hw. apply column_max_attained.
Qed.

Lemma X13_column_widths_witness :
  exists g log,
    table_grid ascii_externals rowspan_example = Ok (2%Z, g, log)
    /\ column_widths 2 g = [1; 1]
    /\ forall r j s, cell_at g r j = Some (Some s) ->
                     length s <= nth j (column_widths 2 g) 0.
Proof.
  destruct (table_grid ascii_externals rowspan_example)
    as [[[tc g] log]|] eqn:Hgrid; [|vm_compute in Hgrid; discriminate Hgrid].
  pose proof Hgrid as Heq. vm_compute in Heq. injection Heq as <- Hg _.
  exists g, log. split; [done|]. split; [by rewrite <- Hg|].
  exact (proj1 (proj2 (X13_column_widths ascii_externals rowspan_example
                         _ g log Hgrid))).
Defined.

(** *** Alignment *)

Lemma join_length (p : str) (ps : list str) :
  length (join [PIPE] (p :: ps)) + 1
  = sum_list_with (fun p => length p + 1) (p :: ps).
Proof.
  revert p. induction ps as [|p2 ps IH]; intros p.
  - simpl. lia.
  - change (join [PIPE] (p :: p2 :: ps))
      with (p ++ [PIPE] ++ join [PIPE] (p2 :: ps)).
    pose proof (IH p2) as Hj.
    rewrite !length_app. change (length [PIPE]) with 1.
    cbn [sum_list_with] in *. unfold str, char in *. lia.
Qed.

Lemma framed_length (parts : list str) :
  parts <> [] ->
  length ([PIPE] ++ join [PIPE] parts ++ [PIPE])
  = sum_list_with (fun p => length p + 1) parts + 1.
Proof.
  intros Hne. destruct parts as [|p ps]; [done|].
  pose proof (join_length p ps) as Hj.
  rewrite !length_app. change (length [PIPE]) with 1.
  unfold str, char in *. lia.
Qed.

Lemma sum_list_with_pointwise {A B} (f : A -> nat) (g : B -> nat)
    (l1 : list A) : forall l2 : list B,
  length l1 = length l2 ->
  (forall j x y, l1 !! j = Some x -> l2 !! j = Some y -> f x = g y) ->
  sum_list_with f l1 = sum_list_with g l2.
Proof.
  induction l1 as [|x l1 IH]; intros [|y l2] Hlen H; try done.
  simpl. rewrite (H 0 x y) by done. f_equal. apply IH.
  - by injection Hlen.
  - intros j x' y' Hx Hy. by apply (H (S j)).
Qed.

(** X14: the lines of a table are aligned. With at least one column,
    every line of the table, the line of dashes included, has the same
    length: one more than the sum over the columns of the width plus
    three. *)
Theorem X14_table_lines_aligned (E : externals) (el : node) (total_cols : Z)
    (g : grid) (log : list placement) :
  table_grid E el = Ok (total_cols, g, log) ->
  (1 <= total_cols)%Z ->
  forall line, In line (markdown_lines total_cols g) ->
    length line
    = sum_list_with (fun width => width + 3) (column_widths total_cols g) + 1.
Proof.
  intros Hgrid Htc line Hline.
  apply table_grid_shape in Hgrid as [_ Hshape].
  set (widths := column_widths total_cols g) in *.
  assert (length widths = Z.to_nat total_cols) as Hlen
    by apply column_widths_length.
  assert (forall j, nth j widths 0 = column_max g j) as Hw.
  { intros j. apply column_widths_nth.
    eapply Forall_impl; [exact Hshape|]. simpl. intros row ->. done. }
  unfold markdown_lines in Hline. fold widths in Hline.
  apply render_rows_elem in Hline as [-> | (row & Hrow & ->)].
  - unfold header_line. rewrite framed_length.
    + f_equal. apply sum_list_with_pointwise; [by rewrite length_map|].
      intros j x y Hx Hy. rewrite list_lookup_fmap, Hy in Hx.
      injection Hx as <-. rewrite length_replicate. lia.
    + intros Hnil. apply (f_equal length) in Hnil.
      rewrite length_map, Hlen in Hnil. simpl in Hnil. lia.
  - apply list_elem_of_In, list_elem_of_lookup in Hrow as [r Hr].
    assert (length row = Z.to_nat total_cols) as Hrlen.
    { eapply Forall_lookup in Hshape; [|exact Hr]. done. }
    unfold render_row. cbv zeta. rewrite framed_length.
    + f_equal. apply sum_list_with_pointwise.
      { rewrite length_imap. unfold str, char in *. lia. }
      intros j x y Hx Hy. rewrite list_lookup_imap in Hx.
      apply fmap_Some in Hx as (cell & Hcell & ->).
      rewrite (nth_lookup_Some _ _ 0 _ Hy).
      assert (length (default [] cell) <= nth j widths 0) as Hb.
      { destruct cell as [s|]; simpl; [|lia].
        rewrite Hw. apply (column_max_bound g r j s).
        unfold cell_at, grid in *. by rewrite Hr. }
      rewrite (nth_lookup_Some _ _ 0 _ Hy) in Hb.
      rewrite !length_app, length_replicate. simpl. lia.
    + intros Hnil. apply (f_equal length) in Hnil.
      rewrite length_imap in Hnil. simpl in Hnil. unfold str, char in *. lia.
Qed.

Lemma X14_table_lines_aligned_witness :
  (exists log, table_grid ascii_externals rowspan_example
     = Ok (2%Z, [[Some (txt "A"); Some (txt "B")];
                 [Some (txt ""); Some (txt "C")]], log))
  /\ (1 <= 2)%Z
  /\ (forall line,
        In line (markdown_lines 2 [[Some (txt "A"); Some (txt "B")];
                                   [Some (txt ""); Some (txt "C")]]) ->
        length line = 9).
Proof.
  destruct (table_grid ascii_externals rowspan_example)
    as [[[tc g] log]|] eqn:Hgrid; [|vm_compute in Hgrid; discriminate Hgrid].
  pose proof Hgrid as Heq. vm_compute in Heq.
  injection Heq as <- <- _.
  split; [by eexists|]. split; [lia|].
  exact (X14_table_lines_aligned ascii_externals rowspan_example _ _ _ Hgrid
           ltac:(lia)).
Defined.

(** ** Tables: the count of columns *)

Lemma counter_bump m j c k :
  counter (bump m j c) k = (counter m k + if bool_decide (k = j) then c else 0)%Z.
Proof.
  unfold counter, bump. case_bool_decide as Hk.
  - subst. by rewrite lookup_insert_eq.
  - rewrite lookup_insert_ne by done. lia.
Qed.

Lemma counter_bumps i c n : forall m k,
  counter (foldl (fun m r => bump m (i + r) c) m (seq 0 n)) k
  = (counter m k + if bool_decide (i <= k < i + n)%nat then c else 0)%Z.
Proof.
  induction n as [|n IH]; intros m k.
  - simpl. case_bool_decide; lia.
  - rewrite seq_S, foldl_snoc, counter_bump, IH. simpl.
    repeat case_bool_decide; lia.
Qed.

Lemma sum_Z_app l1 l2 : sum_Z (l1 ++ l2) = (sum_Z l1 + sum_Z l2)%Z.
Proof. unfold sum_Z. induction l1 as [|x l1 IH]; simpl; lia. Qed.

Section FirstPass.
Variable E : externals.
Variables cs rs : node -> Z.

Lemma count_cells_spec i cells : forall row_cols m,
  (forall cell, In cell cells -> spans_read E cs rs cell) ->
  exists m',
    count_cells E i cells row_cols m
    = Ok ((row_cols + sum_Z (map cs cells))%Z, m') /\
    forall k, counter m' k
              = (counter m k + sum_Z (map (fun cell => bumps cs rs i cell k) cells))%Z.
Proof using Type.
  induction cells as [|cell cells IH]; intros row_cols m Hok.
  - exists m. split; [simpl; f_equal; f_equal; lia|]. intros k. simpl. lia.
  - destruct (Hok cell) as [Hc Hr]; [by left|].
    cbn [count_cells]. rewrite Hc, Hr. simpl.
    destruct (IH (row_cols + cs cell)%Z
                 (foldl (fun m r => bump m (i + r) (cs cell)) m
                        (seq 0 (Z.to_nat (rs cell - 1)))))
      as (m' & -> & Hm').
    { intros c Hin. apply Hok. by right. }
    exists m'. split; [f_equal; f_equal; lia|].
    intros k. rewrite Hm', counter_bumps. unfold bumps at 2. lia.
Qed.

Lemma count_rows_spec rows : forall i m,
  (forall cell, In cell (flat_map (find_all ["td"; "th"]) rows) -> spans_read E cs rs cell) ->
  exists colspans,
    count_rows E i rows m = Ok colspans /\
    length colspans = length rows /\
    forall j row, rows !! j = Some row ->
      colspans !! j
      = Some (counter m (i + j) + own_cols cs row
              + sum_Z (imap (fun j' row' =>
                               sum_Z (map (fun cell => bumps cs rs (i + j') cell (i + j))
                                          (find_all ["td"; "th"] row')))
                            (take j rows)))%Z.
Proof using Type.
  induction rows as [|row rows IH]; intros i m Hok.
  - exists []. by repeat split.
  - cbn [flat_map] in Hok. cbn [count_rows].
    destruct (count_cells_spec i (find_all ["td"; "th"] row)
                               (default 0%Z (m !! i)) m) as (m' & -> & Hm').
    { intros c Hin. apply Hok, in_or_app. by left. }
    simpl.
    destruct (IH (S i) m') as (l & -> & Hlen & Hl).
    { intros c Hin. apply Hok, in_or_app. by right. }
    simpl. eexists. split; [done|]. split; [simpl; by rewrite Hlen|].
    intros [|j] row2 Hrow2.
    + injection Hrow2 as <-. simpl. rewrite Nat.add_0_r.
      unfold own_cols, counter. f_equal. lia.
    + simpl in Hrow2. etransitivity; [exact (Hl j row2 Hrow2)|].
      f_equal. cbn [take imap]. change (sum_Z (?x :: ?l)) with (x + sum_Z l)%Z.
      rewrite Hm'. rewrite Nat.add_0_r.
      replace (i + S j) with (S i + j) by lia.
      rewrite (imap_ext
                 ((fun j' row' =>
                     sum_Z (map (fun cell => bumps cs rs (i + j') cell (S i + j))
                                (find_all ["td"; "th"] row'))) ∘ S)
                 (fun j' row' =>
                     sum_Z (map (fun cell => bumps cs rs (S i + j') cell (S i + j))
                                (find_all ["td"; "th"] row'))))
        by (intros; simpl; by replace (i + S i0) with (S i + i0) by lia).
      lia.
Qed.

End FirstPass.

Lemma sum_Z_zero l : Forall (fun x => x = 0%Z) l -> sum_Z l = 0%Z.
Proof. unfold sum_Z. induction 1 as [|x l -> _ IH]; simpl; lia. Qed.

Lemma carried_cols_bumps cs rs rows i :
  sum_Z (imap (fun j' row' =>
                 sum_Z (map (fun cell => bumps cs rs (0 + j') cell (0 + i))
                            (find_all ["td"; "th"] row')))
              (take i rows))
  = carried_cols cs rs rows i.
Proof.
  unfold carried_cols. f_equal. apply imap_ext. intros j' row' Hj'.
  apply lookup_lt_Some in Hj'. rewrite length_take in Hj'.
  f_equal. apply map_ext. intros cell. unfold bumps. simpl.
  apply f_equal with (f := fun b : bool => if b then cs cell else 0%Z).
  apply bool_decide_ext. lia.
Qed.

Lemma carried_cols_none cs rs rows i :
  (forall cell, In cell (flat_map (find_all ["td"; "th"]) rows) -> (rs cell <= 2)%Z) ->
  carried_cols cs rs rows i = 0%Z.
Proof.
  intros Hrs. unfold carried_cols. apply sum_Z_zero. apply Forall_forall.
  intros x Hx%list_elem_of_lookup. destruct Hx as [j' Hx].
  rewrite list_lookup_imap in Hx. apply fmap_Some in Hx as (row' & Hrow' & ->).
  pose proof (lookup_lt_Some _ _ _ Hrow') as Hlt. rewrite length_take in Hlt.
  apply sum_Z_zero. apply Forall_forall.
  intros y Hy%list_elem_of_In. apply in_map_iff in Hy as (cell & <- & Hcell).
  case_bool_decide as Hd; [|done]. exfalso.
  assert (rs cell <= 2)%Z; [|lia].
  apply Hrs. apply in_flat_map. exists row'. split; [|done].
  apply list_elem_of_In. apply lookup_take_Some in Hrow' as [Hrow' _].
  by eapply list_elem_of_lookup_2.
Qed.

(** X15: the count of columns of a table whose span attributes are
    integers. Each row counts the colspans of its own cells and, for each
    cell of a row before it, the colspan of that cell when the row is at
    most [rowspan - 2] rows further down; the count of the table is the
    largest of these, 0 for a table without rows. So a cell adds nothing
    to the row just below it unless its rowspan is 3 or more, and when no
    rowspan is above 2 each row counts its own cells only. *)
Theorem X15_column_count (E : externals) (el : node) (cs rs : node -> Z) :
  (forall cell, In cell (table_cells el) -> spans_read E cs rs cell) ->
  let rows := find_all ["tr"] el in
  exists colspans,
    table_total_cols E el = Ok (max_or_zero colspans)
    /\ length colspans = length rows
    /\ (forall i row, rows !! i = Some row ->
          colspans !! i = Some (own_cols cs row + carried_cols cs rs rows i)%Z)
    /\ ((forall cell, In cell (table_cells el) -> (rs cell <= 2)%Z) ->
        colspans = map (own_cols cs) rows).
Proof.
  intros Hok rows.
  destruct (count_rows_spec E cs rs rows 0 ∅ Hok) as (l & Hcount & Hlen & Hl).
  exists l. unfold table_total_cols. fold rows. rewrite Hcount.
  split; [done|]. split; [done|].
  assert (forall i row, rows !! i = Some row ->
            l !! i = Some (own_cols cs row + carried_cols cs rs rows i)%Z) as Hrow.
  { intros i row Hi. rewrite (Hl i row Hi), carried_cols_bumps.
    unfold counter. rewrite lookup_empty. simpl. done. }
  split; [exact Hrow|].
  intros Hrs. apply list_eq. intros i. rewrite list_lookup_fmap.
  destruct (rows !! i) as [row|] eqn:Hi; simpl.
  - rewrite (Hrow i row Hi), carried_cols_none by done. f_equal. lia.
  - apply lookup_ge_None. apply lookup_ge_None in Hi. lia.
Qed.

Lemma X15_column_count_witness :
  (forall cell, In cell (table_cells tall_example) ->
     spans_read ascii_externals (fun _ => 1%Z)
                (fun cell => spec_span ascii_externals cell "rowspan") cell)
  /\ exists colspans,
       table_total_cols ascii_externals tall_example = Ok (max_or_zero colspans)
       /\ colspans !! 1 = Some 2%Z /\ colspans !! 2 = Some 2%Z.
Proof.
  assert (forall cell, In cell (table_cells tall_example) ->
            spans_read ascii_externals (fun _ => 1%Z)
                       (fun cell => spec_span ascii_externals cell "rowspan") cell)
    as H.
  { intros cell Hin. vm_compute in Hin.
    destruct Hin as [<- | [<- | [<- | [<- | []]]]]; by split. }
  split; [exact H|].
  destruct (X15_column_count ascii_externals tall_example _ _ H)
    as (colspans & Htotal & _ & Hrow & _).
  exists colspans. split; [exact Htotal|].
  split; [exact (Hrow 1 _ eq_refl) | exact (Hrow 2 _ eq_refl)].
Defined.

(** ** Tables: the exceptions *)

Lemma py_int_raises E s e : py_int E s = Raise e -> e = ValueError.
Proof.
  unfold py_int.
  assert (forall sign ds,
            match parse_digits E 0 false ds with
            | Some n =>
                if int_limit_exceeded E
                     (length (List.filter (fun c => negb (c =? 95)%N) ds))
                then Raise ValueError
                else Ok (sign * n)%Z
            | None => Raise ValueError
            end = Raise e -> e = ValueError) as H.
  { intros sign ds. destruct (parse_digits E 0 false ds); [|by intros [= <-]].
    destruct (int_limit_exceeded E _); [by intros [= <-] | done]. }
  destruct (rev (drop_while int_space (rev (drop_while int_space s))))
    as [|c ds]; [apply H|].
  destruct (N.eq_dec c 43%N) as [->|H43]; [apply H|].
  destruct (N.eq_dec c 45%N) as [->|H45]; [apply H|].
  intros Hr. apply (H 1%Z (c :: ds)). rewrite <- Hr. clear Hr.
  destruct c as [|p]; [done|].
  do 6 (destruct p as [p|p|]; try done).
Qed.

Lemma cell_span_raises E cell attr e :
  cell_span E cell attr = Raise e -> e = ValueError.
Proof.
  unfold cell_span. destruct (get cell attr); [apply py_int_raises | done].
Qed.

Lemma cell_span_cases E cell :
  (exists c r, cell_span E cell "colspan" = Ok c /\ cell_span E cell "rowspan" = Ok r)
  \/ bad_span E cell.
Proof.
  destruct (cell_span E cell "colspan") as [c|e] eqn:Hc.
  - destruct (cell_span E cell "rowspan") as [r|e] eqn:Hr; [left; eauto|].
    right. exists "rowspan"%string. rewrite Hr.
    by rewrite (cell_span_raises _ _ _ _ Hr); auto.
  - right. exists "colspan"%string. rewrite Hc.
    by rewrite (cell_span_raises _ _ _ _ Hc); auto.
Qed.

Lemma count_cells_result E i cells : forall row_cols m,
  match count_cells E i cells row_cols m with
  | Ok _ => forall cell, In cell cells -> ~ bad_span E cell
  | Raise e => e = ValueError /\ exists cell, In cell cells /\ bad_span E cell
  end.
Proof.
  induction cells as [|cell cells IH]; intros row_cols m; [by intros cell []|].
  cbn [count_cells].
  destruct (cell_span E cell "colspan") as [c|e] eqn:Hc; simpl.
  2:{ pose proof (cell_span_raises _ _ _ _ Hc) as ->. split; [done|].
      exists cell. split; [by left|]. exists "colspan"%string. auto. }
  destruct (cell_span E cell "rowspan") as [r|e] eqn:Hr; simpl.
  2:{ pose proof (cell_span_raises _ _ _ _ Hr) as ->. split; [done|].
      exists cell. split; [by left|]. exists "rowspan"%string. auto. }
  match goal with |- context [count_cells E i cells ?rc ?m'] =>
    specialize (IH rc m'); destruct (count_cells E i cells rc m') end.
  - intros cell' [<- | Hin]; [|by apply IH].
    intros (attr & [-> | ->] & Hbad); congruence.
  - destruct IH as (-> & cell' & Hin & Hbad). split; [done|].
    exists cell'. split; [by right | done].
Qed.

Lemma count_rows_result E rows : forall i m,
  match count_rows E i rows m with
  | Ok _ => forall cell, In cell (flat_map (find_all ["td"; "th"]) rows) ->
                         ~ bad_span E cell
  | Raise e => e = ValueError /\
               exists cell, In cell (flat_map (find_all ["td"; "th"]) rows) /\
                            bad_span E cell
  end.
Proof.
  induction rows as [|row rows IH]; intros i m; [by intros cell []|].
  cbn [count_rows flat_map].
  pose proof (count_cells_result E i (find_all ["td"; "th"] row)
                                 (default 0%Z (m !! i)) m) as Hcells.
  destruct (count_cells E i _ _ m) as [[row_cols m']|e]; simpl.
  2:{ destruct Hcells as (-> & cell & Hin & Hbad). split; [done|].
      exists cell. split; [apply in_or_app; by left | done]. }
  specialize (IH (S i) m'). destruct (count_rows E (S i) rows m'); simpl.
  - intros cell [Hin | Hin]%in_app_or; [by apply Hcells | by apply IH].
  - destruct IH as (-> & cell & Hin & Hbad). split; [done|].
    exists cell. split; [apply in_or_app; by right | done].
Qed.

Lemma skip_filled_raises fuel row tc : forall col e,
  skip_filled fuel row tc col = Raise e -> e = IndexError.
Proof.
  induction fuel as [|fuel IH]; intros col e; simpl.
  - destruct (col <? tc)%Z; [|done].
    destruct (py_index _ _); [|by intros [= <-]].
    by destruct (row !! _) as [[?|]|].
  - destruct (col <? tc)%Z; [|done].
    destruct (py_index _ _); [|by intros [= <-]].
    destruct (row !! _) as [[?|]|]; [apply IH | done | done].
Qed.

Lemma place_cell_raises E tc i st cell e :
  place_cell E tc i st cell = Raise e ->
  e = IndexError \/ (e = ValueError /\ bad_span E cell).
Proof.
  destruct st as [[g cur] log]. unfold place_cell.
  destruct (g !! i) as [row|]; simpl; [|intros [= <-]; by left].
  destruct (skip_filled _ row tc cur) as [c|e'] eqn:Hs; simpl.
  2:{ intros [= <-]. left. by eapply skip_filled_raises. }
  destruct (cell_span E cell "rowspan") as [r|e'] eqn:Hr; simpl.
  2:{ intros [= <-]. right. pose proof (cell_span_raises _ _ _ _ Hr) as ->.
      split; [done|]. exists "rowspan"%string. auto. }
  destruct (cell_span E cell "colspan") as [cspan|e'] eqn:Hc; simpl.
  2:{ intros [= <-]. right. pose proof (cell_span_raises _ _ _ _ Hc) as ->.
      split; [done|]. exists "colspan"%string. auto. }
  by destruct (tc <=? c)%Z.
Qed.

Lemma place_cells_raises E tc i cells : forall st e,
  place_cells E tc i st cells = Raise e ->
  e = IndexError \/
  (e = ValueError /\ exists cell, In cell cells /\ bad_span E cell).
Proof.
  induction cells as [|cell cells IH]; intros st e; [done|].
  rewrite place_cells_cons.
  destruct (place_cell E tc i st cell) as [st1|e1] eqn:H1.
  - intros [-> | (-> & c & Hin & Hbad)]%IH; [by left|].
    right. split; [done|]. exists c. split; [by right | done].
  - intros [= <-]. apply place_cell_raises in H1 as [-> | [-> Hbad]]; [by left|].
    right. split; [done|]. exists cell. split; [by left | done].
Qed.

Lemma place_rows_raises E tc rows : forall i g log e,
  place_rows E tc i g log rows = Raise e ->
  e = IndexError \/
  (e = ValueError /\
   exists cell, In cell (flat_map (find_all ["td"; "th"]) rows) /\ bad_span E cell).
Proof.
  induction rows as [|row rows IH]; intros i g log e; [done|].
  rewrite place_rows_cons. cbn [flat_map].
  destruct (place_cells E tc i (g, 0%Z, log) _) as [[[g1 cur1] log1]|e1] eqn:H1.
  - intros [-> | (-> & c & Hin & Hbad)]%IH; [by left|].
    right. split; [done|]. exists c. split; [apply in_or_app; by right | done].
  - intros [= <-].
    apply place_cells_raises in H1 as [-> | (-> & c & Hin & Hbad)]; [by left|].
    right. split; [done|]. exists c. split; [apply in_or_app; by left | done].
Qed.

Lemma table_grid_raises E el e :
  table_grid E el = Raise e ->
  (e = ValueError <-> exists cell, In cell (table_cells el) /\ bad_span E cell)
  /\ (e = ValueError \/ e = IndexError).
Proof.
  unfold table_grid, table_total_cols, table_cells.
  pose proof (count_rows_result E (find_all ["tr"] el) 0 ∅) as Hfirst.
  destruct (count_rows E 0 _ ∅) as [colspans|e1]; simpl.
  - destruct (place_rows E _ 0 _ [] _) as [[g log]|e2] eqn:H2; simpl; [done|].
    intros [= <-]. apply place_rows_raises in H2 as [-> | (-> & c & Hin & Hbad)].
    + split; [|by right]. split; [done|].
      intros (c & Hin & Hbad). by destruct (Hfirst c Hin).
    + by destruct (Hfirst c Hin).
  - intros [= <-]. destruct Hfirst as (-> & c & Hin & Hbad).
    split; [|by left]. split; [eauto | done].
Qed.

(** X16: the exceptions of [convert_table]. With tables passed through
    as HTML it never raises. Otherwise it raises [ValueError] exactly when
    the rowspan or the colspan attribute of some cell is not an integer;
    the only other exception it raises is [IndexError]. *)
Theorem X16_convert_table_exceptions (E : externals) (self : Markdownify)
    (el : node) :
  (html_tables_in_markdown self = true ->
   convert_table E self el = Ok ([NL; NL] ++ html_str E el ++ [NL; NL]))
  /\ (convert_table E self el = Raise ValueError <->
      html_tables_in_markdown self = false /\
      exists cell, In cell (table_cells el) /\ bad_span E cell)
  /\ (forall e, convert_table E self el = Raise e ->
                e = ValueError \/ e = IndexError).
Proof.
  unfold convert_table. split; [by intros ->|].
  destruct (html_tables_in_markdown self).
  { split; [split; [done | by intros [[=] _]] | done]. }
  destruct (table_grid E el) as [[[tc g] log]|e'] eqn:Hgrid; simpl.
  - split; [|done]. split; [done|].
    intros (_ & cell & Hin & Hbad). exfalso.
    revert Hgrid. unfold table_grid, table_total_cols.
    pose proof (count_rows_result E (find_all ["tr"] el) 0 ∅) as Hfirst.
    destruct (count_rows E 0 _ ∅) as [colspans|e1]; simpl; [|done].
    by destruct (Hfirst cell Hin).
  - apply table_grid_raises in Hgrid as [Hiff Hkind]. split.
    + split.
      * intros [= ->]. split; [done|]. by apply Hiff.
      * intros [_ Hbad]. f_equal. by apply Hiff.
    + by intros e [= <-].
Qed.

(** ** Tables: cells that span no other row *)

(** Arithmetic on lengths, whatever name the type of texts goes by. *)
Ltac len_lia := unfold str, char in *; lia.

Lemma grid_ext R C (g1 g2 : grid) :
  shape R C g1 -> shape R C g2 ->
  (forall r j, cell_at g1 r j = cell_at g2 r j) -> g1 = g2.
Proof.
  intros [Hl1 Hs1] [Hl2 Hs2] Hcells. unfold grid in *. apply list_eq. intros r.
  destruct (g1 !! r) as [row1|] eqn:H1, (g2 !! r) as [row2|] eqn:H2.
  - f_equal. apply list_eq. intros j. specialize (Hcells r j).
    unfold cell_at in Hcells. by rewrite H1, H2 in Hcells.
  - apply lookup_lt_Some in H1. apply lookup_ge_None in H2. lia.
  - apply lookup_lt_Some in H2. apply lookup_ge_None in H1. lia.
  - done.
Qed.

Lemma cell_at_insert_row (g : grid) i (row : list (option str)) r j :
  i < length g ->
  cell_at (<[i := row]> g) r j = if decide (r = i) then row !! j else cell_at g r j.
Proof.
  intros Hi. unfold cell_at, grid in *. case_decide as Hr.
  - subst. by rewrite list_lookup_insert_eq.
  - by rewrite list_lookup_insert_ne.
Qed.

Lemma shape_insert_row R C (g : grid) i (row : list (option str)) :
  shape R C g -> length row = C -> shape R C (<[i := row]> g).
Proof.
  intros [HR Hs] Hrow. unfold grid in *. split; [by rewrite length_insert|].
  by apply Forall_insert.
Qed.

(** A block written over the first unfilled positions of a row. *)
Lemma lookup_block (pre block : list (option str)) k j :
  length block <= k ->
  (pre ++ block ++ replicate (k - length block) None) !! j
  = if decide (length pre <= j < length pre + length block)
    then block !! (j - length pre)
    else (pre ++ replicate k None) !! j.
Proof.
  intros Hk. rewrite !lookup_app.
  destruct (pre !! j) as [x|] eqn:Hj.
  - apply lookup_lt_Some in Hj as Hlt. case_decide; [lia | done].
  - apply lookup_ge_None in Hj. case_decide as Hd.
    + destruct (block !! (j - length pre)) eqn:Hb; [done|].
      apply lookup_ge_None in Hb. lia.
    + rewrite (lookup_ge_None_2 block) by lia.
      destruct (decide (j - length pre < k)).
      * rewrite !lookup_replicate_2 by lia. done.
      * rewrite !(proj1 (lookup_replicate_None _ _ _)) by lia. done.
Qed.

Lemma cell_block_length E cs cell :
  (1 <= cs cell)%Z -> length (cell_block E cs cell) = Z.to_nat (cs cell).
Proof. intros H. unfold cell_block. simpl. rewrite length_replicate. lia. Qed.

Lemma cell_block_lookup E cs cell m :
  m < Z.to_nat (cs cell) ->
  cell_block E cs cell !! m
  = Some (Some (if decide (m = 0) then cell_value E cell else [])).
Proof.
  intros Hm. unfold cell_block. destruct m as [|m]; [done|].
  simpl. rewrite lookup_replicate_2 by lia. done.
Qed.

Section NoRowspan.
Variable E : externals.
Variable cs : node -> Z.
Variable R : nat.
Variable tc : Z.

Lemma place_cell_block i g (pre : list (option str)) k log cell :
  shape R (Z.to_nat tc) g ->
  g !! i = Some (pre ++ replicate k None) ->
  spans_read E cs (fun _ => 1%Z) cell -> (1 <= cs cell)%Z ->
  Z.to_nat (cs cell) <= k ->
  exists log',
    place_cell E tc i (g, Z.of_nat (length pre), log) cell
    = Ok (<[i := (pre ++ cell_block E cs cell)
                 ++ replicate (k - Z.to_nat (cs cell)) None]> g,
          Z.of_nat (length (pre ++ cell_block E cs cell)), log').
Proof using Type.
  intros Hshape Hrow [Hc Hr] Hcs Hk.
  assert (length (pre ++ replicate k None) = Z.to_nat tc) as Hlen.
  { destruct Hshape as [_ Hs]. eapply Forall_lookup in Hs; [|exact Hrow]. done. }
  rewrite length_app, length_replicate in Hlen.
  unfold place_cell. unfold grid in *. rewrite Hrow. simpl.
  destruct (skip_filled_spec (Z.to_nat (tc - Z.of_nat (length pre)))
              (pre ++ replicate k None) tc (Z.of_nat (length pre)))
    as (c' & Hskip & Hge & Hfilled & _).
  { lia. } { rewrite length_app, length_replicate. lia. } { lia. }
  assert (c' = Z.of_nat (length pre)) as ->.
  { destruct (Z.eq_dec c' (Z.of_nat (length pre))) as [|Hne]; [done|].
    destruct (Hfilled (Z.of_nat (length pre))) as (s & Hs); [lia|].
    rewrite Nat2Z.id, lookup_app_r, Nat.sub_diag in Hs by lia.
    rewrite lookup_replicate_2 in Hs by lia. done. }
  rewrite Hskip. simpl. rewrite Hr, Hc. simpl.
  destruct (Z.leb_spec tc (Z.of_nat (length pre))); [lia|].
  eexists. apply f_equal. apply (f_equal2 pair); [|reflexivity].
  apply (f_equal2 pair).
  - apply (grid_ext R (Z.to_nat tc)).
    + by apply fill_extent_shape.
    + destruct Hshape as [HR Hs]. split; [by rewrite length_insert|].
      apply Forall_insert; [done|].
      rewrite !length_app, cell_block_length, length_replicate by done. lia.
    + intros r j. rewrite fill_extent_at by lia.
      rewrite cell_at_insert_row by (by eapply lookup_lt_Some).
      rewrite Nat2Z.id. change (Z.to_nat 1) with 1.
      destruct (decide (r = i)) as [->|Hri].
      * unfold cell_at at 1. unfold grid in *. rewrite Hrow.
        rewrite <- app_assoc.
        replace (k - Z.to_nat (cs cell))
          with (k - length (cell_block E cs cell))
          by (by rewrite cell_block_length).
        rewrite lookup_block by (rewrite cell_block_length by done; lia).
        rewrite cell_block_length by done.
        destruct ((pre ++ replicate k None) !! j) as [old|] eqn:Hj.
        -- destruct (decide (length pre <= j < length pre + Z.to_nat (cs cell)))
             as [Hin | Hout].
           ++ rewrite cell_block_lookup by len_lia.
              rewrite decide_True by len_lia.
              do 2 f_equal. repeat case_decide; (done || len_lia).
           ++ rewrite decide_False by len_lia. done.
        -- apply lookup_ge_None in Hj.
           rewrite length_app, length_replicate in Hj.
           rewrite decide_False by len_lia. done.
      * destruct (cell_at g r j); [|done]. rewrite decide_False by len_lia. done.
  - rewrite length_app, cell_block_length by done. len_lia.
Qed.

Lemma place_cells_blocks i cells : forall g (pre : list (option str)) k log,
  shape R (Z.to_nat tc) g ->
  g !! i = Some (pre ++ replicate k None) ->
  (forall cell, In cell cells ->
     spans_read E cs (fun _ => 1%Z) cell /\ (1 <= cs cell)%Z) ->
  length (concat (map (cell_block E cs) cells)) <= k ->
  exists cur' log',
    place_cells E tc i (g, Z.of_nat (length pre), log) cells
    = Ok (<[i := (pre ++ concat (map (cell_block E cs) cells))
                 ++ replicate (k - length (concat (map (cell_block E cs) cells)))
                              None]> g,
          cur', log').
Proof using Type.
  induction cells as [|cell cells IH]; intros g pre k log Hshape Hrow Hok Hk.
  - simpl. rewrite app_nil_r, Nat.sub_0_r.
    unfold grid in *. rewrite list_insert_id by done. eauto.
  - destruct (Hok cell) as [Hread Hcs]; [by left|].
    cbn [map concat] in Hk |- *. rewrite length_app in Hk.
    rewrite cell_block_length in Hk by done.
    rewrite place_cells_cons.
    destruct (place_cell_block i g pre k log cell Hshape Hrow Hread Hcs)
      as (log1 & ->); [lia|].
    set (g1 := <[i := _]> g).
    assert (i < length g) as Hi by (by eapply lookup_lt_Some).
    destruct (IH g1 (pre ++ cell_block E cs cell) (k - Z.to_nat (cs cell)) log1)
      as (cur' & log' & ->).
    + apply shape_insert_row; [done|].
      destruct Hshape as [_ Hs]. eapply Forall_lookup in Hs; [|exact Hrow].
      rewrite !length_app, !length_replicate in *.
      rewrite cell_block_length by done. len_lia.
    + unfold g1, grid in *. by rewrite list_lookup_insert_eq.
    + intros c Hc. apply Hok. by right.
    + lia.
    + exists cur', log'. f_equal. f_equal. f_equal.
      unfold g1, grid in *. rewrite list_insert_insert_eq. f_equal.
      rewrite length_app, cell_block_length by done.
      rewrite <- !app_assoc. do 4 f_equal. len_lia.
Qed.

Lemma place_rows_blocks rows : forall i (done : grid) m log,
  length done = i -> i + m = R -> length rows <= m ->
  Forall (fun row => length row = Z.to_nat tc) done ->
  (forall row cell, In row rows -> In cell (find_all ["td"; "th"] row) ->
     spans_read E cs (fun _ => 1%Z) cell /\ (1 <= cs cell)%Z) ->
  (forall row, In row rows ->
     length (concat (map (cell_block E cs) (find_all ["td"; "th"] row)))
     <= Z.to_nat tc) ->
  exists log',
    place_rows E tc i (done ++ replicate m (replicate (Z.to_nat tc) None)) log rows
    = Ok (done ++ map (row_blocks E cs tc) rows
               ++ replicate (m - length rows) (replicate (Z.to_nat tc) None),
          log').
Proof using Type.
  induction rows as [|row rows IH]; intros i done m log Hi HR Hm Hdone Hok Hfit.
  - simpl. rewrite Nat.sub_0_r. eauto.
  - simpl in Hm. destruct m as [|m]; [lia|].
    rewrite place_rows_cons.
    set (g := done ++ replicate (S m) (replicate (Z.to_nat tc) None)).
    assert (shape R (Z.to_nat tc) g) as Hshape.
    { split.
      - unfold g. rewrite length_app, length_replicate. lia.
      - unfold g. apply Forall_app. split; [done|].
        apply Forall_replicate. apply length_replicate. }
    assert (g !! i = Some ([] ++ replicate (Z.to_nat tc) None)) as Hrow.
    { unfold g, grid in *. rewrite lookup_app_r by lia.
      replace (i - length done) with 0 by lia. done. }
    destruct (place_cells_blocks i (find_all ["td"; "th"] row) g []
                                 (Z.to_nat tc) log Hshape Hrow)
      as (cur' & log1 & Hcells).
    { intros cell Hcell. apply (Hok row); [by left | done]. }
    { apply Hfit. by left. }
    change (Z.of_nat (length [])) with 0%Z in Hcells. cbn [app] in Hcells.
    rewrite Hcells.
    cbv beta iota.
    match goal with
    | |- context [place_rows E tc (S i) ?g1 log1 rows] =>
        assert (g1 = (done ++ [row_blocks E cs tc row])
                     ++ replicate m (replicate (Z.to_nat tc) None)) as ->
    end.
    { unfold g, grid in *. rewrite insert_app_r_alt by lia.
      replace (i - length done) with 0 by lia. cbn [replicate].
      by rewrite <- app_assoc. }
    destruct (IH (S i) (done ++ [row_blocks E cs tc row]) m log1) as (log' & ->).
    + rewrite length_app. simpl. lia.
    + lia.
    + lia.
    + apply Forall_app. split; [done|]. constructor; [|done].
      unfold row_blocks. rewrite length_app, length_replicate.
      specialize (Hfit row ltac:(by left)). lia.
    + intros r c Hr. apply Hok. by right.
    + intros r Hr. apply Hfit. by right.
    + exists log'. f_equal. f_equal. rewrite <- app_assoc. done.
Qed.

End NoRowspan.

Lemma max_or_zero_ge l x : In x l -> (x <= max_or_zero l)%Z.
Proof.
  unfold max_or_zero. destruct l as [|c l]; [done|].
  assert (forall l a, (a <= foldl Z.max a l)%Z /\
                      forall y, In y l -> (y <= foldl Z.max a l)%Z) as H.
  { clear. induction l as [|z l IH]; intros a; simpl.
    - split; [lia | done].
    - destruct (IH (Z.max a z)) as [H1 H2]. split; [lia|].
      intros y [<- | Hy]; [lia | by apply H2]. }
  destruct (H l c) as [H1 H2]. intros [<- | Hx]; [done | by apply H2].
Qed.

Lemma blocks_length E cs cells :
  (forall cell, In cell cells -> (1 <= cs cell)%Z) ->
  length (concat (map (cell_block E cs) cells)) = Z.to_nat (sum_Z (map cs cells))
  /\ (0 <= sum_Z (map cs cells))%Z.
Proof.
  induction cells as [|cell cells IH]; intros Hcs; [done|].
  destruct IH as [IH1 IH2]; [intros c Hc; apply Hcs; by right|].
  specialize (Hcs cell ltac:(by left)).
  cbn [map concat]. rewrite length_app, cell_block_length, IH1 by done.
  unfold sum_Z in *. cbn [foldr]. lia.
Qed.

Lemma table_total_cols_own E el cs rs :
  (forall cell, In cell (table_cells el) -> spans_read E cs rs cell) ->
  (forall cell, In cell (table_cells el) -> (rs cell <= 2)%Z) ->
  table_total_cols E el = Ok (max_or_zero (map (own_cols cs) (find_all ["tr"] el))).
Proof.
  intros Hok Hrs. set (rows := find_all ["tr"] el).
  destruct (count_rows_spec E cs rs rows 0 ∅ Hok) as (l & Hcount & Hlen & Hl).
  unfold table_total_cols. fold rows. rewrite Hcount. simpl. do 2 f_equal.
  apply list_eq. intros i. rewrite list_lookup_fmap.
  destruct (rows !! i) as [row|] eqn:Hi; simpl.
  - rewrite (Hl i row Hi), carried_cols_bumps, carried_cols_none by done.
    unfold counter. rewrite lookup_empty. simpl. f_equal. lia.
  - apply lookup_ge_None. apply lookup_ge_None in Hi. lia.
Qed.

(** X17: the grid of a table in which no cell spans more than one row
    and every colspan is at least one. The count of columns is the
    largest sum of colspans of a row, and each row of the grid holds the
    cells of its row in order, each as its text followed by the empty
    string up to its colspan, with unfilled positions after the last
    cell. When all colspans are one, the row holds the texts of the cells
    one by one. *)
Theorem X17_grid_without_rowspans (E : externals) (el : node) (cs : node -> Z) :
  (forall cell, In cell (table_cells el) ->
     spans_read E cs (fun _ => 1%Z) cell /\ (1 <= cs cell)%Z) ->
  let rows := find_all ["tr"] el in
  let total_cols := max_or_zero (map (own_cols cs) rows) in
  (exists log,
     table_grid E el = Ok (total_cols, map (row_blocks E cs total_cols) rows, log))
  /\ (forall row,
        (forall cell, In cell (find_all ["td"; "th"] row) -> cs cell = 1%Z) ->
        row_blocks E cs total_cols row
        = map (fun cell => Some (cell_value E cell)) (find_all ["td"; "th"] row)
          ++ replicate (Z.to_nat total_cols - length (find_all ["td"; "th"] row))
                       None).
Proof.
  intros Hok rows tc. split.
  - unfold table_grid. fold rows.
    rewrite (table_total_cols_own E el cs (fun _ => 1%Z))
      by (intros cell Hin; (by apply Hok) || lia).
    fold rows. fold tc. simpl.
    destruct (place_rows_blocks E cs (length rows) tc rows 0 [] (length rows) [])
      as (log' & Hrows); try done.
    + intros row cell Hrow Hcell. apply Hok. unfold table_cells.
      apply in_flat_map. eauto.
    + intros row Hrow.
      destruct (blocks_length E cs (find_all ["td"; "th"] row)) as [-> Hnn].
      { intros cell Hcell. apply Hok. unfold table_cells.
        apply in_flat_map. eauto. }
      assert (own_cols cs row <= tc)%Z; [|unfold own_cols in *; lia].
      apply max_or_zero_ge. apply in_map_iff. eauto.
    + cbn [app] in Hrows. unfold empty_grid.
      rewrite Nat.sub_diag, app_nil_r in Hrows. rewrite Hrows. simpl. eauto.
  - intros row Hone. unfold row_blocks. cbv zeta.
    assert (concat (map (cell_block E cs) (find_all ["td"; "th"] row))
            = map (fun cell => Some (cell_value E cell))
                  (find_all ["td"; "th"] row)) as ->.
    { induction (find_all ["td"; "th"] row) as [|cell cells IH]; [done|].
      cbn [map concat]. rewrite IH by (intros c Hc; apply Hone; by right).
      unfold cell_block. rewrite (Hone cell) by (by left). done. }
    by rewrite length_map.
Qed.

Lemma X17_grid_without_rowspans_witness :
  (forall cell, In cell (table_cells wide_example) ->
     spans_read ascii_externals (fun cell => spec_span ascii_externals cell "colspan")
                (fun _ => 1%Z) cell
     /\ (1 <= spec_span ascii_externals cell "colspan")%Z)
  /\ exists log,
       table_grid ascii_externals wide_example
       = Ok (3%Z, [[Some (txt "A"); Some (txt "B"); Some []];
                   [Some (txt "C"); None; None]], log).
Proof.
  assert (forall cell, In cell (table_cells wide_example) ->
            spans_read ascii_externals
                       (fun cell => spec_span ascii_externals cell "colspan")
                       (fun _ => 1%Z) cell
            /\ (1 <= spec_span ascii_externals cell "colspan")%Z) as H.
  { intros cell Hin. vm_compute in Hin.
    destruct Hin as [<- | [<- | [<- | []]]]; by vm_compute. }
  split; [exact H|].
  exact (proj1 (X17_grid_without_rowspans ascii_externals wide_example _ H)).
Defined.

(** ** Lists without nested lists *)

Lemma li_lines_flat E items :
  (forall li, In li items -> find_children ["ul"; "ol"] li = []) ->
  li_lines E items = Ok (map (fun li => li_line E (strip (li_text li))) items).
Proof.
  induction items as [|li items IH]; intros Hflat; [done|].
  cbn [li_lines map]. rewrite (Hflat li) by (by left). cbn [nested_lines].
  rewrite IH by (intros l Hl; apply Hflat; by right). done.
Qed.

(** X18: a list whose items hold no nested list gives one line for each
    item, in order, joined by newlines and followed by an empty line; the
    lines are made from the text of the items, so the converted text of
    the children that the handler receives plays no part. *)
Theorem X18_flat_list (E : externals) (el : node) (text : str)
    (parent_tags : list string) :
  let items := find_children ["li"] el in
  items <> [] ->
  (forall li, In li items -> find_children ["ul"; "ol"] li = []) ->
  convert_ul E el text parent_tags
  = Ok (join [NL] (map (fun li => li_line E (strip (li_text li))) items)
        ++ [NL; NL])
  /\ forall text' parent_tags',
       convert_ul E el text' parent_tags' = convert_ul E el text parent_tags.
Proof.
  intros items Hne Hflat. unfold convert_ul. fold items.
  destruct items as [|li items'] eqn:Hitems; [done|].
  rewrite li_lines_flat by done. split; done.
Qed.

Lemma X18_flat_list_witness :
  find_children ["li"] ul_example <> []
  /\ (forall li, In li (find_children ["li"] ul_example) ->
                 find_children ["ul"; "ol"] li = [])
  /\ convert_ul ascii_externals ul_example [] []
     = Ok (txt "- Introduction" ++ [NL; NL]).
Proof.
  assert (find_children ["li"] ul_example <> []) as Hne by done.
  assert (forall li, In li (find_children ["li"] ul_example) ->
                     find_children ["ul"; "ol"] li = []) as Hflat.
  { intros li Hin. vm_compute in Hin. by destruct Hin as [<- | []]. }
  split; [exact Hne|]. split; [exact Hflat|].
  exact (proj1 (X18_flat_list ascii_externals ul_example [] [] Hne Hflat)).
Defined.

(** ** Spans and formulas *)

(** X19: [convert_span] returns the text as it is exactly when the span
    has no [id] attribute or an empty one; otherwise the text is put
    inside a [span] element that carries the identifier. *)
Theorem X19_convert_span (el : node) (text : str) :
  (convert_span el text = text <->
   get el "id" = None \/ get el "id" = Some [])
  /\ (forall id, get el "id" = Some id -> id <> [] ->
        convert_span el text
        = txt "<span id=" ++ [34%N] ++ id ++ [34%N] ++ txt ">" ++ text
          ++ txt "</span>").
Proof.
  unfold convert_span. split.
  - destruct (get el "id") as [[|c id]|]; [split; auto | | split; auto].
    split; [|by intros [[=] | [=]]].
    intros H. apply (f_equal length) in H.
    rewrite !length_app in H. simpl in H. lia.
  - intros id -> Hid. by destruct id.
Qed.

Lemma strip_spaces_around (W1 W2 text : str) :
  Forall (fun c => is_space c = true) W1 ->
  Forall (fun c => is_space c = true) W2 ->
  strip (W1 ++ text ++ W2) = strip text.
Proof.
  intros H1 H2. rewrite app_assoc, strip_app_spaces by done.
  unfold strip, lstrip. by rewrite drop_while_all.
Qed.

(** X20: a formula is framed by its delimiters with the whitespace at its
    ends removed, so whitespace around the text of a formula changes
    nothing; a block formula (display is [block]) stands between
    newlines, any other between spaces. *)
Theorem X20_convert_math_trims (self : Markdownify) (el : node)
    (W1 W2 text : str) :
  Forall (fun c => is_space c = true) W1 ->
  Forall (fun c => is_space c = true) W2 ->
  convert_math self el (W1 ++ text ++ W2) = convert_math self el text
  /\ (get el "display" = Some (txt "block") ->
      convert_math self el text
      = [NL] ++ fst (block_math_delimiters self) ++ strip text
        ++ snd (block_math_delimiters self) ++ [NL])
  /\ (get el "display" <> Some (txt "block") ->
      convert_math self el text
      = [SPACE] ++ fst (inline_math_delimiters self) ++ strip text
        ++ snd (inline_math_delimiters self) ++ [SPACE]).
Proof.
  intros H1 H2. unfold convert_math. split; [|split].
  - by rewrite strip_spaces_around.
  - intros ->. assert (text_eqb (txt "block") (txt "block") = true) as ->; done.
  - intros Hd. destruct (get el "display") as [d|]; [|done].
    assert (text_eqb d (txt "block") = false) as ->; [|done].
    apply text_eqb_false. congruence.
Qed.

Lemma X20_convert_math_trims_witness :
  Forall (fun c => is_space c = true) [SPACE]
  /\ Forall (fun c => is_space c = true) [NL]
  /\ convert_math default_config (Tag "math" None [] [])
                  ([SPACE] ++ txt "x" ++ [NL])
     = txt " $x$ ".
Proof.
  assert (Forall (fun c => is_space c = true) [SPACE]) as H1
    by (by repeat constructor).
  assert (Forall (fun c => is_space c = true) [NL]) as H2
    by (by repeat constructor).
  split; [exact H1|]. split; [exact H2|].
  rewrite (proj1 (X20_convert_math_trims default_config (Tag "math" None [] [])
                    [SPACE] [NL] (txt "x") H1 H2)).
  reflexivity.
Defined.

(** ** Handlers: when they return and when they raise *)

Lemma convert_p_raises E el text e :
  convert_p E el text = Raise e <->
  has_continuation el = true /\ e = KeyError /\
  (get el "block-type" = None \/
   exists name, get el "block-type" = Some name /\
                BlockTypes_getitem E name = Raise KeyError).
Proof.
  unfold convert_p, getitem. destruct (has_continuation el); simpl.
  2:{ split; [done | by intros [[=] _]]. }
  destruct (get el "block-type") as [name|]; simpl.
  2:{ split; [intros [= <-]; auto|]. by intros (_ & -> & _). }
  destruct (BlockTypes_getitem E name) as [bt|e'] eqn:Hbt; simpl.
  - split.
    + destruct bt; try done; by destruct (re_match _ _).
    + intros (_ & _ & [[=] | (name' & [= <-] & Hr)]). congruence.
  - pose proof (BlockTypes_getitem_raises E name e' Hbt) as ->.
    split; [intros [= <-]; eauto 6 | by intros (_ & -> & _)].
Qed.

Lemma convert_table_raises E self el e :
  convert_table E self el = Raise e ->
  html_tables_in_markdown self = false /\
  (e = ValueError <-> exists cell, In cell (table_cells el) /\ bad_span E cell) /\
  (e = ValueError \/ e = IndexError).
Proof.
  unfold convert_table. destruct (html_tables_in_markdown self); [done|].
  destruct (table_grid E el) as [[[tc g] log]|e'] eqn:Hgrid; simpl; [done|].
  intros [= <-]. split; [done|]. by apply table_grid_raises.
Qed.

Lemma convert_table_bad_span E self el cell :
  html_tables_in_markdown self = false ->
  In cell (table_cells el) -> bad_span E cell ->
  convert_table E self el = Raise ValueError.
Proof.
  intros Hhtml Hin Hbad. unfold convert_table. rewrite Hhtml.
  destruct (table_grid E el) as [[[tc g] log]|e'] eqn:Hgrid; simpl.
  - exfalso. revert Hgrid. unfold table_grid, table_total_cols.
    pose proof (count_rows_result E (find_all ["tr"] el) 0 ∅) as Hfirst.
    destruct (count_rows E 0 _ ∅) as [colspans|e1]; simpl; [|done].
    by destruct (Hfirst cell Hin).
  - apply table_grid_raises in Hgrid as [Hiff _]. f_equal. apply Hiff. eauto.
Qed.

(** C3, as amended. [convert_p] returns a string exactly when the
    paragraph has no has-continuation class, or has a block-type
    attribute that names a member of [BlockTypes]; otherwise, the
    attribute missing or naming no member, it raises [KeyError], and it
    raises nothing else. [convert_table] returns a string when tables are
    passed through as HTML, or when the rowspan and colspan attributes of
    every cell are integers, colspans not negative; without the
    passthrough it raises [ValueError] exactly when the rowspan or the
    colspan attribute of some cell is not an integer, and the only other
    exception it raises is [IndexError]. *)
Theorem C3_handlers_return (E : externals) (self : Markdownify) (el : node)
    (text : str) :
  ((has_continuation el = false \/
    exists name block_type,
      get el "block-type" = Some name /\
      BlockTypes_getitem E name = Ok block_type) <->
   exists out, convert_p E el text = Ok out) /\
  (forall e,
     convert_p E el text = Raise e <->
     has_continuation el = true /\ e = KeyError /\
     (get el "block-type" = None \/
      exists name, get el "block-type" = Some name /\
                   BlockTypes_getitem E name = Raise KeyError)) /\
  ((html_tables_in_markdown self = true \/
    forall cell, In cell (table_cells el) -> spans_ok E cell) ->
   exists out, convert_table E self el = Ok out) /\
  (convert_table E self el = Raise ValueError <->
   html_tables_in_markdown self = false /\
   exists cell, In cell (table_cells el) /\ bad_span E cell) /\
  (forall e, convert_table E self el = Raise e ->
             e = ValueError \/ e = IndexError).
Proof.
  split; [|split; [|split; [|split]]].
  - split; [apply convert_p_returns|]. intros [out Hout].
    destruct (has_continuation el) eqn:Hc; [|by left]. right.
    destruct (get el "block-type") as [name|] eqn:Hname.
    + destruct (BlockTypes_getitem E name) as [bt|e] eqn:Hbt; [eauto|].
      pose proof (BlockTypes_getitem_raises E name e Hbt) as ->.
      assert (convert_p E el text = Raise KeyError) as Hr.
      { apply convert_p_raises. eauto 6. }
      congruence.
    + assert (convert_p E el text = Raise KeyError) as Hr.
      { apply convert_p_raises. eauto. }
      congruence.
  - intros e. apply convert_p_raises.
  - unfold convert_table. intros [-> | Hok]; [by eexists|].
    destruct (html_tables_in_markdown self); [by eexists|].
    destruct (table_grid_safe E el Hok) as (tc & g & log & -> & _).
    by eexists.
  - split.
    + intros Hr. apply convert_table_raises in Hr as (Hhtml & Hiff & _).
      split; [done|]. by apply Hiff.
    + intros (Hhtml & cell & Hin & Hbad). by eapply convert_table_bad_span.
  - intros e Hr. by apply convert_table_raises in Hr as (_ & _ & ?).
Qed.
